(** * JSDev: a shallow embedding of jsdev.c

    JSDev is a one-pass preprocessor that turns tagged slash-star comments
    into executable JavaScript.  This development embeds the scanner of
    [jsdev.c] as Rocq functions over an explicit cursor state and proves
    properties of the expansion, of the pass-through behaviour, of the
    regexp/division convention and of the diagnostics.

    Conventions of the embedding.
    - A C [int] holding a character is a [Z]; [EOF] is [-1].  [stdin] is the
      list of bytes still to be read, each in [0..255] as [fgetc] returns
      them.
    - The static variables [preview], [cr], [line_nr] and the text written
      to [stdout] form the record [state]; every function of the source
      that touches them is a function in the monad [M].
    - [error] prints a diagnostic and exits: it is the result [Fail], which
      keeps the message and the state (hence [line_nr]) at the exit.
    - [fputc] and [fputs] on [stdout] are taken to succeed, so the
      "write error." exit of [emit] and [emits] is not reachable.
    - Every [for (;;)] and [while] loop of the source is a [Fixpoint] on a
      fuel argument; [Timeout] is the result of running out of fuel, and the
      totality theorems below show that the fuel given by [jsdev] is always
      enough. *)

From Stdlib Require Import String Ascii.
From Stdlib Require Import ZArith List Bool Lia.
Import ListNotations.
Local Open Scope string_scope.
Local Open Scope list_scope.
Local Open Scope Z_scope.

(** ** Characters *)

Notation "'EOF'" := (-1) (only parsing, at level 0).
Notation "'LF'" := (10) (only parsing, at level 0).
Notation "'CR'" := (13) (only parsing, at level 0).
Notation "'SPACE'" := (32) (only parsing, at level 0).
Notation "'BANG'" := (33) (only parsing, at level 0).
Notation "'DQUOTE'" := (34) (only parsing, at level 0).
Notation "'AMP'" := (38) (only parsing, at level 0).
Notation "'SQUOTE'" := (39) (only parsing, at level 0).
Notation "'LPAREN'" := (40) (only parsing, at level 0).
Notation "'RPAREN'" := (41) (only parsing, at level 0).
Notation "'STAR'" := (42) (only parsing, at level 0).
Notation "'COMMA'" := (44) (only parsing, at level 0).
Notation "'SLASH'" := (47) (only parsing, at level 0).
Notation "'COLON'" := (58) (only parsing, at level 0).
Notation "'SEMI'" := (59) (only parsing, at level 0).
Notation "'EQUALS'" := (61) (only parsing, at level 0).
Notation "'QUESTION'" := (63) (only parsing, at level 0).
Notation "'LBRACKET'" := (91) (only parsing, at level 0).
Notation "'BACKSLASH'" := (92) (only parsing, at level 0).
Notation "'RBRACKET'" := (93) (only parsing, at level 0).
Notation "'BACKQUOTE'" := (96) (only parsing, at level 0).
Notation "'LBRACE'" := (123) (only parsing, at level 0).
Notation "'BAR'" := (124) (only parsing, at level 0).
Notation "'RBRACE'" := (125) (only parsing, at level 0).

Definition MAX_TAG_LENGTH : nat := 80.

(** The bytes of a string literal, for writing inputs and outputs. *)
Fixpoint bytes (t : String.string) : list Z :=
  match t with
  | String.EmptyString => []
  | String.String a t' => Z.of_N (Ascii.N_of_ascii a) :: bytes t'
  end.

(** ** The cursor state and the monad of the scanner *)

Record state : Type := mkState {
  input : list Z;     (* what fgetc(stdin) has not returned yet *)
  preview : Z;        (* static int preview *)
  cr : bool;          (* static int cr *)
  line_nr : Z;        (* static int line_nr *)
  out : list Z        (* what has been written to stdout *)
}.

Definition set_input (l : list Z) (s : state) : state :=
  mkState l (preview s) (cr s) (line_nr s) (out s).
Definition set_preview (p : Z) (s : state) : state :=
  mkState (input s) p (cr s) (line_nr s) (out s).
Definition set_cr (b : bool) (s : state) : state :=
  mkState (input s) (preview s) b (line_nr s) (out s).
Definition set_line_nr (n : Z) (s : state) : state :=
  mkState (input s) (preview s) (cr s) n (out s).
Definition write (l : list Z) (s : state) : state :=
  mkState (input s) (preview s) (cr s) (line_nr s) (out s ++ l).

Inductive result (A : Type) : Type :=
| Ok (a : A) (s : state)
| Fail (msg : String.string) (s : state)
| Timeout.
Arguments Ok {A} a s.
Arguments Fail {A} msg s.
Arguments Timeout {A}.

Definition M (A : Type) : Type := state -> result A.

Definition ret {A} (a : A) : M A := fun s => Ok a s.

Definition bind {A B} (m : M A) (k : A -> M B) : M B :=
  fun s =>
    match m s with
    | Ok a s' => k a s'
    | Fail msg s' => Fail msg s'
    | Timeout => Timeout
    end.

Notation "x <- m ;; k" := (bind m (fun x => k))
  (at level 61, m at next level, right associativity).
Notation "m ;;; k" := (bind m (fun _ => k))
  (at level 61, right associativity).

Definition modify (f : state -> state) : M unit := fun s => Ok tt (f s).
Definition timeout {A} : M A := fun _ => Timeout.

(** [error]: the diagnostic carries [line_nr] of the state it exits in; a
    [line_nr] of 0 is printed as "bad method line". *)
Definition error {A} (message : String.string) : M A :=
  fun s => Fail message s.

(** The diagnostic of a run: the line number and the message printed. *)
Definition diagnostic {A} (r : result A) : option (Z * String.string) :=
  match r with
  | Fail msg s => Some (line_nr s, msg)
  | _ => None
  end.

(** ** Lexical classifiers *)

Definition is_alphanum (c : Z) : bool :=
  ((97 <=? c) && (c <=? 122)) ||
  ((48 <=? c) && (c <=? 57)) ||
  ((65 <=? c) && (c <=? 90)) ||
  (c =? 95) || (c =? 36) || (c =? 46).

Definition pre_regexp (left : Z) : bool :=
  (left =? LPAREN) || (left =? COMMA) || (left =? EQUALS) ||
  (left =? COLON) || (left =? LBRACKET) || (left =? BANG) ||
  (left =? AMP) || (left =? BAR) || (left =? QUESTION) ||
  (left =? LBRACE) || (left =? RBRACE) || (left =? SEMI).

Definition is_quote (c : Z) : bool :=
  (c =? SQUOTE) || (c =? DQUOTE) || (c =? BACKQUOTE).
Definition is_open (c : Z) : bool :=
  (c =? LPAREN) || (c =? LBRACE) || (c =? LBRACKET).
Definition is_close (c : Z) : bool :=
  (c =? RPAREN) || (c =? RBRACE) || (c =? RBRACKET).

(** ** Output and the cursor *)

Definition emit (c : Z) : M Z :=
  fun s => if 0 <? c then Ok c (write [c] s) else Ok c s.

Definition emits (t : list Z) : M unit := modify (write t).

Definition fgetc : M Z :=
  fun s =>
    match input s with
    | [] => Ok EOF s
    | b :: r => Ok b (set_input r s)
    end.

Definition peek : M Z :=
  fun s =>
    if preview s =? 0
    then (c <- fgetc ;; modify (set_preview c) ;;; ret c) s
    else Ok (preview s) s.

Definition get (echo : bool) : M Z :=
  c <- (fun s => if preview s =? 0 then fgetc s
                 else Ok (preview s) (set_preview 0 s)) ;;
  if c <=? 0 then ret EOF
  else
    (fun s =>
       if c =? CR then Ok tt (set_line_nr (line_nr s + 1) (set_cr true s))
       else
         let s1 := if (c =? LF) && negb (cr s)
                   then set_line_nr (line_nr s + 1) s else s in
         Ok tt (set_cr false s1)) ;;;
    (if echo then emit c else ret c) ;;;
    ret c.

Definition unget (c : Z) : M unit := modify (set_preview c).

(** [peek() == c], as a test with the side effect of [peek]. *)
Definition peek_is (c : Z) : M bool := p <- peek ;; ret (p =? c).

(** [a && m] and [m1 || m2] with C's short-circuit evaluation. *)
Definition andM (a : bool) (m : M bool) : M bool :=
  if a then m else ret false.
Definition orM (m1 m2 : M bool) : M bool :=
  b <- m1 ;; if b then ret true else m2.

(** ** Literal scanners *)

Fixpoint string_loop (fuel : nat) (quote : Z) (in_comment : bool) (was : Z)
  : M unit :=
  match fuel with
  | O => timeout
  | S fuel' =>
      c <- get true ;;
      if c =? quote then ret tt
      else
        c <- (if c =? BACKSLASH then get true else ret c) ;;
        b <- andM (in_comment && (c =? STAR)) (peek_is SLASH) ;;
        if b then error "unexpected close comment in string."
        else if c =? EOF
        then modify (set_line_nr was) ;;;
             error "unterminated string literal."
        else string_loop fuel' quote in_comment was
  end.

Definition string (fuel : nat) (quote : Z) (in_comment : bool) : M unit :=
  fun s => string_loop fuel quote in_comment (line_nr s) s.

(** The inner loop of [regexp], entered after a left bracket. *)
Fixpoint regexp_set (fuel : nat) (in_comment : bool) : M unit :=
  match fuel with
  | O => timeout
  | S fuel' =>
      c <- get true ;;
      if c =? RBRACKET then ret tt
      else
        c <- (if c =? BACKSLASH then get true else ret c) ;;
        b <- andM (in_comment && (c =? STAR)) (peek_is SLASH) ;;
        if b then error "unexpected close comment in regexp."
        else if c =? EOF
        then error "unterminated set in Regular Expression literal."
        else regexp_set fuel' in_comment
  end.

Fixpoint regexp_loop (fuel : nat) (in_comment : bool) (was : Z) : M unit :=
  match fuel with
  | O => timeout
  | S fuel' =>
      c <- get true ;;
      let rest (c : Z) : M unit :=
        b <- andM (in_comment && (c =? STAR)) (peek_is SLASH) ;;
        if b then error "unexpected comment."
        else if c =? EOF
        then modify (set_line_nr was) ;;;
             error "unterminated regexp literal."
        else regexp_loop fuel' in_comment was in
      if c =? LBRACKET then
        regexp_set fuel' in_comment ;;; rest RBRACKET
      else if c =? SLASH then
        b <- andM in_comment (orM (peek_is SLASH) (peek_is STAR)) ;;
        if b then error "unexpected comment." else ret tt
      else if c =? BACKSLASH then
        c <- get true ;; rest c
      else rest c
  end.

Definition regexp (fuel : nat) (in_comment : bool) : M unit :=
  fun s => regexp_loop fuel in_comment (line_nr s) s.

(** ** The macro expander *)

Fixpoint condition_loop (fuel : nat) (left paren : Z) : M unit :=
  match fuel with
  | O => timeout
  | S fuel' =>
      c <- get true ;;
      let next (paren : Z) : M unit :=
        condition_loop fuel' (if SPACE <? c then c else left) paren in
      if is_open c then next (paren + 1)
      else if is_close c then
        if paren - 1 =? 0 then ret tt else next (paren - 1)
      else if c =? EOF then error "Unterminated condition."
      else if is_quote c then string fuel' c true ;;; next paren
      else if c =? SLASH then
        b <- orM (peek_is SLASH) (peek_is STAR) ;;
        if b then error "unexpected comment."
        else (if pre_regexp left then regexp fuel' true else ret tt) ;;;
             next paren
      else
        b <- andM (c =? STAR) (peek_is SLASH) ;;
        if b then error "unclosed condition." else next paren
  end.

Definition condition (fuel : nat) : M unit := condition_loop fuel LBRACE 0.

(** [while (peek() == ' ') get(FALSE);] *)
Fixpoint skip_spaces (fuel : nat) : M unit :=
  match fuel with
  | O => timeout
  | S fuel' =>
      b <- peek_is SPACE ;;
      if b then get false ;;; skip_spaces fuel' else ret tt
  end.

(** The [while (peek() == '*')] loop of [stuff]; the result is [true] when
    the loop has found the end of the comment and [stuff] returns. *)
Fixpoint stuff_stars (fuel : nat) (paren : Z) : M bool :=
  match fuel with
  | O => timeout
  | S fuel' =>
      b <- peek_is STAR ;;
      if b then
        get false ;;;
        b <- peek_is SLASH ;;
        if b then
          get false ;;;
          if 0 <? paren then error "Unbalanced stuff" else ret true
        else emit STAR ;;; stuff_stars fuel' paren
      else ret false
  end.

(** One turn of the [for (;;)] loop of [stuff]: [None] when [stuff]
    returns, the new [left] and [paren] otherwise. *)
Definition stuff_iter (fuel : nat) (left paren : Z) : M (option (Z * Z)) :=
  done <- stuff_stars fuel paren ;;
  if done then ret None
  else
    c <- get true ;;
    let next (paren : Z) : M (option (Z * Z)) :=
      ret (Some (if SPACE <? c then c else left, paren)) in
    if c =? EOF then error "Unterminated stuff."
    else if is_quote c then string fuel c true ;;; next paren
    else if is_open c then next (paren + 1)
    else if is_close c then
      if paren - 1 <? 0 then error "Unbalanced stuff" else next (paren - 1)
    else if c =? SLASH then
      b <- orM (peek_is SLASH) (peek_is STAR) ;;
      if b then error "unexpected comment."
      else (if pre_regexp left then regexp fuel true else ret tt) ;;;
           next paren
    else next paren.

Fixpoint stuff_loop (fuel : nat) (left paren : Z) : M unit :=
  match fuel with
  | O => timeout
  | S fuel' =>
      r <- stuff_iter fuel' left paren ;;
      match r with
      | None => ret tt
      | Some (left', paren') => stuff_loop fuel' left' paren'
      end
  end.

Definition stuff (fuel : nat) : M unit :=
  skip_spaces fuel ;;; stuff_loop fuel LBRACE 0.

(** The registry: [tags[i]] and [methods[i]], an empty method standing for
    [methods[i][0] == 0]. *)
Definition registry : Type := list (list Z * list Z).

Definition method_of (reg : registry) (tag_nr : Z) : list Z :=
  snd (nth (Z.to_nat tag_nr) reg ([], [])).

Definition expand (fuel : nat) (reg : registry) (tag_nr : Z) : M unit :=
  c <- peek ;;
  (if c =? LPAREN
   then emits (bytes "if ") ;;; condition fuel ;;; emit SPACE ;;; ret tt
   else ret tt) ;;;
  emit LBRACE ;;;
  match method_of reg tag_nr with
  | [] => stuff fuel ;;; emit RBRACE ;;; ret tt
  | m => emits m ;;; emit LPAREN ;;; stuff fuel ;;; emits (bytes ");}")
  end.

(** [strcmp(tag, tags[tag_nr]) == 0] on strings without NUL. *)
Definition str_eqb (a b : list Z) : bool :=
  if list_eq_dec Z.eq_dec a b then true else false.

Fixpoint match_from (tag : list Z) (reg : registry) (tag_nr : Z) : Z :=
  match reg with
  | [] => EOF
  | (t, _) :: reg' =>
      if str_eqb tag t then tag_nr else match_from tag reg' (tag_nr + 1)
  end.

Definition match_ (tag : list Z) (reg : registry) : Z := match_from tag reg 0.

(** ** The driver *)

(** The loop that reads the candidate tag: [n] is [MAX_TAG_LENGTH - i],
    [tag] the characters stored so far and [c] the last value of [c]. *)
Fixpoint read_tag (n : nat) (tag : list Z) (c : Z) : M (list Z * Z) :=
  match n with
  | O => ret (tag, c)
  | S n' =>
      c <- get false ;;
      if is_alphanum c then read_tag n' (tag ++ [c]) c else ret (tag, c)
  end.

(** The loop that echoes a slash-slash comment. *)
Fixpoint line_comment (fuel : nat) : M unit :=
  match fuel with
  | O => timeout
  | S fuel' =>
      c <- get true ;;
      if (c =? LF) || (c =? CR) || (c =? EOF) then ret tt
      else line_comment fuel'
  end.

(** The loop that echoes a comment whose tag did not match. *)
Fixpoint echo_comment (fuel : nat) (c : Z) : M unit :=
  match fuel with
  | O => timeout
  | S fuel' =>
      if c =? EOF then error "unterminated comment."
      else if c =? SLASH then
        c <- get true ;;
        if (c =? STAR) || (c =? SLASH) then error "nested comment."
        else echo_comment fuel' c
      else if c =? STAR then
        c <- get true ;;
        if c =? SLASH then ret tt else echo_comment fuel' c
      else
        c <- get true ;; echo_comment fuel' c
  end.

(** The candidate tag of a slash-star comment: the star is read, then the
    tag, and the last character read is pushed back.  The result is the
    tag and that character. *)
Definition candidate (c : Z) : M (list Z * Z) :=
  get false ;;;
  r <- read_tag MAX_TAG_LENGTH [] c ;;
  unget (snd r) ;;;
  ret r.

(** The slash-star branch of [process]. *)
Definition block_comment (fuel : nat) (reg : registry) (c : Z) : M Z :=
  r <- candidate c ;;
  let '(tag, c) := r in
  let i := if (length tag =? 0)%nat then -1 else match_ tag reg in
  if 0 <=? i then expand fuel reg i ;;; get false
  else
    emits (bytes "/*") ;;;
    emits tag ;;;
    echo_comment fuel c ;;;
    get false.

(** The single-slash branch of [process]. *)
Definition lone_slash (fuel : nat) (left : Z) : M Z :=
  emit SLASH ;;;
  (if pre_regexp left then regexp fuel false else ret tt) ;;;
  get false.

(** One turn of the [for (;;)] loop of [process]: [None] at the [break],
    the new [c] and [left] otherwise. *)
Definition process_step (fuel : nat) (reg : registry) (c left : Z)
  : M (option (Z * Z)) :=
  if c =? EOF then ret None
  else if is_quote c then
    emit c ;;;
    string fuel c false ;;;
    ret (Some (0, left))
  else if c =? SLASH then
    b <- peek_is SLASH ;;
    if b then
      emit SLASH ;;;
      line_comment fuel ;;;
      c <- get false ;;
      ret (Some (c, left))
    else
      b <- peek_is STAR ;;
      if b then
        c <- block_comment fuel reg c ;;
        ret (Some (c, left))
      else
        c <- lone_slash fuel left ;;
        ret (Some (c, SLASH))
  else
    emit c ;;;
    c' <- get false ;;
    ret (Some (c', if SPACE <? c then c else left)).

Fixpoint process_loop (fuel : nat) (reg : registry) (c left : Z) : M unit :=
  match fuel with
  | O => timeout
  | S fuel' =>
      r <- process_step fuel' reg c left ;;
      match r with
      | None => ret tt
      | Some (c', left') => process_loop fuel' reg c' left'
      end
  end.

Definition process (fuel : nat) (reg : registry) : M unit :=
  modify (set_line_nr 1) ;;;
  c <- get false ;;
  process_loop fuel reg c 0.

(** ** The method line *)

(** The loops of [main] over [argv[i][j]]: [a] is the argument from
    position [j] on ([hd 0 a] reads the terminating NUL at its end), [n]
    the turns left and [c] the last value of [c].  The result is the
    characters stored, the last value of [c] and the argument from the
    final position on. *)
Fixpoint scan_name (n : nat) (a : list Z) (c : Z)
  : list Z * Z * list Z :=
  match n with
  | O => ([], c, a)
  | S n' =>
      let c' := hd 0 a in
      if is_alphanum c' then
        let '(w, c2, r) := scan_name n' (tl a) c' in (c' :: w, c2, r)
      else ([], c', a)
  end.

(** The message of [error(argv[i])]. *)
Fixpoint text (l : list Z) : String.string :=
  match l with
  | [] => String.EmptyString
  | c :: l' =>
      String.String (Ascii.ascii_of_N (Z.to_N c)) (text l')
  end.

(** The last branch of the loop of [main]: [argv[i]] declares a tag. *)
Definition declare (arg : list Z) (c : Z) : M (list Z * list Z * Z) :=
  let '(tag, c, r) := scan_name MAX_TAG_LENGTH arg c in
  (if (length tag =? 0)%nat then error (text arg) else ret tt) ;;;
  if c =? 0 then ret (tag, [], c)
  else if c =? COLON then
    let '(method, c, _) := scan_name MAX_TAG_LENGTH (tl r) c in
    if (length method =? 0)%nat || negb (c =? 0)
    then error (text arg)
    else ret (tag, method, c)
  else error (text arg).

Fixpoint configure (argv : list (list Z)) (comment : bool) (c : Z)
  (reg : registry) : M registry :=
  match argv with
  | [] => ret reg
  | arg :: argv' =>
      if comment then
        emits (bytes "// ") ;;;
        emits arg ;;;
        emit LF ;;;
        configure argv' false c reg
      else if str_eqb arg (bytes "-comment") then
        configure argv' true c reg
      else
        d <- declare arg c ;;
        let '(tag, method, c) := d in
        configure argv' false c (reg ++ [(tag, method)])
  end.

Definition initial (stdin : list Z) : state :=
  mkState stdin 0 false 0 [].

(** [main]: [argv] is the command line after the program name. *)
Definition main (fuel : nat) (argv : list (list Z)) : M unit :=
  reg <- configure argv false EOF [] ;;
  process fuel reg.

(** A run of the program on a command line and an input, with a fuel that
    the totality theorem shows to be enough. *)
Definition jsdev (argv : list (list Z)) (stdin : list Z) : result unit :=
  main (length stdin + 2) argv (initial stdin).

(** A run of [process] alone on a registry and an input. *)
Definition run (reg : registry) (stdin : list Z) : result unit :=
  process (length stdin + 2) reg (initial stdin).

(** The text written to stdout by a run that ends without a diagnostic. *)
Definition output {A} (r : result A) : option (list Z) :=
  match r with
  | Ok _ s => Some (out s)
  | _ => None
  end.

(** * Vocabulary of the specification *)

Definition wp {A} (m : M A) (s : state)
  (Q : A -> state -> Prop) (E : String.string -> state -> Prop) (T : Prop)
  : Prop :=
  match m s with
  | Ok a s' => Q a s'
  | Fail msg s' => E msg s'
  | Timeout => T
  end.

(** The characters that [get] will return: the pushed-back character, if
    there is one, and then the rest of stdin. *)
Definition stream (s : state) : list Z :=
  (if 0 <? preview s then [preview s] else []) ++ input s.

(** A state that reads a text: no NUL is left in the stream, and an [EOF]
    in [preview] was read at the end of stdin. *)
Definition wf (s : state) : Prop :=
  Forall (fun b => 0 < b) (stream s) /\
  (preview s < 0 -> preview s = EOF /\ input s = []).

(** The change of [line_nr] when [get] returns [c]. *)
Definition tick (c : Z) (cr : bool) : Z :=
  if c =? CR then 1 else if (c =? LF) && negb cr then 1 else 0.

(** What [get] does: it returns a character [c > 0], the head of the
    stream, or [EOF]; on a text, [EOF] is returned at its end only. *)
Inductive get_post (echo : bool) (s : state) : Z -> state -> Prop :=
| get_char c s' :
    0 < c -> preview s' = 0 ->
    stream s = c :: stream s' ->
    cr s' = (c =? CR) ->
    line_nr s' = line_nr s + tick c (cr s) ->
    out s' = out s ++ (if echo then [c] else []) ->
    (wf s -> wf s') ->
    get_post echo s c s'
| get_eof s' :
    preview s <= 0 -> preview s' = 0 ->
    (length (stream s') <= length (stream s))%nat ->
    cr s' = cr s -> line_nr s' = line_nr s -> out s' = out s ->
    (wf s -> stream s = [] /\ stream s' = [] /\ wf s') ->
    get_post echo s EOF s'.

(** What [peek] does: it returns the head of the stream and leaves it in
    [preview], or a value that is not a character; on a text, that value
    is [EOF] and the text is at its end. *)
Inductive peek_post (s : state) : Z -> state -> Prop :=
| peek_char c s' :
    0 < c -> preview s' = c ->
    stream s = stream s' -> hd EOF (stream s) = c ->
    cr s' = cr s -> line_nr s' = line_nr s -> out s' = out s ->
    (wf s -> wf s') ->
    peek_post s c s'
| peek_none c s' :
    c <= 0 -> preview s' = c ->
    (length (stream s') <= length (stream s))%nat ->
    cr s' = cr s -> line_nr s' = line_nr s -> out s' = out s ->
    (wf s -> c = EOF /\ stream s = [] /\ stream s' = [] /\ wf s') ->
    peek_post s c s'.

(** The state after [emit c]. *)
Definition emitted (c : Z) (s : state) : state :=
  if 0 <? c then write [c] s else s.

(** The length of the stream, the measure of every loop. *)
Definition mu (s : state) : nat := length (stream s).

(** The measure of the loop of [process]: the stream and the character in
    hand. *)
Definition mu_c (c : Z) (s : state) : nat :=
  (mu s + (if (c =? EOF)%Z then 0 else 1))%nat.

(** From [s0] to [s] the scanner has read a text [w] and written it. *)
Definition echo_rel (s0 s : state) : Prop :=
  exists w, stream s0 = w ++ stream s /\ out s = out s0 ++ w.

(** From [s0] to [s] the scanner has read a text [body] followed by the
    end of the comment, and written [body]. *)
Definition stuff_rel (s0 s : state) : Prop :=
  exists body,
    stream s0 = body ++ STAR :: SLASH :: stream s /\ out s = out s0 ++ body.

(** From [s0] to [s] the scanner has read spaces and written nothing; the
    next character is not a space. *)
Definition skip_rel (s0 s : state) : Prop :=
  out s = out s0 /\ hd EOF (stream s) <> SPACE /\
  exists n, stream s0 = repeat SPACE n ++ stream s.

(** The four shapes of an expansion: [cond] is the condition with its
    parentheses (empty when there is none), [method] the method of the tag
    (empty when there is none), [body] the stuff. *)
Definition expansion (cond method body : list Z) : list Z :=
  match cond, method with
  | [], [] => bytes "{" ++ body ++ bytes "}"
  | _ :: _, [] => bytes "if " ++ cond ++ bytes " {" ++ body ++ bytes "}"
  | [], _ :: _ => bytes "{" ++ method ++ bytes "(" ++ body ++ bytes ");}"
  | _ :: _, _ :: _ =>
      bytes "if " ++ cond ++ bytes " {" ++
      method ++ bytes "(" ++ body ++ bytes ");}"
  end.

(** What [stuff] reads from [s] to [s']: spaces, then [body], then the end
    of the comment. *)
Definition stuff_text (s s' : state) (body : list Z) : Prop :=
  hd EOF (body ++ [STAR]) <> SPACE /\
  exists n, stream s = repeat SPACE n ++ body ++ STAR :: SLASH :: stream s'.

(** The character in hand in the loop of [process], as text: [c] has been
    read and not yet written. *)
Definition pending (c : Z) : list Z := if 0 <? c then [c] else [].

(** The identifier characters at the head of a text, [n] at most. *)
Fixpoint ident_run (n : nat) (l : list Z) : list Z :=
  match n, l with
  | S n', c :: r => if is_alphanum c then c :: ident_run n' r else []
  | _, _ => []
  end.

(** What the loop of [read_tag] does on the text [l], leaving [l']: either
    it stops at a character [c'] that is not an identifier character, or
    it has stored [n] characters and [c'] is the last of them. *)
Definition read_rel (n : nat) (c : Z) (l : list Z) (c' : Z) (l' : list Z)
  : Prop :=
  let w := ident_run n l in
  if (length w <? n)%nat
  then is_alphanum c' = false /\ l = w ++ pending c' ++ l' /\
       (c' <= 0 -> c' = EOF /\ l' = [])
  else l = w ++ l' /\ c' = last w c.

(** A text contains the end of a comment. *)
Fixpoint has_close (l : list Z) : bool :=
  match l with
  | a :: r =>
      ((a =? STAR) && (hd 0 r =? SLASH)) || has_close r
  | [] => false
  end.

(** [t] is read after the character [c]: the first end of a comment in
    [c :: t] is at its end. *)
Definition closes_at_end (c : Z) (t : list Z) : Prop :=
  exists v, c :: t = v ++ [STAR; SLASH] /\ has_close (v ++ [STAR]) = false.

(** What [expand] reads from [s] to [s']: the condition, if the text
    starts with a left parenthesis, then what [stuff] reads. *)
Definition expand_text (s s' : state) (cond body : list Z) : Prop :=
  (cond = [] <-> hd EOF (stream s) <> LPAREN) /\
  hd EOF (body ++ [STAR]) <> SPACE /\
  exists n,
    stream s = cond ++ repeat SPACE n ++ body ++ STAR :: SLASH :: stream s'.

(** The text of a comment whose tag does not match: [body] between the
    slash-star and the first star-slash. *)
Definition comment_text (body : list Z) : list Z :=
  SLASH :: STAR :: body ++ [STAR; SLASH].

(** The text [l] starts with a slash-star that is followed by a tag of the
    registry, or by [MAX_TAG_LENGTH] identifier characters. *)
Definition opens_tagged (reg : registry) (l : list Z) : bool :=
  match l with
  | a :: b :: rest =>
      (a =? SLASH) && (b =? STAR) &&
      let w := ident_run MAX_TAG_LENGTH rest in
      ((MAX_TAG_LENGTH <=? length w)%nat ||
       (negb (length w =? 0)%nat && (0 <=? match_ w reg)))
  | _ => false
  end.

(** No slash-star of [l] is followed by a tag of the registry or by
    [MAX_TAG_LENGTH] identifier characters. *)
Fixpoint plain (reg : registry) (l : list Z) : bool :=
  match l with
  | [] => true
  | c :: r => negb (opens_tagged reg l) && plain reg r
  end.

(** A text: stdin without NUL. *)
Definition is_text (l : list Z) : Prop :=
  forallb (fun b => 0 <? b) l = true.

(** One turn of the loop of [process] that reads and writes the same
    text [w], the characters in hand included. *)
Definition step_rel (c : Z) (s : state) (c' : Z) (s' : state) : Prop :=
  exists w, pending c ++ stream s = w ++ pending c' ++ stream s' /\
            out s' = out s ++ w.

(** The character in hand is a character, or 0 after a string, or [EOF]
    at the end of the text. *)
Definition in_hand (c : Z) (s : state) : Prop :=
  c <= 0 -> c = 0 \/ (c = EOF /\ stream s = []).

(** The text [l] holds a closing [quote] that is not escaped. *)
Fixpoint closed (quote : Z) (l : list Z) : bool :=
  match l with
  | [] => false
  | c :: r =>
      if c =? quote then true
      else if c =? BACKSLASH then
        match r with
        | [] => false
        | _ :: r' => closed quote r'
        end
      else closed quote r
  end.

(** The values of [c] and [left] and the state at the head of each turn
    of the loop of [process_loop]. *)
Fixpoint driver (fuel : nat) (reg : registry) (c left : Z) (s : state)
  : list (Z * Z * state) :=
  match fuel with
  | O => []
  | S fuel' =>
      (c, left, s) ::
      match process_step fuel' reg c left s with
      | Ok (Some (c', left')) s' => driver fuel' reg c' left' s'
      | _ => []
      end
  end.

(** The configurations of [run reg stdin]. *)
Definition configurations (reg : registry) (stdin : list Z)
  : list (Z * Z * state) :=
  match (modify (set_line_nr 1) ;;; get false) (initial stdin) with
  | Ok c s => driver (length stdin + 2) reg c 0 s
  | _ => []
  end.

(** The character in hand, [left] and the text written so far. *)
Definition view (k : Z * Z * state) : Z * Z * list Z :=
  let '(c, l, s) := k in (c, l, out s).

(** The last character above space of a text, 0 when there is none. *)
Definition last_significant (l : list Z) : Z :=
  fold_left (fun acc b => if SPACE <? b then b else acc) l 0.

(** The text with each line feed replaced by a carriage return and a line
    feed. *)
Definition crlf (l : list Z) : list Z :=
  flat_map (fun b => if b =? LF then [CR; LF] else [b]) l.

(** A text without carriage return. *)
Definition nocr (l : list Z) : Prop :=
  forallb (fun b => negb (b =? CR)) l = true.

(** What [fgetc] and [preview] hold for the calls of [get] to come: the
    value in [preview], unless it is 0, and then stdin. *)
Definition ahead (s : state) : list Z :=
  (if preview s =? 0 then [] else [preview s]) ++ input s.

(** What [get] returns when it is given [h]. *)
Definition char_of (h : Z) : Z := if h <=? 0 then EOF else h.

(** The state [s] reads a text with line feeds and [t] the same text with
    carriage returns and line feeds, at the same place and with the same
    count of lines. *)
Definition sim (s t : state) : Prop :=
  cr s = false /\ nocr (ahead s) /\
  line_nr s = line_nr t /\ ahead t = crlf (ahead s).

(** As [sim], when [s] has read a line feed and [t] the carriage return
    before it only. *)
Definition lag (s t : state) : Prop :=
  cr s = false /\ nocr (ahead s) /\
  line_nr s = line_nr t /\ cr t = true /\
  ahead t = LF :: crlf (ahead s).

(** Two runs end in the same way: both without a diagnostic, in results
    related by [Q], or both with the same message and the same line; a
    run out of fuel is related to every run. *)
Definition rel {A B} (m1 : M A) (m2 : M B) (s t : state)
  (Q : A -> state -> B -> state -> Prop) : Prop :=
  match m1 s, m2 t with
  | Timeout, _ => True
  | _, Timeout => True
  | Ok a s', Ok b t' => Q a s' b t'
  | Fail msg s', Fail msg' t' => msg = msg' /\ line_nr s' = line_nr t'
  | _, _ => False
  end.

(** What two runs of [get] return from states in [sim]. *)
Definition got (c : Z) (s' : state) (c' : Z) (t' : state) : Prop :=
  preview s' = 0 /\ preview t' = 0 /\
  ((c = EOF /\ c' = EOF /\ sim s' t') \/
   (0 < c /\ c <> LF /\ c <> CR /\ c' = c /\ sim s' t') \/
   (c = LF /\ c' = CR /\ lag s' t')).

(** The character that the next [get] returns. *)
Definition head_is (s : state) (c : Z) : Prop :=
  char_of (hd EOF (ahead s)) = c.

(** The characters that the two runs have in hand at the same place. *)
Definition chr (c c' : Z) : Prop := c' = c \/ (c = LF /\ c' = CR).

(** The two runs at the head of a loop that holds a character: at the same
    place; or at a pair, the first run after its line feed and the second
    after the carriage return; or the second one [get] behind the first,
    with the line feed of a pair in hand. *)
Definition hand (c : Z) (s : state) (c' : Z) (t : state) : Prop :=
  (chr c c' /\ sim s t) \/
  (c = LF /\ c' = CR /\ lag s t) \/
  (c' = LF /\ exists s0 echo, sim s0 t /\ get echo s0 = Ok c s).

(** The results of a turn of the loop of [process] in the two runs. *)
Definition turn (r : option (Z * Z)) (s : state)
  (r' : option (Z * Z)) (t : state) : Prop :=
  match r, r' with
  | None, None => True
  | Some (c, l), Some (c', l') => l' = l /\ hand c s c' t
  | _, _ => False
  end.

(** A character of a body that [stuff] reads as it is: a character of the
    text that is not a quote and not a slash. *)
Definition counted (c : Z) : bool :=
  (0 <? c) && negb (is_quote c) && negb (c =? SLASH).

(** The depth of the brackets after the text [l], from the depth [d];
    [None] when a closing bracket is met at the depth 0. *)
Fixpoint depth (d : Z) (l : list Z) : option Z :=
  match l with
  | [] => Some d
  | c :: r =>
      if is_open c then depth (d + 1) r
      else if is_close c then
        if d - 1 <? 0 then None else depth (d - 1) r
      else depth d r
  end.

(** A character of a condition that [condition] reads as it is: a counted
    character that is not a bracket. *)
Definition quiet (c : Z) : bool :=
  counted c && negb (is_open c) && negb (is_close c).

(** The text of a condition, when there is one: a left parenthesis, quiet
    characters and a right parenthesis. *)
Definition conditional (cond : list Z) : Prop :=
  cond = [] \/
  exists inner, forallb quiet inner = true /\
                cond = LPAREN :: inner ++ [RPAREN].

(** The weight of a state: the count of lines and twice the length of
    the text to come.  No call of the scanner adds to it: a character is
    read once, and once more when [unget] has pushed it back. *)
Definition weight (s : state) : Z := line_nr s + 2 * Z.of_nat (mu s).

(** The count of lines is at least [L] and the weight at most [B]. *)
Definition within (L B : Z) (s : state) : Prop :=
  L <= line_nr s /\ weight s <= B.

(** A call that keeps the state within the bounds, whether it ends with
    or without a diagnostic. *)
Definition bounded {A} (L B : Z) (m : M A) (s : state) : Prop :=
  wp m s (fun _ s' => within L B s') (fun _ s' => within L B s') True.

(** The driver is at a tagged comment: the character in hand is a slash
    and the text after it starts with a star that is followed by a tag of
    the registry, or by [MAX_TAG_LENGTH] identifier characters. *)
Definition at_tagged (reg : registry) (k : Z * Z * state) : bool :=
  let '(c, _, s) := k in
  (c =? SLASH) && opens_tagged reg (SLASH :: stream s).

(** The scanner meets no tagged comment on [stdin]: none of the
    configurations of the run is at a tagged comment.  A slash-star in a
    string literal, in a regexp literal, in a line comment or in a
    comment whose tag does not match is read inside a turn and is no
    configuration. *)
Definition untagged (reg : registry) (stdin : list Z) : bool :=
  negb (existsb (at_tagged reg) (configurations reg stdin)).

(** The line breaks of the text [l]: a carriage return, a line feed, and
    a carriage return followed by a line feed are one line break each. *)
Fixpoint spec_breaks (l : list Z) : Z :=
  match l with
  | [] => 0
  | c :: r =>
      if c =? CR then
        1 + match r with
            | c2 :: r' => if c2 =? LF then spec_breaks r' else spec_breaks r
            | [] => 0
            end
      else if c =? LF then 1 + spec_breaks r
      else spec_breaks r
  end.

(** The line on which the character after the text [l] stands, the first
    line being line 1. *)
Definition spec_line_of (l : list Z) : Z := 1 + spec_breaks l.

(** A character that is not above space. *)
Definition is_blank (b : Z) : bool := (0 <? b) && (b <=? SPACE).

(** The greatest value of the C type of [line_nr]. *)
Definition INT_MAX : Z := 2147483647.

(** The size of the arrays [tags] and [methods]. *)
Definition MAX_NR_TAGS : nat := 100.

(** The token of the method line that declares [tag] with [method], an
    empty [method] standing for a tag without method. *)
Definition token (d : list Z * list Z) : list Z :=
  match snd d with
  | [] => fst d
  | _ :: _ => fst d ++ COLON :: snd d
  end.

(** A name that the loops of [main] store whole: identifier characters,
    less than [MAX_TAG_LENGTH] of them. *)
Definition is_name (w : list Z) : bool :=
  forallb is_alphanum w && (length w <? MAX_TAG_LENGTH)%nat.

(** A tag with its method, or with an empty method. *)
Definition is_declaration (d : list Z * list Z) : bool :=
  is_name (fst d) && negb (length (fst d) =? 0)%nat && is_name (snd d).

(** The state [s] with the text [p] written before its output. *)
Definition prepend (p : list Z) (s : state) : state :=
  mkState (input s) (preview s) (cr s) (line_nr s) (p ++ out s).

(** The result [r] with its state changed by [f]. *)
Definition rmap {A} (f : state -> state) (r : result A) : result A :=
  match r with
  | Ok a s => Ok a (f s)
  | Fail msg s => Fail msg (f s)
  | Timeout => Timeout
  end.

(** A computation that does the same whatever has been written before
    it, and leaves that text in front of what it writes. *)
Definition framed {A} (m : M A) : Prop :=
  forall p s, m (prepend p s) = rmap (prepend p) (m s).

(** The text [l] up to its first [quote] that is not escaped, that quote
    included: the string literal that [l] starts with, after its opening
    quote. *)
Fixpoint literal (quote : Z) (l : list Z) : list Z :=
  match l with
  | [] => []
  | c :: r =>
      if c =? quote then [c]
      else if c =? BACKSLASH then
        match r with
        | [] => [c]
        | e :: r' => c :: e :: literal quote r'
        end
      else c :: literal quote r
  end.

(** The text [l], read after the opening slash of a regexp literal (or,
    when [set] holds, inside a set of such a literal), holds the closing
    slash: a slash that is not escaped and not inside a set. *)
Fixpoint re_closed (set : bool) (l : list Z) : bool :=
  match l with
  | [] => false
  | c :: r =>
      if set then
        if c =? RBRACKET then re_closed false r
        else if c =? BACKSLASH then
          match r with
          | [] => false
          | _ :: r' => re_closed true r'
          end
        else re_closed true r
      else
        if c =? LBRACKET then re_closed true r
        else if c =? SLASH then true
        else if c =? BACKSLASH then
          match r with
          | [] => false
          | _ :: r' => re_closed false r'
          end
        else re_closed false r
  end.

(** The text [l] up to that closing slash, the slash included. *)
Fixpoint re_literal (set : bool) (l : list Z) : list Z :=
  match l with
  | [] => []
  | c :: r =>
      if set then
        if c =? RBRACKET then c :: re_literal false r
        else if c =? BACKSLASH then
          match r with
          | [] => [c]
          | e :: r' => c :: e :: re_literal true r'
          end
        else c :: re_literal true r
      else
        if c =? LBRACKET then c :: re_literal true r
        else if c =? SLASH then [c]
        else if c =? BACKSLASH then
          match r with
          | [] => [c]
          | e :: r' => c :: e :: re_literal false r'
          end
        else c :: re_literal false r
  end.

(** The text [l] ends inside a set that is not closed. *)
Fixpoint re_open_set (set : bool) (l : list Z) : bool :=
  match l with
  | [] => set
  | c :: r =>
      if set then
        if c =? RBRACKET then re_open_set false r
        else if c =? BACKSLASH then
          match r with
          | [] => true
          | _ :: r' => re_open_set true r'
          end
        else re_open_set true r
      else
        if c =? LBRACKET then re_open_set true r
        else if c =? SLASH then false
        else if c =? BACKSLASH then
          match r with
          | [] => false
          | _ :: r' => re_open_set false r'
          end
        else re_open_set false r
  end.

(** The lines that [get] counts when it reads the text [l], [cr] telling
    whether the character before it was a carriage return. *)
Fixpoint line_breaks (cr : bool) (l : list Z) : Z :=
  match l with
  | [] => 0
  | c :: r => tick c cr + line_breaks (c =? CR) r
  end.

(** The line at the end of the text that is still to be read. *)
Definition last_line (s : state) : Z :=
  line_nr s + line_breaks (cr s) (stream s).

(** A text without line break. *)
Definition no_break (l : list Z) : bool :=
  forallb (fun b => negb ((b =? LF) || (b =? CR))) l.

(** A text without line feed. *)
Definition nolf (l : list Z) : Prop :=
  forallb (fun b => negb (b =? LF)) l = true.

(** As [sim], and what [t] has written is what [s] has written, with a
    carriage return before each line feed. *)
Definition simo (s t : state) : Prop :=
  sim s t /\ out t = crlf (out s).

(** As [lag]; [e] tells whether the line feed and the carriage return
    have been written as they were read. *)
Definition lago (e : bool) (s t : state) : Prop :=
  lag s t /\ crlf (out s) = out t ++ (if e then [LF] else []).

(** What two runs of [get e] return from states in [simo]. *)
Definition goto (e : bool) (c : Z) (s' : state) (c' : Z) (t' : state)
  : Prop :=
  preview s' = 0 /\ preview t' = 0 /\
  ((c = EOF /\ c' = EOF /\ simo s' t') \/
   (0 < c /\ c <> LF /\ c <> CR /\ c' = c /\ simo s' t') \/
   (c = LF /\ c' = CR /\ lago e s' t')).

(** No method of the registry holds a line feed. *)
Definition nolf_methods (reg : registry) : Prop :=
  forall d, In d reg -> nolf (snd d).

(** The two runs at the head of the loop of an unmatched comment, whose
    character in hand is written when it is read. *)
Definition hande (c : Z) (s : state) (c' : Z) (t : state) : Prop :=
  (chr c c' /\ simo s t) \/
  (c = LF /\ c' = CR /\ lago true s t) \/
  (c' = LF /\ exists s0, simo s0 t /\ get true s0 = Ok c s).

(** The two runs at the head of the loop of [process], whose character
    in hand is still to be written. *)
Definition handp (c : Z) (s : state) (c' : Z) (t : state) : Prop :=
  (c' = c /\ c <> LF /\ simo s t) \/
  (c = LF /\ c' = CR /\ lago false s t) \/
  (c' = LF /\
   exists s0, sim s0 t /\ crlf (out s0) = out t ++ [LF] /\
              get false s0 = Ok c s).

(** The results of a turn of the loop of [process] in the two runs,
    with what they have written. *)
Definition turno (r : option (Z * Z)) (s : state)
  (r' : option (Z * Z)) (t : state) : Prop :=
  match r, r' with
  | None, None => out t = crlf (out s)
  | Some (c, l), Some (c', l') => l' = l /\ handp c s c' t
  | _, _ => False
  end.

(** * Reasoning about runs *)

(** ** A weakest-precondition calculus for [M]

    [wp m s Q E T]: the run of [m] from [s] ends in [Ok a s'] with
    [Q a s'], or in [Fail msg s'] with [E msg s'], or runs out of fuel and
    [T] holds.  [T := False] gives total correctness. *)

Lemma wp_bind {A B} (m : M A) (k : A -> M B) s Q E T :
  wp m s (fun a s' => wp (k a) s' Q E T) E T -> wp (bind m k) s Q E T.
Proof.
  unfold wp, bind. destruct (m s); auto.
Qed.

Lemma wp_ret {A} (a : A) s (Q : A -> state -> Prop) E T :
  Q a s -> wp (ret a) s Q E T.
Proof. exact (fun H => H). Qed.

Lemma wp_error {A} msg s (Q : A -> state -> Prop)
  (E : String.string -> state -> Prop) T :
  E msg s -> wp (error msg) s Q E T.
Proof. exact (fun H => H). Qed.

Lemma wp_modify f s (Q : unit -> state -> Prop) E T :
  Q tt (f s) -> wp (modify f) s Q E T.
Proof. exact (fun H => H). Qed.

Lemma wp_timeout {A} s (Q : A -> state -> Prop) E (T : Prop) :
  T -> wp (@timeout A) s Q E T.
Proof. exact (fun H => H). Qed.

Lemma wp_mono {A} (m : M A) s (Q Q' : A -> state -> Prop)
  (E E' : String.string -> state -> Prop) (T T' : Prop) :
  wp m s Q E T ->
  (forall a s', Q a s' -> Q' a s') ->
  (forall msg s', E msg s' -> E' msg s') ->
  (T -> T') ->
  wp m s Q' E' T'.
Proof.
  unfold wp. destruct (m s); auto.
Qed.

Lemma wp_ok {A} (m : M A) s a s' Q E T :
  wp m s Q E T -> m s = Ok a s' -> Q a s'.
Proof. unfold wp. intros H Hm. rewrite Hm in H. exact H. Qed.

Lemma wp_fail {A} (m : M A) s msg s' Q E T :
  wp m s Q E T -> m s = Fail msg s' -> E msg s'.
Proof. unfold wp. intros H Hm. rewrite Hm in H. exact H. Qed.

Lemma wp_total {A} (m : M A) s Q E :
  wp m s Q E False -> m s <> Timeout.
Proof. unfold wp. intros H Hm. rewrite Hm in H. exact H. Qed.

(** ** The text still to be read *)

Lemma wf_nil_stream l p b n o :
  p <= 0 -> (p < 0 -> p = EOF /\ l = []) -> Forall (fun b => 0 < b) l ->
  wf (mkState l p b n o).
Proof.
  intros Hp Hneg Hl. unfold wf, stream; simpl.
  replace (0 <? p) with false by (symmetry; apply Z.ltb_ge; lia).
  split; auto.
Qed.

Lemma get_spec echo s :
  exists c s', get echo s = Ok c s' /\ get_post echo s c s'.
Proof.
  destruct s as [inp p c l o].
  unfold get, bind, fgetc, ret, emit; simpl.
  destruct (Z.eqb_spec p 0) as [->|Hp]; simpl.
  - destruct inp as [|b r]; simpl.
    + do 2 eexists; split; [reflexivity|].
      apply get_eof; simpl; auto; try lia.
    + destruct (Z.leb_spec b 0).
      * do 2 eexists; split; [reflexivity|].
        apply get_eof; simpl; auto; try lia.
        intros [W _]. unfold stream in W; simpl in W.
        inversion W; lia.
      * assert (Hb : (0 <? b) = true) by (apply Z.ltb_lt; lia).
        assert (W : wf (mkState (b :: r) 0 c l o) ->
                    forall x y z, wf (mkState r 0 x y z)).
        { intros [W _] x y z. unfold stream in W; simpl in W.
          inversion W; subst. apply wf_nil_stream; auto; lia. }
        unfold tick.
        destruct (Z.eqb_spec b 13); destruct (Z.eqb_spec b 10);
          destruct c; destruct echo; simpl;
          rewrite ?Hb; simpl; (do 2 eexists; split; [reflexivity|]).
        all: apply get_char; simpl; auto; try lia.
        all: try (rewrite app_nil_r; reflexivity).
        all: try (unfold tick; destruct (Z.eqb_spec b 13);
                  destruct (Z.eqb_spec b 10); simpl; lia).
        all: intros Hw; apply W; exact Hw.
  - destruct (Z.leb_spec p 0).
    + do 2 eexists; split; [reflexivity|].
      assert (Hb : (0 <? p) = false) by (apply Z.ltb_ge; lia).
      apply get_eof; simpl; auto; try lia.
      * unfold stream; simpl. rewrite Hb. simpl. lia.
      * intros [W1 W2]. simpl in *. destruct W2 as [_ ->]; [lia|].
        split; [unfold stream; simpl; rewrite Hb; reflexivity|].
        split; [reflexivity|]. apply wf_nil_stream; auto; lia.
    + assert (Hb : (0 <? p) = true) by (apply Z.ltb_lt; lia).
      assert (W : wf (mkState inp p c l o) ->
                  forall x y z, wf (mkState inp 0 x y z)).
      { intros [W _] x y z. unfold stream in W; simpl in W.
        rewrite Hb in W. inversion W; subst.
        apply wf_nil_stream; auto; lia. }
      unfold tick.
      destruct (Z.eqb_spec p 13); destruct (Z.eqb_spec p 10);
        destruct c; destruct echo; simpl;
        rewrite ?Hb; simpl; (do 2 eexists; split; [reflexivity|]).
      all: apply get_char; simpl; auto; try lia.
      all: try (unfold stream; simpl; rewrite Hb; reflexivity).
      all: try (rewrite app_nil_r; reflexivity).
      all: try (unfold tick; destruct (Z.eqb_spec p 13);
                destruct (Z.eqb_spec p 10); simpl; lia).
      all: intros Hw; apply W; exact Hw.
Qed.

Lemma wp_get echo s (Q : Z -> state -> Prop) E T :
  (forall c s', get_post echo s c s' -> Q c s') -> wp (get echo) s Q E T.
Proof.
  intros H. destruct (get_spec echo s) as (c & s' & Hg & Hp).
  unfold wp. rewrite Hg. auto.
Qed.

Lemma peek_spec s : exists c s', peek s = Ok c s' /\ peek_post s c s'.
Proof.
  destruct s as [inp p c l o].
  unfold peek, bind, fgetc, ret, modify; simpl.
  destruct (Z.eqb_spec p 0) as [->|Hp]; simpl.
  - destruct inp as [|b r]; simpl.
    + do 2 eexists; split; [reflexivity|].
      apply peek_none; simpl; auto; try lia.
      intros _. repeat split; auto; simpl; lia.
    + do 2 eexists; split; [reflexivity|].
      destruct (Z.leb_spec b 0).
      * assert (Hb : (0 <? b) = false) by (apply Z.ltb_ge; lia).
        apply peek_none; simpl; auto; try lia.
        { unfold set_preview, set_input, stream; simpl.
          rewrite Hb. simpl; lia. }
        intros [W _]. unfold stream in W; simpl in W. inversion W; lia.
      * assert (Hb : (0 <? b) = true) by (apply Z.ltb_lt; lia).
        apply peek_char; simpl; auto.
        { unfold set_preview, set_input, stream; simpl. rewrite Hb.
          reflexivity. }
        intros [W _]. split.
        { unfold set_preview, set_input, stream in *; simpl in *.
          rewrite Hb. exact W. }
        simpl; lia.
  - do 2 eexists; split; [reflexivity|].
    destruct (Z.leb_spec p 0).
    + assert (Hb : (0 <? p) = false) by (apply Z.ltb_ge; lia).
      apply peek_none; simpl; auto.
      intros [W1 W2]. simpl in *. destruct W2 as [-> ->]; [lia|].
      repeat split; auto.
    + assert (Hb : (0 <? p) = true) by (apply Z.ltb_lt; lia).
      apply peek_char; simpl; auto.
      unfold stream; simpl. rewrite Hb. reflexivity.
Qed.

Lemma wp_peek s (Q : Z -> state -> Prop) E T :
  (forall c s', peek_post s c s' -> Q c s') -> wp peek s Q E T.
Proof.
  intros H. destruct (peek_spec s) as (c & s' & Hg & Hp).
  unfold wp. rewrite Hg. auto.
Qed.

Lemma wp_peek_is ch s (Q : bool -> state -> Prop) E T :
  (forall c s', peek_post s c s' -> Q (c =? ch) s') ->
  wp (peek_is ch) s Q E T.
Proof.
  intros H. unfold peek_is. apply wp_bind, wp_peek. intros c s' Hp.
  apply wp_ret. auto.
Qed.

Lemma wp_emit c s (Q : Z -> state -> Prop) E T :
  Q c (emitted c s) -> wp (emit c) s Q E T.
Proof.
  unfold wp, emit, emitted. destruct (0 <? c); auto.
Qed.

(** The fields of the states that the output functions build. *)
Lemma stream_write l s : stream (write l s) = stream s.
Proof. reflexivity. Qed.
Lemma stream_set_line_nr n s : stream (set_line_nr n s) = stream s.
Proof. reflexivity. Qed.
Lemma stream_emitted c s : stream (emitted c s) = stream s.
Proof. unfold emitted. destruct (0 <? c); reflexivity. Qed.
Lemma preview_write l s : preview (write l s) = preview s.
Proof. reflexivity. Qed.
Lemma preview_set_line_nr n s : preview (set_line_nr n s) = preview s.
Proof. reflexivity. Qed.
Lemma preview_emitted c s : preview (emitted c s) = preview s.
Proof. unfold emitted. destruct (0 <? c); reflexivity. Qed.
Lemma cr_write l s : cr (write l s) = cr s.
Proof. reflexivity. Qed.
Lemma cr_set_line_nr n s : cr (set_line_nr n s) = cr s.
Proof. reflexivity. Qed.
Lemma cr_emitted c s : cr (emitted c s) = cr s.
Proof. unfold emitted. destruct (0 <? c); reflexivity. Qed.
Lemma line_nr_write l s : line_nr (write l s) = line_nr s.
Proof. reflexivity. Qed.
Lemma line_nr_set_line_nr n s : line_nr (set_line_nr n s) = n.
Proof. reflexivity. Qed.
Lemma line_nr_emitted c s : line_nr (emitted c s) = line_nr s.
Proof. unfold emitted. destruct (0 <? c); reflexivity. Qed.
Lemma out_write l s : out (write l s) = out s ++ l.
Proof. reflexivity. Qed.
Lemma out_set_line_nr n s : out (set_line_nr n s) = out s.
Proof. reflexivity. Qed.
Lemma out_emitted c s :
  out (emitted c s) = out s ++ (if 0 <? c then [c] else []).
Proof.
  unfold emitted. destruct (0 <? c); [reflexivity|].
  rewrite app_nil_r; reflexivity.
Qed.
Lemma wf_write l s : wf (write l s) <-> wf s.
Proof. reflexivity. Qed.
Lemma wf_set_line_nr n s : wf (set_line_nr n s) <-> wf s.
Proof. reflexivity. Qed.
Lemma wf_emitted c s : wf (emitted c s) <-> wf s.
Proof. unfold emitted. destruct (0 <? c); reflexivity. Qed.

Create Rewrite HintDb cursor.
Lemma preview_set_preview c s : preview (set_preview c s) = c.
Proof. reflexivity. Qed.
Lemma cr_set_preview c s : cr (set_preview c s) = cr s.
Proof. reflexivity. Qed.
Lemma line_nr_set_preview c s : line_nr (set_preview c s) = line_nr s.
Proof. reflexivity. Qed.
Lemma out_set_preview c s : out (set_preview c s) = out s.
Proof. reflexivity. Qed.

#[export] Hint Rewrite preview_set_preview cr_set_preview
  line_nr_set_preview out_set_preview : cursor.
#[export] Hint Rewrite stream_write stream_set_line_nr stream_emitted
  preview_write preview_set_line_nr preview_emitted
  cr_write cr_set_line_nr cr_emitted
  line_nr_write line_nr_set_line_nr line_nr_emitted
  out_write out_set_line_nr out_emitted
  wf_write wf_set_line_nr wf_emitted : cursor.

(** ** Totality: the fuel is enough *)

(** The symbolic execution of one monadic step. *)
Ltac wp_step :=
  lazymatch goal with
  | |- wp (bind _ _) _ _ _ _ => apply wp_bind
  | |- wp (get _) _ _ _ _ =>
      let G := fresh "G" in
      apply wp_get; intros ? ? G; destruct G
  | |- wp (peek_is _) _ _ _ _ =>
      let G := fresh "P" in
      apply wp_peek_is; intros ? ? G; destruct G
  | |- wp peek _ _ _ _ =>
      let G := fresh "P" in
      apply wp_peek; intros ? ? G; destruct G
  | |- wp (ret _) _ _ _ _ => apply wp_ret
  | |- wp (error _) _ _ _ _ => apply wp_error
  | |- wp (modify _) _ _ _ _ => apply wp_modify
  | |- wp (emits _) _ _ _ _ => apply wp_modify
  | |- wp (unget _) _ _ _ _ => apply wp_modify
  | |- wp (emit _) _ _ _ _ => apply wp_emit
  | |- wp (andM _ _) _ _ _ _ => unfold andM
  | |- wp (orM _ _) _ _ _ _ => unfold orM
  | |- wp (if ?b then _ else _) _ _ _ _ =>
      let B := fresh "B" in destruct b eqn:B
  | |- wp (match ?b with _ => _ end) _ _ _ _ =>
      let B := fresh "B" in destruct b eqn:B
  end.

(** Boolean tests in the hypotheses, as propositions. *)
Ltac zb :=
  repeat match goal with
  | H : (_ =? _) = true |- _ => apply Z.eqb_eq in H
  | H : (_ =? _) = false |- _ => apply Z.eqb_neq in H
  | H : (_ <? _) = true |- _ => apply Z.ltb_lt in H
  | H : (_ <? _) = false |- _ => apply Z.ltb_ge in H
  | H : (_ <=? _) = true |- _ => apply Z.leb_le in H
  | H : (_ <=? _) = false |- _ => apply Z.leb_gt in H
  | H : (_ && _) = true |- _ => apply andb_true_iff in H; destruct H
  | H : (_ || _) = false |- _ => apply orb_false_iff in H; destruct H
  | H : (_ && _) = false |- _ => apply andb_false_iff in H
  | H : (_ || _) = true |- _ => apply orb_true_iff in H
  | H : negb _ = true |- _ => apply negb_true_iff in H
  | H : negb _ = false |- _ => apply negb_false_iff in H
  end.

Ltac mu_tac :=
  unfold is_quote, is_open, is_close, is_alphanum in *;
  zb; unfold mu_c, mu in *; autorewrite with cursor in *;
  repeat match goal with
  | |- context [if (?c =? ?d) then _ else _] => destruct (Z.eqb_spec c d)
  | H : context [if (?c =? ?d) then _ else _] |- _ =>
      destruct (Z.eqb_spec c d)
  end;
  repeat match goal with
  | H : stream _ = _ |- _ =>
      apply (f_equal (@length Z)) in H; cbn [length] in H
  end;
  cbn [length] in *; try lia.

(** The recursive call of a loop, by the induction hypothesis [IH]. *)
Ltac by_IH IH :=
  eapply wp_mono; [apply IH; mu_tac | | auto | auto];
  cbv beta; intros; repeat match goal with H : _ /\ _ |- _ => destruct H end;
  repeat split; solve [mu_tac | assumption].

Ltac total_loop IH :=
  repeat wp_step; auto;
  try solve [repeat split; solve [mu_tac | assumption]];
  try solve [exfalso; mu_tac];
  try solve [by_IH IH].

Lemma string_loop_total fuel quote in_comment was s :
  0 < quote -> (mu s < fuel)%nat ->
  wp (string_loop fuel quote in_comment was) s
     (fun _ s' => (mu s' < mu s)%nat /\ preview s' = 0)
     (fun _ _ => True) False.
Proof.
  intros Hq. revert s.
  induction fuel as [|fuel IH]; intros s Hf; [lia|].
  cbn [string_loop]. total_loop IH.
Qed.

Lemma string_total fuel quote in_comment s :
  0 < quote -> (mu s < fuel)%nat ->
  wp (string fuel quote in_comment) s
     (fun _ s' => (mu s' < mu s)%nat /\ preview s' = 0)
     (fun _ _ => True) False.
Proof. intros. apply string_loop_total; assumption. Qed.

Lemma regexp_set_total fuel in_comment s :
  (mu s < fuel)%nat ->
  wp (regexp_set fuel in_comment) s
     (fun _ s' => (mu s' < mu s)%nat /\ preview s' = 0)
     (fun _ _ => True) False.
Proof.
  revert s.
  induction fuel as [|fuel IH]; intros s Hf; [lia|].
  cbn [regexp_set]. total_loop IH.
Qed.

Lemma regexp_loop_total fuel in_comment was s :
  (mu s < fuel)%nat ->
  wp (regexp_loop fuel in_comment was) s
     (fun _ s' => (mu s' < mu s)%nat)
     (fun _ _ => True) False.
Proof.
  revert s.
  induction fuel as [|fuel IH]; intros s Hf; [lia|].
  cbn [regexp_loop]. cbv zeta.
  repeat wp_step; auto;
    try solve [mu_tac]; try solve [exfalso; mu_tac];
    try solve [by_IH IH].
  all: eapply wp_mono; [apply regexp_set_total; mu_tac | | auto | auto];
    cbv beta; intros _ ? [? ?]; total_loop IH.
Qed.

Lemma regexp_total fuel in_comment s :
  (mu s < fuel)%nat ->
  wp (regexp fuel in_comment) s
     (fun _ s' => (mu s' < mu s)%nat)
     (fun _ _ => True) False.
Proof. intros. apply regexp_loop_total; assumption. Qed.

Ltac conj_tac :=
  repeat match goal with H : _ /\ _ |- _ => destruct H end.

(** A call of a scanner whose totality lemma is known. *)
Ltac wp_call :=
  lazymatch goal with
  | |- wp (string _ _ _) _ _ _ _ =>
      eapply wp_mono;
      [apply string_total; mu_tac | cbv beta; intros; conj_tac | auto | auto]
  | |- wp (regexp _ _) _ _ _ _ =>
      eapply wp_mono;
      [apply regexp_total; mu_tac | cbv beta; intros; conj_tac | auto | auto]
  end.

Ltac total_body IH :=
  repeat (wp_step || wp_call); auto;
  try solve [repeat split; solve [mu_tac | assumption]];
  try solve [exfalso; mu_tac];
  try solve [by_IH IH].

Lemma condition_loop_total fuel left paren s :
  (mu s < fuel)%nat ->
  wp (condition_loop fuel left paren) s
     (fun _ s' => (mu s' < mu s)%nat /\ preview s' = 0)
     (fun _ _ => True) False.
Proof.
  revert left paren s.
  induction fuel as [|fuel IH]; intros left paren s Hf; [lia|].
  cbn [condition_loop]. cbv zeta. total_body IH.
Qed.

Lemma skip_spaces_total fuel s :
  (mu s < fuel)%nat ->
  wp (skip_spaces fuel) s
     (fun _ s' => (mu s' <= mu s)%nat)
     (fun _ _ => True) False.
Proof.
  revert s.
  induction fuel as [|fuel IH]; intros s Hf; [lia|].
  cbn [skip_spaces]. total_body IH.
Qed.

Lemma stuff_stars_total fuel paren s :
  (mu s < fuel)%nat ->
  wp (stuff_stars fuel paren) s
     (fun b s' => if b then (mu s' < mu s)%nat /\ preview s' = 0
                  else (mu s' <= mu s)%nat)
     (fun _ _ => True) False.
Proof.
  revert s.
  induction fuel as [|fuel IH]; intros s Hf; [lia|].
  cbn [stuff_stars]. total_body IH.
  all: eapply wp_mono; [apply IH; mu_tac | | auto | auto];
    cbv beta; intros [] ? ?; conj_tac; repeat split;
    solve [mu_tac | assumption].
Qed.

Lemma stuff_iter_total fuel left paren s :
  (mu s < fuel)%nat ->
  wp (stuff_iter fuel left paren) s
     (fun r s' => (mu s' < mu s)%nat /\
                  (r = None -> preview s' = 0))
     (fun _ _ => True) False.
Proof.
  intros Hf. unfold stuff_iter. cbv zeta.
  apply wp_bind.
  eapply wp_mono; [apply stuff_stars_total; exact Hf | | auto | auto].
  cbv beta. intros [] s1 H1.
  - apply wp_ret. destruct H1. split; auto.
  - repeat (wp_step || wp_call); auto;
      try solve [split; [mu_tac | discriminate]];
      try solve [exfalso; mu_tac].
Qed.

Lemma stuff_loop_total fuel left paren s :
  (mu s + 1 < fuel)%nat ->
  wp (stuff_loop fuel left paren) s
     (fun _ s' => (mu s' < mu s)%nat /\ preview s' = 0)
     (fun _ _ => True) False.
Proof.
  revert left paren s.
  induction fuel as [|fuel IH]; intros left paren s Hf; [lia|].
  cbn [stuff_loop]. apply wp_bind.
  eapply wp_mono; [apply stuff_iter_total; lia | | auto | auto].
  cbv beta. intros [[l p]|] s1 [H1 H2].
  - by_IH IH.
  - apply wp_ret. auto.
Qed.

Lemma stuff_total fuel s :
  (mu s + 1 < fuel)%nat ->
  wp (stuff fuel) s
     (fun _ s' => (mu s' < mu s)%nat /\ preview s' = 0)
     (fun _ _ => True) False.
Proof.
  intros Hf. unfold stuff. apply wp_bind.
  eapply wp_mono; [apply skip_spaces_total; lia | | auto | auto].
  cbv beta. intros _ s1 H1.
  eapply wp_mono; [apply stuff_loop_total; lia | | auto | auto].
  cbv beta. intros _ s2 [H2 H3]. split; [lia | assumption].
Qed.

Lemma condition_total fuel s :
  (mu s < fuel)%nat ->
  wp (condition fuel) s
     (fun _ s' => (mu s' < mu s)%nat /\ preview s' = 0)
     (fun _ _ => True) False.
Proof. apply condition_loop_total. Qed.

Ltac wp_call2 :=
  lazymatch goal with
  | |- wp (stuff _) _ _ _ _ =>
      eapply wp_mono;
      [apply stuff_total; mu_tac | cbv beta; intros; conj_tac | auto | auto]
  | |- wp (condition _) _ _ _ _ =>
      eapply wp_mono;
      [apply condition_total; mu_tac
      | cbv beta; intros; conj_tac | auto | auto]
  end.

Lemma expand_total fuel reg tag_nr s :
  (mu s + 1 < fuel)%nat ->
  wp (expand fuel reg tag_nr) s
     (fun _ s' => (mu s' < mu s)%nat /\ preview s' = 0)
     (fun _ _ => True) False.
Proof.
  intros Hf. unfold expand.
  repeat (wp_step || wp_call2); auto;
    try solve [repeat split; solve [mu_tac | assumption]].
Qed.

Lemma read_tag_total n tag c s :
  preview s = 0 ->
  wp (read_tag n tag c) s
     (fun r s' => preview s' = 0 /\ (mu s' <= mu s)%nat /\
                  (n <> O -> 0 < snd r -> (mu s' < mu s)%nat))
     (fun _ _ => True) False.
Proof.
  revert tag c s.
  induction n as [|n IH]; intros tag c s Hp; cbn [read_tag].
  - apply wp_ret. simpl. repeat split; auto. congruence.
  - repeat wp_step;
      try solve [cbn [snd]; repeat split; intros; solve [mu_tac | assumption]];
      try solve [exfalso; discriminate].
    eapply wp_mono; [apply IH; assumption | | auto | auto].
    cbv beta. intros [tag' c'] s1 (H7 & H8 & H9).
    repeat split; try assumption; intros; mu_tac.
Qed.

Lemma line_comment_total fuel s :
  (mu s < fuel)%nat ->
  wp (line_comment fuel) s
     (fun _ s' => (mu s' <= mu s)%nat /\ preview s' = 0)
     (fun _ _ => True) False.
Proof.
  revert s.
  induction fuel as [|fuel IH]; intros s Hf; [lia|].
  cbn [line_comment]. total_body IH.
Qed.

Lemma echo_comment_total fuel c s :
  (0 < fuel)%nat -> (c <> EOF -> (mu s + 1 < fuel)%nat) ->
  wp (echo_comment fuel c) s
     (fun _ s' => (mu s' <= mu s)%nat /\ preview s' = 0)
     (fun _ _ => True) False.
Proof.
  revert c s.
  induction fuel as [|fuel IH]; intros c s Hf Hc; [lia|].
  cbn [echo_comment].
  repeat wp_step; auto;
    try solve [repeat split; solve [mu_tac | assumption]].
  all: assert (Hc' : (mu s + 1 < S fuel)%nat) by (apply Hc; mu_tac).
  all: eapply wp_mono;
    [apply IH; [mu_tac | intros; try congruence; mu_tac] | | auto | auto];
    cbv beta; intros; conj_tac; repeat split; solve [mu_tac | assumption].
Qed.

Lemma mu_set_line_nr n s : mu (set_line_nr n s) = mu s.
Proof. reflexivity. Qed.

Lemma stream_unget c s :
  preview s = 0 ->
  stream (set_preview c s) = (if 0 <? c then [c] else []) ++ stream s.
Proof.
  intros H. unfold stream. simpl. rewrite H. reflexivity.
Qed.

Lemma get_total echo s :
  wp (get echo) s
     (fun c s' => (mu_c c s' <= mu s)%nat /\ preview s' = 0)
     (fun _ _ => True) False.
Proof.
  wp_step; (split; [mu_tac|assumption]).
Qed.

Lemma candidate_total c s :
  0 < preview s ->
  wp (candidate c) s
     (fun _ s' => (mu s' < mu s)%nat)
     (fun _ _ => True) False.
Proof.
  intros Hp. unfold candidate.
  apply wp_bind. wp_step; [|exfalso; lia].
  apply wp_bind.
  eapply wp_mono; [apply read_tag_total; assumption | | auto | auto].
  cbv beta. intros [tag c2] s2 (Ha & Hb & Hc). cbn [snd] in *.
  apply wp_bind, wp_modify. apply wp_ret.
  unfold mu in *. rewrite stream_unget by assumption.
  rewrite length_app.
  destruct (Z.ltb_spec 0 c2); cbn [length].
  - assert (length (stream s2) < length (stream s'))%nat
      by (apply Hc; [unfold MAX_TAG_LENGTH; lia | assumption]).
    mu_tac.
  - mu_tac.
Qed.

Lemma block_comment_total fuel reg c s :
  0 < preview s -> (mu s < fuel)%nat ->
  wp (block_comment fuel reg c) s
     (fun c' s' => (mu_c c' s' <= mu s)%nat)
     (fun _ _ => True) False.
Proof.
  intros Hp Hf. unfold block_comment.
  apply wp_bind.
  eapply wp_mono; [apply candidate_total; assumption | | auto | auto].
  cbv beta. intros [tag c2] s2 Hs3.
  wp_step.
  - apply wp_bind.
    eapply wp_mono; [apply expand_total; lia | | auto | auto].
    cbv beta. intros _ s4 [Ha Hb].
    eapply wp_mono; [apply get_total | | auto | auto].
    cbv beta. intros ? ? [? _]. mu_tac.
  - apply wp_bind, wp_modify. apply wp_bind, wp_modify.
    apply wp_bind.
    eapply wp_mono;
      [apply echo_comment_total; [lia | intros _; mu_tac] | | auto | auto].
    cbv beta. intros _ s4 [Ha Hb].
    eapply wp_mono; [apply get_total | | auto | auto].
    cbv beta. intros ? ? [? _]. mu_tac.
Qed.

Lemma lone_slash_total fuel left s :
  (mu s < fuel)%nat ->
  wp (lone_slash fuel left) s
     (fun c' s' => (mu_c c' s' <= mu s)%nat)
     (fun _ _ => True) False.
Proof.
  intros Hf. unfold lone_slash.
  apply wp_bind, wp_emit. apply wp_bind.
  wp_step.
  - wp_call.
    eapply wp_mono; [apply get_total | | auto | auto].
    cbv beta. intros ? ? [? _]. mu_tac.
  - wp_step.
    eapply wp_mono; [apply get_total | | auto | auto].
    cbv beta. intros ? ? [? _]. mu_tac.
Qed.

Ltac wp_call3 :=
  lazymatch goal with
  | |- wp (line_comment _) _ _ _ _ =>
      eapply wp_mono;
      [apply line_comment_total; mu_tac
      | cbv beta; intros; conj_tac | auto | auto]
  | |- wp (block_comment _ _ _) _ _ _ _ =>
      eapply wp_mono;
      [apply block_comment_total; mu_tac
      | cbv beta; intros; conj_tac | auto | auto]
  | |- wp (lone_slash _ _) _ _ _ _ =>
      eapply wp_mono;
      [apply lone_slash_total; mu_tac
      | cbv beta; intros; conj_tac | auto | auto]
  end.

Lemma process_step_total fuel reg c left s :
  (mu_c c s <= fuel)%nat ->
  wp (process_step fuel reg c left) s
     (fun r s' => match r with
                  | None => True
                  | Some (c', _) => (mu_c c' s' < mu_c c s)%nat
                  end)
     (fun _ _ => True) False.
Proof.
  intros Hf. unfold process_step.
  repeat (wp_step || wp_call || wp_call3);
    try exact I; try solve [mu_tac]; try solve [exfalso; mu_tac].
Qed.

Lemma process_loop_total fuel reg c left s :
  (mu_c c s < fuel)%nat ->
  wp (process_loop fuel reg c left) s
     (fun _ _ => True) (fun _ _ => True) False.
Proof.
  revert c left s.
  induction fuel as [|fuel IH]; intros c left s Hf; [lia|].
  cbn [process_loop]. apply wp_bind.
  eapply wp_mono; [apply process_step_total; lia | | auto | auto].
  cbv beta. intros [[c' left']|] s1 H1.
  - apply IH. lia.
  - apply wp_ret. exact I.
Qed.

Lemma process_total fuel reg s :
  (mu s < fuel)%nat ->
  wp (process fuel reg) s (fun _ _ => True) (fun _ _ => True) False.
Proof.
  intros Hf. unfold process. apply wp_bind, wp_modify. apply wp_bind.
  eapply wp_mono; [apply get_total | | auto | auto].
  cbv beta. intros c s1 [H1 _]. apply process_loop_total.
  rewrite mu_set_line_nr in H1. lia.
Qed.

(** The fuel of [run] is enough on every input. *)
Theorem run_total reg stdin : run reg stdin <> Timeout.
Proof.
  unfold run. eapply wp_total. apply process_total.
  unfold mu, stream, initial. simpl. lia.
Qed.

(** ** Echoing scanners: what is read is what is written *)

Lemma echo_rel_refl s : echo_rel s s.
Proof. exists []. rewrite app_nil_r. auto. Qed.

Lemma echo_rel_get s0 s c s' :
  echo_rel s0 s -> stream s = c :: stream s' -> out s' = out s ++ [c] ->
  echo_rel s0 s'.
Proof.
  intros (w & H1 & H2) H3 H4. exists (w ++ [c]).
  rewrite H1, H3, H4, H2, <- !app_assoc. auto.
Qed.

Lemma echo_rel_same s0 s s' :
  echo_rel s0 s -> stream s' = stream s -> out s' = out s ->
  echo_rel s0 s'.
Proof.
  intros (w & H1 & H2) H3 H4. exists w. rewrite H3, H4. auto.
Qed.

Lemma echo_rel_trans s0 s1 s2 :
  echo_rel s0 s1 -> echo_rel s1 s2 -> echo_rel s0 s2.
Proof.
  intros (w & H1 & H2) (v & H3 & H4). exists (w ++ v).
  rewrite H1, H3, H4, H2, <- !app_assoc. auto.
Qed.

(** Forward chaining along the states of a symbolic execution: each state
    is a text state, and is related to the first by [echo_rel]. *)
Ltac sat_wf :=
  repeat match goal with
  | W : wf ?s, H : wf ?s -> _ |- _ => specialize (H W)
  | H : _ /\ _ |- _ => destruct H
  end.

Ltac sat_echo :=
  sat_wf;
  repeat match goal with
  | H : out ?s' = out ?s ++ [] |- _ => rewrite app_nil_r in H
  | E : echo_rel ?s0 ?s, H1 : stream ?s = ?c :: stream ?s',
    H2 : out ?s' = out ?s ++ [?c] |- _ =>
      lazymatch goal with
      | _ : echo_rel s0 s' |- _ => fail
      | _ => pose proof (echo_rel_get s0 s c s' E H1 H2)
      end
  | E : echo_rel ?s0 ?s, H1 : stream ?s = stream ?s',
    H2 : out ?s' = out ?s |- _ =>
      lazymatch goal with
      | _ : echo_rel s0 s' |- _ => fail
      | _ => pose proof (echo_rel_same s0 s s' E (eq_sym H1) H2)
      end
  | E : echo_rel ?s0 ?s, H1 : stream ?s = [], H1' : stream ?s' = [],
    H2 : out ?s' = out ?s |- _ =>
      lazymatch goal with
      | _ : echo_rel s0 s' |- _ => fail
      | _ => pose proof (echo_rel_same s0 s s' E (eq_trans H1' (eq_sym H1)) H2)
      end
  end.

Ltac splits :=
  repeat match goal with |- _ /\ _ => split end.

Ltac echo_IH IH :=
  sat_echo; eapply wp_mono; [eapply IH; eassumption | | auto | auto];
  cbv beta; intros; conj_tac; splits; first [assumption | mu_tac].

Ltac echo_body IH :=
  repeat wp_step; auto;
  try solve [sat_echo; splits; first [assumption | mu_tac]];
  try solve [echo_IH IH].

Lemma string_loop_echo fuel quote in_comment was s0 s :
  wf s -> echo_rel s0 s ->
  wp (string_loop fuel quote in_comment was) s
     (fun _ s' => wf s' /\ echo_rel s0 s' /\ preview s' = 0 /\
                  (mu s' <= mu s)%nat)
     (fun _ _ => True) True.
Proof.
  revert s.
  induction fuel as [|fuel IH]; intros s W E; [exact I|].
  cbn [string_loop]. echo_body IH.
Qed.

Lemma string_echo fuel quote in_comment s0 s :
  wf s -> echo_rel s0 s ->
  wp (string fuel quote in_comment) s
     (fun _ s' => wf s' /\ echo_rel s0 s' /\ preview s' = 0 /\
                  (mu s' <= mu s)%nat)
     (fun _ _ => True) True.
Proof. intros. apply string_loop_echo; assumption. Qed.

Lemma regexp_set_echo fuel in_comment s0 s :
  wf s -> echo_rel s0 s ->
  wp (regexp_set fuel in_comment) s
     (fun _ s' => wf s' /\ echo_rel s0 s' /\ preview s' = 0 /\
                  (mu s' <= mu s)%nat)
     (fun _ _ => True) True.
Proof.
  revert s.
  induction fuel as [|fuel IH]; intros s W E; [exact I|].
  cbn [regexp_set]. echo_body IH.
Qed.

Lemma regexp_loop_echo fuel in_comment was s0 s :
  wf s -> echo_rel s0 s ->
  wp (regexp_loop fuel in_comment was) s
     (fun _ s' => wf s' /\ echo_rel s0 s' /\ (mu s' <= mu s)%nat)
     (fun _ _ => True) True.
Proof.
  revert s.
  induction fuel as [|fuel IH]; intros s W E; [exact I|].
  cbn [regexp_loop]. cbv zeta.
  repeat wp_step; auto;
    try solve [sat_echo; splits; first [assumption | mu_tac]];
    try solve [echo_IH IH].
  all: sat_echo;
    (eapply wp_mono; [eapply regexp_set_echo; eassumption | | auto | auto]);
    cbv beta; intros; conj_tac; echo_body IH.
Qed.

Lemma regexp_echo fuel in_comment s0 s :
  wf s -> echo_rel s0 s ->
  wp (regexp fuel in_comment) s
     (fun _ s' => wf s' /\ echo_rel s0 s' /\ (mu s' <= mu s)%nat)
     (fun _ _ => True) True.
Proof. intros. apply regexp_loop_echo; assumption. Qed.

Ltac echo_call :=
  lazymatch goal with
  | |- wp (string _ _ _) _ _ _ _ =>
      sat_echo; eapply wp_mono;
      [eapply string_echo; eassumption
      | cbv beta; intros; conj_tac | auto | auto]
  | |- wp (regexp _ _) _ _ _ _ =>
      sat_echo; eapply wp_mono;
      [eapply regexp_echo; eassumption
      | cbv beta; intros; conj_tac | auto | auto]
  end.

Ltac echo_body2 IH :=
  repeat (wp_step || echo_call); auto;
  try solve [sat_echo; splits; first [assumption | mu_tac]];
  try solve [echo_IH IH].

Lemma condition_loop_echo fuel left paren s0 s :
  wf s -> echo_rel s0 s ->
  wp (condition_loop fuel left paren) s
     (fun _ s' => wf s' /\ echo_rel s0 s' /\ preview s' = 0 /\
                  (mu s' < mu s)%nat)
     (fun _ _ => True) True.
Proof.
  revert left paren s.
  induction fuel as [|fuel IH]; intros left paren s W E; [exact I|].
  cbn [condition_loop]. cbv zeta.
  repeat (wp_step || echo_call); auto;
    try solve [sat_echo; splits; first [assumption | mu_tac]].
  all: sat_echo; (eapply wp_mono; [eapply IH; eassumption | | auto | auto]);
    cbv beta; intros; conj_tac; splits; first [assumption | mu_tac].
Qed.

Lemma line_comment_echo fuel s0 s :
  wf s -> echo_rel s0 s ->
  wp (line_comment fuel) s
     (fun _ s' => wf s' /\ echo_rel s0 s' /\ preview s' = 0 /\
                  (mu s' <= mu s)%nat)
     (fun _ _ => True) True.
Proof.
  revert s.
  induction fuel as [|fuel IH]; intros s W E; [exact I|].
  cbn [line_comment]. echo_body2 IH.
Qed.

(** ** The body of a tagged comment *)

(** The characters seen by [peek] are those that [get] returns next:
    the equations on [hd] are pushed along the stream. *)
Ltac sync :=
  sat_wf;
  repeat match goal with
  | H : hd _ (stream ?s) = _, H1 : stream ?s = _ |- _ => rewrite H1 in H
  | H : hd _ (_ :: _) = _ |- _ => cbn [hd] in H
  | H : hd _ [] = _ |- _ => cbn [hd] in H
  end;
  zb; subst.

(** The stream of an old state in terms of the newest one, the output of a
    new state in terms of the oldest one. *)
Ltac norm :=
  autorewrite with cursor;
  repeat match goal with
  | H : stream ?s = _ |- context [stream ?s] => rewrite H
  | H : out ?s = _ |- context [out ?s] => rewrite H
  | H : preview ?s = _ |- context [preview ?s] => rewrite H
  end;
  autorewrite with cursor;
  rewrite <- ?app_assoc; rewrite ?app_nil_r; cbn [app].

Lemma skip_spaces_echo fuel s :
  wf s ->
  wp (skip_spaces fuel) s
     (fun _ s' => wf s' /\ skip_rel s s' /\ (mu s' <= mu s)%nat)
     (fun _ _ => True) True.
Proof.
  revert s.
  induction fuel as [|fuel IH]; intros s W; [exact I|].
  cbn [skip_spaces].
  repeat wp_step; auto; sync; try solve [exfalso; lia].
  - eapply wp_mono; [apply IH; assumption | | auto | auto].
    cbv beta. intros _ s2 (W2 & (Ho & Hh & n & Hn) & Hm).
    splits; [assumption | | mu_tac].
    split; [norm; reflexivity|]. split; [assumption|].
    exists (S n). norm. reflexivity.
  - splits; [assumption | | mu_tac].
    split; [assumption|]. split.
    + match goal with H : stream s = _ |- _ => rewrite <- H end.
      congruence.
    + exists O. simpl. auto.
  - splits; [assumption | | mu_tac].
    split; [assumption|]. split.
    + norm. simpl. lia.
    + exists O. norm. reflexivity.
Qed.

Lemma stuff_stars_echo fuel paren s0 s :
  wf s -> echo_rel s0 s ->
  wp (stuff_stars fuel paren) s
     (fun b s' => wf s' /\ (mu s' <= mu s)%nat /\
                  if b then stuff_rel s0 s' /\ preview s' = 0
                  else echo_rel s0 s')
     (fun _ _ => True) True.
Proof.
  revert s.
  induction fuel as [|fuel IH]; intros s W E; [exact I|].
  cbn [stuff_stars].
  repeat wp_step; auto; sync;
    try solve [exfalso; lia];
    try solve [exfalso; mu_tac];
    try solve [sat_echo; splits; first [assumption | mu_tac]].
  - (* the end of the comment *)
    splits; [assumption | mu_tac | | assumption].
    destruct E as (w & E1 & E2). exists w. split; norm; reflexivity.
  - (* a star of the body *)
    eapply wp_mono; [apply IH; [apply wf_emitted; assumption | ]
                    | | auto | auto].
    + destruct E as (w & E1 & E2). exists (w ++ [42]).
      split; norm; reflexivity.
    + cbv beta. intros b s2 (W2 & Hm & Hb).
      splits; [assumption | mu_tac | assumption].
  - eapply wp_mono; [apply IH; [apply wf_emitted; assumption | ]
                    | | auto | auto].
    + destruct E as (w & E1 & E2). exists (w ++ [42]).
      split; norm; reflexivity.
    + cbv beta. intros b s2 (W2 & Hm & Hb).
      splits; [assumption | mu_tac | assumption].
Qed.

Lemma stuff_iter_echo fuel left paren s0 s :
  wf s -> echo_rel s0 s ->
  wp (stuff_iter fuel left paren) s
     (fun r s' => wf s' /\ (mu s' <= mu s)%nat /\
                  match r with
                  | None => stuff_rel s0 s' /\ preview s' = 0
                  | Some _ => echo_rel s0 s'
                  end)
     (fun _ _ => True) True.
Proof.
  intros W E. unfold stuff_iter. cbv zeta. apply wp_bind.
  eapply wp_mono; [apply stuff_stars_echo; eassumption | | auto | auto].
  cbv beta. intros [] s1 (W1 & M1 & H1).
  - apply wp_ret. auto.
  - repeat (wp_step || echo_call); auto;
      try solve [sat_echo; splits; first [assumption | mu_tac]].
Qed.

Lemma stuff_loop_echo fuel left paren s0 s :
  wf s -> echo_rel s0 s ->
  wp (stuff_loop fuel left paren) s
     (fun _ s' => wf s' /\ stuff_rel s0 s' /\ preview s' = 0)
     (fun _ _ => True) True.
Proof.
  revert left paren s.
  induction fuel as [|fuel IH]; intros left paren s W E; [exact I|].
  cbn [stuff_loop]. apply wp_bind.
  eapply wp_mono; [apply stuff_iter_echo; eassumption | | auto | auto].
  cbv beta. intros [[l p]|] s1 (W1 & M1 & H1).
  - apply IH; assumption.
  - apply wp_ret. destruct H1. auto.
Qed.

Lemma stuff_echo fuel s :
  wf s ->
  wp (stuff fuel) s
     (fun _ s' => wf s' /\ preview s' = 0 /\
                  exists body, stuff_text s s' body /\
                               out s' = out s ++ body)
     (fun _ _ => True) True.
Proof.
  intros W. unfold stuff. apply wp_bind.
  eapply wp_mono; [apply skip_spaces_echo; assumption | | auto | auto].
  cbv beta. intros _ s1 (W1 & (Ho & Hh & n & Hn) & _).
  eapply wp_mono;
    [apply (stuff_loop_echo fuel LBRACE 0 s1 s1 W1 (echo_rel_refl s1))
    | | auto | auto].
  cbv beta. intros _ s2 (W2 & (body & Hb1 & Hb2) & Hp).
  splits; try assumption. exists body. split.
  - split.
    + rewrite Hb1 in Hh. destruct body; exact Hh.
    + exists n. rewrite Hn, Hb1. reflexivity.
  - congruence.
Qed.

(** ** The candidate tag *)

Lemma last_cons (a : Z) l d : last (a :: l) d = last l a.
Proof.
  revert a d. induction l as [|b l IH]; intros a d; [reflexivity|].
  change (last (a :: b :: l) d) with (last (b :: l) d).
  rewrite !IH. reflexivity.
Qed.

Lemma pending_pos c : 0 < c -> pending c = [c].
Proof.
  intros H. unfold pending.
  replace (0 <? c) with true by (symmetry; apply Z.ltb_lt; lia).
  reflexivity.
Qed.

Lemma pending_none c : c <= 0 -> pending c = [].
Proof.
  intros H. unfold pending.
  replace (0 <? c) with false by (symmetry; apply Z.ltb_ge; lia).
  reflexivity.
Qed.

Lemma read_tag_spec n tag c s :
  wf s ->
  wp (read_tag n tag c) s
     (fun r s' => wf s' /\ out s' = out s /\
                  (preview s = 0 \/ n <> O -> preview s' = 0) /\
                  fst r = tag ++ ident_run n (stream s) /\
                  read_rel n c (stream s) (snd r) (stream s'))
     (fun _ _ => True) True.
Proof.
  revert tag c s.
  induction n as [|n IH]; intros tag c s W; cbn [read_tag].
  - apply wp_ret. unfold read_rel. simpl.
    rewrite app_nil_r. splits; auto. intros [H|H]; congruence.
  - repeat wp_step; sync.
    + (* an identifier character *)
      eapply wp_mono; [apply (IH (tag ++ [c0]) c0); assumption | | auto | auto].
      cbv beta. intros [tag' c'] s2 (W2 & Ho & Hp & Ht & Hr).
      cbn [fst snd] in *.
      match goal with H : stream s = _ |- _ => rewrite H end.
      cbn [ident_run]. rewrite B.
      splits; auto.
      * rewrite Ho. norm. reflexivity.
      * rewrite Ht, <- app_assoc. reflexivity.
      * unfold read_rel in *. cbn [ident_run]. rewrite B.
        cbn [length].
        change (S (length (ident_run n (stream s'))) <? S n)%nat
          with (length (ident_run n (stream s')) <? n)%nat.
        destruct (length (ident_run n (stream s')) <? n)%nat.
        -- destruct Hr as (Ra & Rb & Rc). splits; auto.
           rewrite Rb at 1. reflexivity.
        -- destruct Hr as (Ra & Rb). split.
           ++ rewrite Ra at 1. reflexivity.
           ++ rewrite last_cons. assumption.
    + (* another character *)
      match goal with H : stream s = _ |- _ => rewrite H end.
      cbn [ident_run fst snd]. rewrite B. rewrite app_nil_r.
      splits; auto.
      * norm. reflexivity.
      * unfold read_rel. cbn [ident_run]. rewrite B. simpl.
        splits; auto.
        -- rewrite pending_pos by assumption. reflexivity.
        -- intros; lia.
    + discriminate.
    + match goal with H : stream s = _ |- _ => rewrite H end.
      cbn [ident_run fst snd]. rewrite app_nil_r.
      splits; auto.
      unfold read_rel. simpl. splits; auto.
Qed.

(** ** Comments that are echoed *)

Lemma closes_at_end_cons c c1 t :
  (c =? STAR) && (c1 =? SLASH) = false ->
  closes_at_end c1 t -> closes_at_end c (c1 :: t).
Proof.
  intros Hc (v & Hv & Hn). exists (c :: v). split.
  - rewrite Hv. reflexivity.
  - cbn [app has_close]. rewrite Hn, orb_false_r.
    destruct v as [|a v]; cbn [app hd].
    + inversion Hv; subst. destruct (c =? 42); reflexivity.
    + inversion Hv; subst. assumption.
Qed.

Lemma echo_comment_eof fuel s (Q : unit -> state -> Prop) :
  wp (echo_comment fuel EOF) s Q (fun _ _ => True) True.
Proof. destruct fuel; exact I. Qed.

Lemma echo_comment_spec fuel c s :
  wf s ->
  wp (echo_comment fuel c) s
     (fun _ s' => wf s' /\ preview s' = 0 /\
                  exists t, stream s = t ++ stream s' /\
                            out s' = out s ++ t /\ closes_at_end c t)
     (fun _ _ => True) True.
Proof.
  revert c s.
  induction fuel as [|fuel IH]; intros c s W; [exact I|].
  cbn [echo_comment].
  repeat wp_step; auto; sync;
    try solve [exfalso; lia]; try solve [apply echo_comment_eof].
  all: try (eapply wp_mono; [apply IH; assumption | | auto | auto];
    cbv beta; intros _ s2 (W2 & Hp & t & Ht1 & Ht2 & Ht3);
    splits; [assumption | assumption |];
    match goal with
    | H : stream ?s1 = ?x :: _
      |- exists _, stream ?s1 = _ /\ _ => exists (x :: t)
    | H : stream ?s1 = []
      |- exists _, stream ?s1 = _ /\ _ => exists t
    end;
    splits; [norm; rewrite ?Ht1; reflexivity
            | rewrite Ht2; norm; reflexivity | ]).
  all: try (apply closes_at_end_cons; [|assumption]).
  all: try solve [destruct Ht3 as (v & Hv & _);
                  destruct v as [|? [|? ?]]; discriminate].
  all: try solve [apply andb_false_iff;
                  first [left; apply Z.eqb_neq; lia
                        | right; apply Z.eqb_neq; lia]].
  - (* the end of the comment *)
    splits; auto. exists [47]. splits; [norm; reflexivity | norm; reflexivity |].
    exists []. split; reflexivity.
Qed.

(** ** The expansion of a tagged comment *)

Lemma condition_echo fuel s :
  wf s ->
  wp (condition fuel) s
     (fun _ s' => wf s' /\ preview s' = 0 /\
                  exists cond, cond <> [] /\ stream s = cond ++ stream s' /\
                               out s' = out s ++ cond)
     (fun _ _ => True) True.
Proof.
  intros W. unfold condition.
  eapply wp_mono;
    [apply (condition_loop_echo fuel LBRACE 0 s s W (echo_rel_refl s))
    | | auto | auto].
  cbv beta. intros _ s1 (W1 & (cond & Ha & Hb) & Hp & Hm).
  splits; auto. exists cond. splits; auto.
  intros ->. unfold mu in Hm. rewrite Ha in Hm. simpl in Hm. lia.
Qed.

Lemma expansion_no_cond method body :
  expansion [] method body =
  [LBRACE] ++ match method with
              | [] => body ++ [RBRACE]
              | _ => method ++ [LPAREN] ++ body ++ bytes ");}"
              end.
Proof. destruct method; reflexivity. Qed.

Lemma expansion_cond cond method body :
  cond <> [] ->
  expansion cond method body =
  bytes "if " ++ cond ++ [SPACE] ++ [LBRACE] ++
  match method with
  | [] => body ++ [RBRACE]
  | _ => method ++ [LPAREN] ++ body ++ bytes ");}"
  end.
Proof.
  intros H. unfold expansion. destruct cond; [congruence|].
  destruct method; reflexivity.
Qed.

Lemma expand_spec fuel reg tag_nr s :
  wf s ->
  wp (expand fuel reg tag_nr) s
     (fun _ s' => wf s' /\ preview s' = 0 /\
                  exists cond body,
                    expand_text s s' cond body /\
                    out s' =
                    out s ++ expansion cond (method_of reg tag_nr) body)
     (fun _ _ => True) True.
Proof.
  intros W. unfold expand.
  apply wp_bind, wp_peek. intros c s1 P.
  assert (P1 : wf s1 /\ stream s = stream s1 /\ out s1 = out s /\
               hd EOF (stream s) = c).
  { destruct P; sat_wf; splits; auto.
    all: repeat match goal with
         | H : stream _ = [] |- _ => rewrite H
         end; simpl; congruence. }
  clear P. destruct P1 as (W1 & S1 & O1 & C1).
  apply wp_bind.
  destruct (Z.eqb_spec c 40) as [Hc|Hc].
  - (* with a condition *)
    apply wp_bind, wp_modify. apply wp_bind.
    eapply wp_mono;
      [apply condition_echo; apply wf_write; exact W1 | | auto | auto].
    cbv beta. intros _ s2 (W2 & P2 & cond & Hne & Sc & Oc).
    apply wp_bind, wp_emit. apply wp_ret. apply wp_bind, wp_emit.
    destruct (method_of reg tag_nr) as [|m0 m] eqn:Hm.
    + apply wp_bind.
      eapply wp_mono;
        [apply stuff_echo; rewrite !wf_emitted; exact W2 | | auto | auto].
      cbv beta. intros _ s3 (W3 & P3 & body & (Hb & n & Sb) & Ob).
      apply wp_bind, wp_emit. apply wp_ret.
      splits; [apply wf_emitted; assumption | autorewrite with cursor; assumption |].
      exists cond, body. split.
      * split; [|split; [assumption|]].
        -- split; [congruence|]. intros Hx. rewrite C1 in Hx. congruence.
        -- exists n. autorewrite with cursor in *.
           rewrite S1, Sc, Sb. reflexivity.
      * rewrite expansion_cond by assumption.
        autorewrite with cursor in *. rewrite Ob, Oc, O1.
        simpl. rewrite <- !app_assoc. reflexivity.
    + apply wp_bind, wp_modify. apply wp_bind, wp_emit. apply wp_bind.
      eapply wp_mono;
        [apply stuff_echo; autorewrite with cursor; exact W2
        | | auto | auto].
      cbv beta. intros _ s3 (W3 & P3 & body & (Hb & n & Sb) & Ob).
      apply wp_modify.
      splits; [apply wf_write; assumption | autorewrite with cursor; assumption |].
      exists cond, body. split.
      * split; [|split; [assumption|]].
        -- split; [congruence|]. intros Hx. rewrite C1 in Hx. congruence.
        -- exists n. autorewrite with cursor in *.
           rewrite S1, Sc, Sb. reflexivity.
      * rewrite expansion_cond by assumption.
        autorewrite with cursor in *. rewrite Ob, Oc, O1.
        simpl. rewrite <- !app_assoc. reflexivity.
  - (* without a condition *)
    apply wp_ret. apply wp_bind, wp_emit.
    destruct (method_of reg tag_nr) as [|m0 m] eqn:Hm.
    + apply wp_bind.
      eapply wp_mono;
        [apply stuff_echo; rewrite !wf_emitted; exact W1 | | auto | auto].
      cbv beta. intros _ s3 (W3 & P3 & body & (Hb & n & Sb) & Ob).
      apply wp_bind, wp_emit. apply wp_ret.
      splits; [apply wf_emitted; assumption | autorewrite with cursor; assumption |].
      exists [], body. split.
      * split; [|split; [assumption|]].
        -- split; [congruence | reflexivity].
        -- exists n. autorewrite with cursor in *.
           rewrite S1, Sb. reflexivity.
      * rewrite expansion_no_cond.
        autorewrite with cursor in *. rewrite Ob, O1.
        simpl. rewrite <- !app_assoc. reflexivity.
    + apply wp_bind, wp_modify. apply wp_bind, wp_emit. apply wp_bind.
      eapply wp_mono;
        [apply stuff_echo; autorewrite with cursor; exact W1
        | | auto | auto].
      cbv beta. intros _ s3 (W3 & P3 & body & (Hb & n & Sb) & Ob).
      apply wp_modify.
      splits; [apply wf_write; assumption | autorewrite with cursor; assumption |].
      exists [], body. split.
      * split; [|split; [assumption|]].
        -- split; [congruence | reflexivity].
        -- exists n. autorewrite with cursor in *.
           rewrite S1, Sb. reflexivity.
      * rewrite expansion_no_cond.
        autorewrite with cursor in *. rewrite Ob, O1.
        simpl. rewrite <- !app_assoc. reflexivity.
Qed.

(** ** The slash-star branch *)

Lemma wf_unget c s :
  wf s -> preview s = 0 -> (c <= 0 -> c = EOF /\ stream s = []) ->
  wf (set_preview c s) /\ stream (set_preview c s) = pending c ++ stream s.
Proof.
  intros [W1 W2] Hp Hc. unfold wf, stream, pending in *. simpl.
  rewrite Hp in *. simpl in *.
  destruct (Z.ltb_spec 0 c); simpl.
  - splits; auto. intros; lia.
  - destruct (Hc H) as [-> ->]. splits; auto.
Qed.

(** What [candidate] does on a text that starts with a star followed by
    [rest]: the tag is the identifier run of [rest], and when it has less
    than [MAX_TAG_LENGTH] characters the stream is what follows it. *)
Lemma candidate_spec c s rest :
  wf s -> stream s = STAR :: rest ->
  wp (candidate c) s
     (fun r s' =>
        out s' = out s /\ fst r = ident_run MAX_TAG_LENGTH rest /\
        preview s' = snd r /\
        ((length (fst r) < MAX_TAG_LENGTH)%nat ->
         wf s' /\ is_alphanum (snd r) = false /\
         (0 < snd r -> hd EOF (stream s') = snd r) /\
         (snd r <= 0 -> snd r = EOF /\ stream s' = []) /\
         rest = fst r ++ stream s'))
     (fun _ _ => True) True.
Proof.
  intros W Hs. unfold candidate.
  apply wp_bind. wp_step; sync; [|congruence].
  assert (Hr : stream s' = rest) by congruence.
  assert (c0 = 42) by congruence. subst c0.
  apply wp_bind.
  eapply wp_mono; [apply read_tag_spec; assumption | | auto | auto].
  cbv beta. intros [tag c2] s2 (W2 & O2 & P2 & T2 & R2).
  cbn [fst snd app] in *. rewrite Hr in *.
  apply wp_bind, wp_modify. apply wp_ret. cbn [fst snd].
  splits; auto.
  - norm. reflexivity.
  - intros Hlen. unfold read_rel in R2. rewrite <- T2 in R2.
    replace (length tag <? MAX_TAG_LENGTH)%nat with true in R2
      by (symmetry; apply Nat.ltb_lt; assumption).
    destruct R2 as (Ra & Rb & Rc).
    destruct (wf_unget c2 s2 W2) as [Wu Su]; auto.
    splits; auto.
    + intros Hc. rewrite Su, pending_pos by assumption. reflexivity.
    + intros Hc. destruct (Rc Hc) as [-> Hn]. split; auto.
      rewrite Su, Hn. reflexivity.
    + rewrite Su. assumption.
Qed.

Lemma has_close_ident w l :
  Forall (fun c => is_alphanum c = true) w ->
  has_close (w ++ l) = has_close l.
Proof.
  induction 1 as [|c w Hc Hw IH]; [reflexivity|].
  cbn [app has_close]. rewrite IH.
  replace (c =? 42) with false; [reflexivity|].
  symmetry. apply Z.eqb_neq. intros ->. discriminate.
Qed.

Lemma ident_run_alphanum n l :
  Forall (fun c => is_alphanum c = true) (ident_run n l).
Proof.
  revert l. induction n as [|n IH]; intros [|c l]; cbn [ident_run]; auto.
  destruct (is_alphanum c) eqn:E; auto.
Qed.

(** The result of [get] on a text state, for the character in hand. *)
Lemma get_pending echo s :
  wf s ->
  wp (get echo) s
     (fun c s' => wf s' /\ preview s' = 0 /\
                  stream s = pending c ++ stream s' /\
                  (c <= 0 -> c = EOF /\ stream s' = []) /\
                  out s' = out s ++ (if echo then pending c else []) /\
                  line_nr s' = line_nr s + tick c (cr s))
     (fun _ _ => True) True.
Proof.
  intros W. wp_step; sync.
  - rewrite pending_pos by assumption. splits; auto. intros; lia.
  - splits; auto.
    + norm. reflexivity.
    + destruct echo; norm; reflexivity.
    + unfold tick. simpl. lia.
Qed.

Lemma block_comment_unmatched fuel reg c s rest :
  wf s -> stream s = STAR :: rest ->
  let w := ident_run MAX_TAG_LENGTH rest in
  (length w < MAX_TAG_LENGTH)%nat ->
  w = [] \/ match_ w reg < 0 ->
  wp (block_comment fuel reg c) s
     (fun c' s' =>
        wf s' /\ (c' <= 0 -> c' = EOF /\ stream s' = []) /\
        exists body,
          rest = body ++ [STAR; SLASH] ++ pending c' ++ stream s' /\
          out s' = out s ++ comment_text body /\
          has_close (body ++ [STAR]) = false)
     (fun _ _ => True) True.
Proof.
  intros W Hs w Hlen Hm. unfold block_comment. apply wp_bind.
  eapply wp_mono; [eapply candidate_spec; eassumption | | auto | auto].
  cbv beta. intros [tag c2] s2 (O2 & T2 & P2 & K2). cbn [fst snd] in *.
  fold w in T2. subst tag.
  destruct (K2 Hlen) as (W2 & A2 & S2 & E2 & R2). clear K2.
  assert (Hi : (0 <=? (if (length w =? 0)%nat then -1 else match_ w reg))
               = false).
  { destruct Hm as [Hm|Hm].
    - rewrite Hm. reflexivity.
    - destruct (length w =? 0)%nat; [reflexivity|].
      apply Z.leb_gt. assumption. }
  rewrite Hi.
  apply wp_bind, wp_modify. apply wp_bind, wp_modify. apply wp_bind.
  eapply wp_mono;
    [apply echo_comment_spec; autorewrite with cursor; exact W2
    | | auto | auto].
  cbv beta. intros _ s3 (W3 & P3 & t & St & Ot & (v & Hv & Hc)).
  eapply wp_mono; [apply get_pending; exact W3 | | auto | auto].
  cbv beta. intros c4 s4 (W4 & P4 & S4 & E4 & O4 & _).
  autorewrite with cursor in *.
  (* the character pushed back is the head of [t] *)
  assert (Ht : exists v', v = c2 :: v' /\ t = v' ++ [STAR; SLASH]).
  { destruct v as [|a v'].
    - simpl in Hv. injection Hv as Hv1 Hv2. rewrite Hv1, Hv2 in *.
      rewrite St in S2. simpl in S2. specialize (S2 ltac:(lia)). lia.
    - simpl in Hv. injection Hv as Hv1 Hv2. rewrite Hv1, Hv2 in *. eauto. }
  destruct Ht as (v' & -> & ->).
  splits; auto.
  exists (w ++ v'). splits.
  - rewrite R2, St, S4, <- !app_assoc. reflexivity.
  - rewrite O4, Ot, O2. unfold comment_text. simpl.
    rewrite <- !app_assoc. reflexivity.
  - rewrite <- app_assoc.
    rewrite has_close_ident by apply ident_run_alphanum.
    cbn [app has_close] in Hc. apply orb_false_iff in Hc. apply Hc.
Qed.

Lemma block_comment_matched fuel reg c s rest :
  wf s -> stream s = STAR :: rest ->
  let w := ident_run MAX_TAG_LENGTH rest in
  (length w < MAX_TAG_LENGTH)%nat ->
  w <> [] -> 0 <= match_ w reg ->
  wp (block_comment fuel reg c) s
     (fun c' s' =>
        wf s' /\ (c' <= 0 -> c' = EOF /\ stream s' = []) /\
        exists cond body n,
          rest = w ++ cond ++ repeat SPACE n ++ body ++
                 [STAR; SLASH] ++ pending c' ++ stream s' /\
          (cond = [] <-> hd EOF (skipn (length w) rest) <> LPAREN) /\
          hd EOF (body ++ [STAR]) <> SPACE /\
          out s' = out s ++ expansion cond (method_of reg (match_ w reg)) body)
     (fun _ _ => True) True.
Proof.
  intros W Hs w Hlen Hne Hm. unfold block_comment. apply wp_bind.
  eapply wp_mono; [eapply candidate_spec; eassumption | | auto | auto].
  cbv beta. intros [tag c2] s2 (O2 & T2 & P2 & K2). cbn [fst snd] in *.
  fold w in T2. subst tag.
  destruct (K2 Hlen) as (W2 & A2 & S2 & E2 & R2). clear K2.
  assert (Hi : (if (length w =? 0)%nat then -1 else match_ w reg)
               = match_ w reg).
  { destruct w; [congruence | reflexivity]. }
  rewrite Hi.
  replace (0 <=? match_ w reg) with true
    by (symmetry; apply Z.leb_le; assumption).
  apply wp_bind.
  eapply wp_mono; [apply expand_spec; exact W2 | | auto | auto].
  cbv beta.
  intros _ s3 (W3 & P3 & cond & body & (Hc & Hb & n & St) & Ot).
  eapply wp_mono; [apply get_pending; exact W3 | | auto | auto].
  cbv beta. intros c4 s4 (W4 & P4 & S4 & E4 & O4 & _).
  splits; auto.
  exists cond, body, n. splits.
  - rewrite R2 at 1. rewrite St, S4. simpl. reflexivity.
  - rewrite R2 at 1. rewrite skipn_app, skipn_all, Nat.sub_diag. exact Hc.
  - assumption.
  - rewrite O4, Ot, O2, app_nil_r. reflexivity.
Qed.

(** The slash-star branch of [process_step] on a text state. *)
Lemma process_step_star fuel reg left s rest
  (Q : option (Z * Z) -> state -> Prop) E T :
  wf s -> stream s = STAR :: rest ->
  (forall s1, wf s1 -> stream s1 = STAR :: rest -> out s1 = out s ->
              line_nr s1 = line_nr s -> cr s1 = cr s ->
     wp (block_comment fuel reg SLASH) s1
        (fun c' s' => Q (Some (c', left)) s') E T) ->
  wp (process_step fuel reg SLASH left) s Q E T.
Proof.
  intros W Hs HQ. unfold process_step. cbn [Z.eqb Pos.eqb is_quote orb].
  repeat wp_step; sat_wf; rewrite ?Hs in *; cbn [hd] in *; zb;
    try solve [exfalso; congruence]; try solve [exfalso; lia].
  all: try (eapply wp_mono;
            [apply HQ; congruence | | auto | auto];
            cbv beta; intros; apply wp_ret; assumption).
  all: exfalso.
  all: repeat match goal with
       | H : stream ?a = stream ?b, H' : hd _ (stream ?b) = _ |- _ =>
           rewrite <- H in H'
       | H : _ :: _ = stream ?b, H' : hd _ (stream ?b) = _ |- _ =>
           rewrite <- H in H'; cbn [hd] in H'
       end; congruence.
Qed.

(** ** Pass-through *)

Lemma plain_app reg w l : plain reg (w ++ l) = true -> plain reg l = true.
Proof.
  induction w as [|a w IH]; [auto|].
  cbn [app plain]. intros H. apply andb_true_iff in H. apply IH, H.
Qed.

Lemma untagged_star reg rest :
  opens_tagged reg (SLASH :: STAR :: rest) = false ->
  let w := ident_run MAX_TAG_LENGTH rest in
  (length w < MAX_TAG_LENGTH)%nat /\ (w = [] \/ match_ w reg < 0).
Proof.
  intros H. unfold opens_tagged in H.
  cbn [Z.eqb Pos.eqb andb] in H. cbv zeta in H.
  apply orb_false_iff in H. destruct H as [H1 H2].
  apply Nat.leb_gt in H1. split; [exact H1|].
  apply andb_false_iff in H2. destruct H2 as [H2|H2].
  - left. apply negb_false_iff, Nat.eqb_eq in H2.
    destruct (ident_run MAX_TAG_LENGTH rest); [reflexivity|discriminate].
  - right. apply Z.leb_gt. exact H2.
Qed.

Lemma plain_star reg rest :
  plain reg (SLASH :: STAR :: rest) = true ->
  let w := ident_run MAX_TAG_LENGTH rest in
  (length w < MAX_TAG_LENGTH)%nat /\ (w = [] \/ match_ w reg < 0).
Proof.
  intros H. cbn [plain] in H. apply andb_true_iff in H. destruct H as [H _].
  apply negb_true_iff in H. apply untagged_star, H.
Qed.

Lemma echo_step c s c' s1 s' :
  echo_rel (emitted c s) s1 ->
  stream s1 = pending c' ++ stream s' -> out s' = out s1 ->
  step_rel c s c' s'.
Proof.
  intros (w & Ha & Hb) Hc Hd. autorewrite with cursor in *.
  exists (pending c ++ w). split.
  - rewrite Ha, Hc, <- !app_assoc. reflexivity.
  - rewrite Hd, Hb. unfold pending. rewrite <- !app_assoc. reflexivity.
Qed.

Lemma wp_get_hand s (Q : Z -> state -> Prop) E T :
  wf s ->
  (forall c' s', wf s' -> in_hand c' s' ->
                 stream s = pending c' ++ stream s' -> out s' = out s ->
                 Q c' s') ->
  wp (get false) s Q E T.
Proof.
  intros W H. pose proof (get_pending false s W) as G.
  destruct (get_spec false s) as (c & s' & Hg & _).
  unfold wp in *. rewrite Hg in *.
  destruct G as (W' & P' & S' & E' & O' & _).
  apply H; auto.
  - intros Hc. right. auto.
  - rewrite O', app_nil_r. reflexivity.
Qed.

(** [peek] on a text state: the head of the stream, or [EOF]. *)
Lemma wp_peek_text s (Q : Z -> state -> Prop) E T :
  wf s ->
  (forall s', wf s' -> stream s' = stream s -> out s' = out s ->
              line_nr s' = line_nr s -> cr s' = cr s ->
              Q (hd EOF (stream s)) s') ->
  wp peek s Q E T.
Proof.
  intros W H. apply wp_peek. intros c s' P.
  assert (K : wf s' /\ stream s' = stream s /\ out s' = out s /\
              line_nr s' = line_nr s /\ cr s' = cr s /\
              c = hd EOF (stream s)).
  { destruct P; sat_wf; splits; auto.
    all: repeat match goal with
         | K : stream _ = [] |- _ => rewrite K
         end; simpl; congruence. }
  destruct K as (K1 & K2 & K3 & K4 & K5 & ->). apply H; auto.
Qed.

Lemma wp_peek_is_text ch s (Q : bool -> state -> Prop) E T :
  wf s ->
  (forall s', wf s' -> stream s' = stream s -> out s' = out s ->
              line_nr s' = line_nr s -> cr s' = cr s ->
              Q (hd EOF (stream s) =? ch) s') ->
  wp (peek_is ch) s Q E T.
Proof.
  intros W H. unfold peek_is. apply wp_bind, wp_peek_text; [assumption|].
  intros s' W' S' O' L' C'. apply wp_ret. auto.
Qed.

Lemma echo_rel_emitted c s : echo_rel (emitted c s) (emitted c s).
Proof. apply echo_rel_refl. Qed.

(** A turn of the loop of [process] that is not at a tagged comment reads
    and writes the same text. *)
Lemma process_step_untagged fuel reg c left s :
  wf s -> in_hand c s ->
  (c = SLASH -> opens_tagged reg (SLASH :: stream s) = false) ->
  wp (process_step fuel reg c left) s
     (fun r s' =>
        match r with
        | None => c = EOF /\ s' = s
        | Some (c', _) => wf s' /\ in_hand c' s' /\ step_rel c s c' s'
        end)
     (fun _ _ => True) True.
Proof.
  intros W Hc Hp. unfold process_step.
  destruct (Z.eqb_spec c EOF) as [->|Heof]; [apply wp_ret; auto|].
  destruct (is_quote c) eqn:Hq.
  { (* a string *)
    apply wp_bind, wp_emit. apply wp_bind.
    eapply wp_mono;
      [apply (string_echo fuel c false (emitted c s));
       [apply wf_emitted; exact W | apply echo_rel_refl] | | auto | auto].
    cbv beta. intros _ s1 (W1 & E1 & P1 & _). apply wp_ret.
    splits; auto.
    - intros _. left. reflexivity.
    - eapply echo_step; [exact E1 | reflexivity | reflexivity]. }
  destruct (Z.eqb_spec c SLASH) as [->|Hslash].
  { (* a slash *)
    apply wp_bind, wp_peek_is_text; [assumption|].
    intros s1 W1 S1 O1 _ _.
    destruct (Z.eqb_spec (hd EOF (stream s)) SLASH) as [Hh|Hh].
    { (* a line comment *)
      apply wp_bind, wp_emit. apply wp_bind.
      eapply wp_mono;
        [apply (line_comment_echo fuel (emitted SLASH s1));
         [apply wf_emitted; exact W1 | apply echo_rel_refl] | | auto | auto].
      cbv beta. intros _ s2 (W2 & E2 & P2 & _). apply wp_bind.
      apply wp_get_hand; [assumption|].
      intros c' s3 W3 H3 S3 O3. apply wp_ret. splits; auto.
      destruct E2 as (w & Ea & Eb). autorewrite with cursor in *.
      exists (SLASH :: w). split.
      - simpl. rewrite <- S1, Ea, S3. reflexivity.
      - rewrite O3, Eb, O1, <- app_assoc. reflexivity. }
    apply wp_bind, wp_peek_is_text; [assumption|].
    intros s2 W2 S2 O2 _ _. rewrite S1.
    destruct (Z.eqb_spec (hd EOF (stream s)) STAR) as [Hs|Hs].
    { (* a comment *)
      specialize (Hp eq_refl).
      destruct (stream s) as [|d rest] eqn:Hst; [discriminate|].
      cbn [hd] in Hs. subst d. rewrite ?Hst in Hp.
      destruct (untagged_star reg rest Hp) as [Hlen Hm].
      apply wp_bind.
      eapply wp_mono;
        [apply (block_comment_unmatched fuel reg SLASH s2 rest);
         [assumption | congruence | assumption | assumption]
        | | auto | auto].
      cbv beta. intros c' s3 (W3 & H3 & body & Ha & Hb & _).
      apply wp_ret. splits; auto.
      - intros Hle. right. auto.
      - exists (comment_text body). split.
        + rewrite Hst, Ha. unfold comment_text. simpl.
          rewrite <- !app_assoc. reflexivity.
        + rewrite Hb. congruence. }
    (* a single slash *)
    apply wp_bind. unfold lone_slash.
    apply wp_bind, wp_emit. apply wp_bind.
    assert (Hr : wp (if pre_regexp left then regexp fuel false else ret tt)
                    (emitted SLASH s2)
                    (fun _ s3 => wf s3 /\ echo_rel (emitted SLASH s2) s3)
                    (fun _ _ => True) True).
    { destruct (pre_regexp left).
      - eapply wp_mono;
          [apply (regexp_echo fuel false (emitted SLASH s2));
           [apply wf_emitted; exact W2 | apply echo_rel_refl]
          | | auto | auto].
        cbv beta. intros _ s3 (W3 & E3 & _). auto.
      - apply wp_ret. split; [apply wf_emitted; exact W2|].
        apply echo_rel_refl. }
    eapply wp_mono; [exact Hr | | auto | auto].
    cbv beta. intros _ s3 (W3 & E3).
    apply wp_get_hand; [assumption|].
    intros c' s4 W4 H4 S4 O4. apply wp_ret.
    splits; auto.
    destruct E3 as (w & Ea & Eb). autorewrite with cursor in *.
    exists (SLASH :: w). split.
    - simpl. rewrite <- S1, <- S2, Ea, S4. reflexivity.
    - rewrite O4, Eb, O2, O1, <- app_assoc. reflexivity. }
  (* another character *)
  apply wp_bind, wp_emit. apply wp_bind.
  apply wp_get_hand; [apply wf_emitted; assumption|].
  intros c' s1 W1 H1 S1 O1. apply wp_ret. splits; auto.
  autorewrite with cursor in *.
  exists (pending c). split.
  - rewrite S1. reflexivity.
  - rewrite O1. unfold pending. reflexivity.
Qed.

Lemma process_step_plain fuel reg c left s :
  wf s -> in_hand c s -> plain reg (pending c ++ stream s) = true ->
  wp (process_step fuel reg c left) s
     (fun r s' =>
        match r with
        | None => c = EOF /\ s' = s
        | Some (c', _) => wf s' /\ in_hand c' s' /\ step_rel c s c' s'
        end)
     (fun _ _ => True) True.
Proof.
  intros W Hc Hp. apply process_step_untagged; try assumption.
  intros ->. cbn [pending Z.ltb Z.compare app plain] in Hp.
  apply andb_true_iff in Hp. destruct Hp as [Hp _].
  apply negb_true_iff, Hp.
Qed.

Lemma process_loop_plain fuel reg c left s :
  wf s -> in_hand c s -> plain reg (pending c ++ stream s) = true ->
  wp (process_loop fuel reg c left) s
     (fun _ s' => out s' = out s ++ pending c ++ stream s)
     (fun _ _ => True) True.
Proof.
  revert c left s.
  induction fuel as [|fuel IH]; intros c left s W Hc Hp; [exact I|].
  cbn [process_loop]. apply wp_bind.
  eapply wp_mono; [apply process_step_plain; eassumption | | auto | auto].
  cbv beta. intros [[c' left']|] s1.
  - intros (W1 & H1 & w & Sa & Sb).
    eapply wp_mono; [apply IH; try assumption | | auto | auto].
    + rewrite Sa in Hp. apply plain_app in Hp. exact Hp.
    + cbv beta. intros _ s2 Ho.
      rewrite Ho, Sb, Sa, <- app_assoc. reflexivity.
  - intros [-> ->]. apply wp_ret.
    destruct Hc as [Hc|[_ Hc]]; [lia|discriminate|].
    rewrite Hc. simpl. rewrite app_nil_r. reflexivity.
Qed.

Lemma wf_initial stdin : is_text stdin -> wf (initial stdin).
Proof.
  intros H. split; [|simpl; lia].
  unfold is_text in H. rewrite forallb_forall in H.
  apply Forall_forall. intros b Hb. apply Z.ltb_lt, H, Hb.
Qed.

Lemma process_plain fuel reg s :
  wf s -> preview s = 0 -> plain reg (stream s) = true ->
  wp (process fuel reg) s
     (fun _ s' => out s' = out s ++ stream s)
     (fun _ _ => True) True.
Proof.
  intros W P Hp. unfold process.
  apply wp_bind, wp_modify. apply wp_bind.
  apply wp_get_hand; [apply wf_set_line_nr; exact W|].
  intros c s1 W1 H1 S1 O1. autorewrite with cursor in *.
  eapply wp_mono; [apply process_loop_plain; try assumption | | auto | auto].
  - rewrite <- S1. exact Hp.
  - cbv beta. intros _ s2 Ho. rewrite Ho, O1, S1. reflexivity.
Qed.

(** ** Unterminated strings *)

(** [get] on a text state. *)
Lemma wp_get_text (echo : bool) s (Q : Z -> state -> Prop) E T :
  wf s ->
  (forall c s',
      wf s' -> preview s' = 0 ->
      stream s = pending c ++ stream s' ->
      (c <= 0 -> c = EOF /\ stream s' = []) ->
      out s' = out s ++ (if echo then pending c else []) ->
      line_nr s' = line_nr s + tick c (cr s) ->
      Q c s') ->
  wp (get echo) s Q E T.
Proof.
  intros W H. pose proof (get_pending echo s W) as G.
  destruct (get_spec echo s) as (c & s' & Hg & _).
  unfold wp in *. rewrite Hg in *.
  destruct G as (W' & P' & S' & E' & O' & L').
  apply H; auto.
Qed.

Lemma has_close_tl c r : has_close (c :: r) = false -> has_close r = false.
Proof.
  cbn [has_close]. intros H. apply orb_false_iff in H. apply H.
Qed.

Lemma has_close_star r :
  has_close (STAR :: r) = false -> (hd EOF r =? SLASH) = false.
Proof.
  cbn [has_close]. intros H. apply orb_false_iff in H. destruct H as [H _].
  destruct r; [reflexivity|]. exact H.
Qed.

Lemma pending_cons c l l' :
  0 < c \/ c = EOF -> pending c ++ l' = l ->
  (0 < c /\ l = c :: l') \/ (c = EOF /\ l = l').
Proof.
  intros [H|H] E.
  - rewrite pending_pos in E by assumption. left. split; auto.
  - subst c. right. split; auto.
Qed.

Lemma string_loop_unterminated fuel quote in_comment was s :
  wf s -> 0 < quote ->
  closed quote (stream s) = false ->
  (in_comment = true -> has_close (stream s) = false) ->
  (length (stream s) < fuel)%nat ->
  wp (string_loop fuel quote in_comment was) s
     (fun _ _ => False)
     (fun msg s' => msg = "unterminated string literal." /\
                    line_nr s' = was)
     False.
Proof.
  intros W Hq. revert s W.
  induction fuel as [|fuel IH]; intros s W Hc Hn Hf; [lia|].
  cbn [string_loop]. apply wp_bind, wp_get_text; [assumption|].
  intros c s1 W1 P1 S1 E1 _ _.
  destruct (Z.leb_spec c 0) as [Hle|Hpos].
  { (* the end of the text *)
    destruct (E1 Hle) as [-> E1'].
    replace (-1 =? quote) with false by (symmetry; apply Z.eqb_neq; lia).
    cbn [Z.eqb]. apply wp_bind, wp_ret. unfold andM.
    rewrite andb_false_r. apply wp_bind, wp_ret.
    apply wp_bind, wp_modify. apply wp_error. auto. }
  rewrite pending_pos in S1 by assumption. cbn [app] in S1.
  rewrite S1 in Hc, Hn, Hf. cbn [closed length] in Hc, Hf.
  destruct (Z.eqb_spec c quote) as [Hcq|Hcq]; [discriminate|].
  destruct (Z.eqb_spec c BACKSLASH) as [Hb|Hb].
  - (* an escaped character *)
    apply wp_bind, wp_get_text; [assumption|].
    intros c2 s2 W2 P2 S2 E2 _ _.
    destruct (Z.leb_spec c2 0) as [Hle2|Hpos2].
    { destruct (E2 Hle2) as [-> E2'].
      unfold andM. rewrite andb_false_r. apply wp_bind, wp_ret.
      cbn [Z.eqb]. apply wp_bind, wp_modify. apply wp_error. auto. }
    rewrite pending_pos in S2 by assumption. cbn [app] in S2.
    rewrite S2 in Hc, Hn, Hf. cbn [length] in Hf.
    assert (Hn2 : in_comment = true -> has_close (c2 :: stream s2) = false).
    { intros Hi. eapply has_close_tl, Hn, Hi. }
    apply wp_bind. unfold andM.
    destruct (in_comment && (c2 =? 42)) eqn:Hic.
    + apply andb_true_iff in Hic. destruct Hic as [Hi Hc2].
      apply Z.eqb_eq in Hc2. subst c2.
      apply wp_peek_is_text; [assumption|]. intros s3 W3 S3 _ _ _.
      rewrite (has_close_star _ (Hn2 Hi)).
      replace (42 =? -1) with false by reflexivity.
      eapply wp_mono; [apply IH | auto | auto | auto]; try assumption.
      * rewrite S3. assumption.
      * intros Hi'. rewrite S3. eapply has_close_tl, Hn2, Hi'.
      * rewrite S3. lia.
    + apply wp_ret.
      replace (c2 =? -1) with false by (symmetry; apply Z.eqb_neq; lia).
      eapply wp_mono; [apply IH | auto | auto | auto]; try assumption.
      * intros Hi'. eapply has_close_tl, Hn2, Hi'.
      * lia.
  - (* another character *)
    apply wp_bind, wp_ret. apply wp_bind. unfold andM.
    destruct (in_comment && (c =? 42)) eqn:Hic.
    + apply andb_true_iff in Hic. destruct Hic as [Hi Hc2].
      apply Z.eqb_eq in Hc2. subst c.
      apply wp_peek_is_text; [assumption|]. intros s3 W3 S3 _ _ _.
      rewrite (has_close_star _ (Hn Hi)).
      replace (42 =? -1) with false by reflexivity.
      eapply wp_mono; [apply IH | auto | auto | auto]; try assumption.
      * rewrite S3. assumption.
      * intros Hi'. rewrite S3. eapply has_close_tl, Hn, Hi'.
      * rewrite S3. lia.
    + apply wp_ret.
      replace (c =? -1) with false by (symmetry; apply Z.eqb_neq; lia).
      eapply wp_mono; [apply IH | auto | auto | auto]; try assumption.
      * intros Hi'. eapply has_close_tl, Hn, Hi'.
      * lia.
Qed.

(** Every diagnostic of an unterminated string carries the line where
    the scanner was called. *)
Lemma string_loop_line fuel quote in_comment was s :
  wp (string_loop fuel quote in_comment was) s
     (fun _ _ => True)
     (fun msg s' => msg = "unterminated string literal." ->
                    line_nr s' = was)
     True.
Proof.
  revert s. induction fuel as [|fuel IH]; intros s; [exact I|].
  cbn [string_loop].
  repeat wp_step; auto; try discriminate.
Qed.

(** ** The configurations of the driver *)

(** ** The cursor on a text, as equations *)

Lemma peek_text_eq s :
  wf s ->
  exists s1, peek s = Ok (hd EOF (stream s)) s1 /\ wf s1 /\
             stream s1 = stream s /\ out s1 = out s /\
             line_nr s1 = line_nr s /\ cr s1 = cr s.
Proof.
  intros W. destruct (peek_spec s) as (c & s1 & Hp & P).
  assert (K : wf s1 /\ stream s1 = stream s /\ out s1 = out s /\
              line_nr s1 = line_nr s /\ cr s1 = cr s /\
              c = hd EOF (stream s)).
  { destruct P; sat_wf; splits; auto.
    all: repeat match goal with
         | K : stream _ = [] |- _ => rewrite K
         end; simpl; congruence. }
  destruct K as (K1 & K2 & K3 & K4 & K5 & ->).
  exists s1. splits; auto.
Qed.

Lemma peek_is_text_eq ch s :
  wf s ->
  exists s1, peek_is ch s = Ok (hd EOF (stream s) =? ch) s1 /\ wf s1 /\
             stream s1 = stream s /\ out s1 = out s /\
             line_nr s1 = line_nr s /\ cr s1 = cr s.
Proof.
  intros W. destruct (peek_text_eq s W) as (s1 & Hp & K).
  exists s1. split; [|exact K].
  unfold peek_is, bind. rewrite Hp. reflexivity.
Qed.

Lemma get_text_eq echo s c r :
  wf s -> stream s = c :: r ->
  exists s1, get echo s = Ok c s1 /\ wf s1 /\ preview s1 = 0 /\
             stream s1 = r /\
             out s1 = out s ++ (if echo then [c] else []) /\
             line_nr s1 = line_nr s + tick c (cr s).
Proof.
  intros W Hs. destruct (get_spec echo s) as (c1 & s1 & Hg & P).
  destruct P; sat_wf.
  - match goal with H : stream s = _ :: _ |- _ =>
      rewrite Hs in H; injection H as Ha Hb
    end.
    subst. exists s'. splits; auto.
  - congruence.
Qed.

Lemma pre_regexp_iff left :
  pre_regexp left = true <->
  In left [LPAREN; COMMA; EQUALS; COLON; LBRACKET; BANG;
           AMP; BAR; QUESTION; LBRACE; RBRACE; SEMI].
Proof.
  unfold pre_regexp. cbn [In].
  rewrite !orb_true_iff, !Z.eqb_eq. intuition congruence.
Qed.

Lemma lone_slash_eq fuel left s :
  lone_slash fuel left s
  = if pre_regexp left
    then (regexp fuel false ;;; get false) (emitted SLASH s)
    else get false (emitted SLASH s).
Proof.
  unfold lone_slash, bind, emit. cbn [Z.ltb Z.compare].
  destruct (pre_regexp left); reflexivity.
Qed.

Lemma process_step_lone reg s :
  wf s -> hd EOF (stream s) <> SLASH -> hd EOF (stream s) <> STAR ->
  exists s1, wf s1 /\ stream s1 = stream s /\ out s1 = out s /\
             line_nr s1 = line_nr s /\
             forall fuel left,
               process_step fuel reg SLASH left s
               = (c <- lone_slash fuel left ;; ret (Some (c, SLASH))) s1.
Proof.
  intros W H1 H2.
  destruct (peek_is_text_eq SLASH s W) as (s0 & P0 & W0 & S0 & O0 & L0 & _).
  destruct (peek_is_text_eq STAR s0 W0) as (s1 & P1 & W1 & S1 & O1 & L1 & _).
  exists s1. splits; try congruence.
  intros fuel left.
  unfold process_step. cbn [Z.eqb Pos.eqb is_quote orb].
  unfold bind at 1. rewrite P0.
  replace (hd EOF (stream s) =? SLASH) with false
    by (symmetry; apply Z.eqb_neq; assumption).
  unfold bind at 1. rewrite P1. rewrite S0.
  replace (hd EOF (stream s) =? STAR) with false
    by (symmetry; apply Z.eqb_neq; assumption).
  reflexivity.
Qed.

Lemma process_step_default fuel reg c left s :
  c <> EOF -> is_quote c = false -> c <> SLASH ->
  process_step fuel reg c left s
  = (emit c ;;; c' <- get false ;;
     ret (Some (c', if SPACE <? c then c else left))) s.
Proof.
  intros H1 H2 H3. unfold process_step.
  replace (c =? EOF) with false by (symmetry; apply Z.eqb_neq; assumption).
  rewrite H2.
  replace (c =? SLASH) with false by (symmetry; apply Z.eqb_neq; assumption).
  reflexivity.
Qed.

(** ** Line endings: a simulation *)

Lemma rel_bind {A B A' B'} (m1 : M A) (m2 : M B)
  (k1 : A -> M A') (k2 : B -> M B') s t Q Q' :
  rel m1 m2 s t Q' ->
  (forall a s' b t', Q' a s' b t' -> rel (k1 a) (k2 b) s' t' Q) ->
  rel (bind m1 k1) (bind m2 k2) s t Q.
Proof.
  unfold rel, bind. intros H K.
  destruct (m1 s) as [a s'|msg s'|]; destruct (m2 t) as [b t'|msg' t'|];
    auto; try contradiction.
  - apply K. exact H.
  - destruct (k1 a s'); exact I.
Qed.

Lemma rel_ret {A B} (a : A) (b : B) s t
  (Q : A -> state -> B -> state -> Prop) :
  Q a s b t -> rel (ret a) (ret b) s t Q.
Proof. exact (fun H => H). Qed.

Lemma rel_error {A B} msg s t (Q : A -> state -> B -> state -> Prop) :
  line_nr s = line_nr t -> rel (error msg) (error msg) s t Q.
Proof. intros H. split; [reflexivity | exact H]. Qed.

Lemma rel_modify f g s t (Q : unit -> state -> unit -> state -> Prop) :
  Q tt (f s) tt (g t) -> rel (modify f) (modify g) s t Q.
Proof. exact (fun H => H). Qed.

Lemma rel_emit c c' s t (Q : Z -> state -> Z -> state -> Prop) :
  Q c (emitted c s) c' (emitted c' t) -> rel (emit c) (emit c') s t Q.
Proof.
  unfold rel, emit, emitted. destruct (0 <? c); destruct (0 <? c'); auto.
Qed.

Lemma rel_mono {A B} (m1 : M A) (m2 : M B) s t
  (Q Q' : A -> state -> B -> state -> Prop) :
  rel m1 m2 s t Q -> (forall a s' b t', Q a s' b t' -> Q' a s' b t') ->
  rel m1 m2 s t Q'.
Proof.
  unfold rel. intros H K.
  destruct (m1 s); destruct (m2 t); auto.
Qed.

Lemma rel_timeout_r {A B} (m1 : M A) s t
  (Q : A -> state -> B -> state -> Prop) :
  rel m1 (@timeout B) s t Q.
Proof. unfold rel, timeout. destruct (m1 s); exact I. Qed.

Lemma rel_timeout_l {A B} (m2 : M B) s t
  (Q : A -> state -> B -> state -> Prop) :
  rel (@timeout A) m2 s t Q.
Proof. exact I. Qed.

(** A step of the second run alone. *)
Lemma rel_right {A B B'} (m1 : M A) (m2 : M B) (k2 : B -> M B') s t b t'
  (Q : A -> state -> B' -> state -> Prop) :
  m2 t = Ok b t' -> rel m1 (k2 b) s t' Q -> rel m1 (bind m2 k2) s t Q.
Proof.
  unfold rel, bind. intros E H. rewrite E. exact H.
Qed.

(** ** [get] and [peek] on every state *)

Lemma get_ahead (echo : bool) s :
  exists s',
    get echo s = Ok (char_of (hd EOF (ahead s))) s' /\
    preview s' = 0 /\ ahead s' = tl (ahead s) /\
    cr s' = (if hd EOF (ahead s) <=? 0 then cr s
             else hd EOF (ahead s) =? CR) /\
    line_nr s' = line_nr s +
                 (if hd EOF (ahead s) <=? 0 then 0
                  else tick (hd EOF (ahead s)) (cr s)).
Proof.
  destruct s as [inp p c l o].
  unfold ahead, char_of, get, bind, fgetc, ret, emit, tick; simpl.
  destruct (Z.eqb_spec p 0) as [->|Hp]; simpl.
  - destruct inp as [|b r]; simpl.
    + eexists. splits; try reflexivity. simpl. lia.
    + destruct (b <=? 0) eqn:Hb; simpl.
      * eexists. splits; try reflexivity. simpl. lia.
      * destruct (b =? 13) eqn:E1; simpl;
          [|destruct ((b =? 10) && negb c) eqn:E2; simpl];
          destruct echo; simpl;
          try (replace (0 <? b) with true
                 by (symmetry; apply Z.ltb_lt; apply Z.leb_gt in Hb; lia));
          eexists; splits; try reflexivity; simpl; lia.
  - destruct (p <=? 0) eqn:Hb; simpl.
    + eexists. splits; try reflexivity. simpl. lia.
    + destruct (p =? 13) eqn:E1; simpl;
        [|destruct ((p =? 10) && negb c) eqn:E2; simpl];
        destruct echo; simpl;
        try (replace (0 <? p) with true
               by (symmetry; apply Z.ltb_lt; apply Z.leb_gt in Hb; lia));
        eexists; splits; try reflexivity; simpl; lia.
Qed.

Lemma peek_ahead s :
  exists s',
    peek s = Ok (hd EOF (ahead s)) s' /\
    cr s' = cr s /\ line_nr s' = line_nr s /\
    ahead s' = match ahead s with
               | [] => [EOF]
               | h :: r => if h =? 0 then r else h :: r
               end.
Proof.
  destruct s as [inp p c l o].
  unfold ahead, peek, bind, fgetc, ret, modify; simpl.
  destruct (Z.eqb_spec p 0) as [->|Hp]; simpl.
  - destruct inp as [|b r]; simpl.
    + eexists. splits; reflexivity.
    + eexists. splits; try reflexivity. simpl.
      destruct (b =? 0); reflexivity.
  - eexists. splits; try reflexivity. simpl.
    replace (p =? 0) with false by (symmetry; apply Z.eqb_neq; lia).
    reflexivity.
Qed.

Lemma peek_is_ahead ch s :
  exists s',
    peek_is ch s = Ok (hd EOF (ahead s) =? ch) s' /\
    cr s' = cr s /\ line_nr s' = line_nr s /\
    ahead s' = match ahead s with
               | [] => [EOF]
               | h :: r => if h =? 0 then r else h :: r
               end.
Proof.
  destruct (peek_ahead s) as (s' & P & K). exists s'. split; [|exact K].
  unfold peek_is, bind. rewrite P. reflexivity.
Qed.

Lemma nocr_cons c r : nocr (c :: r) -> c <> CR /\ nocr r.
Proof.
  unfold nocr. cbn [forallb]. intros H.
  apply andb_true_iff in H. destruct H as [H1 H2].
  apply negb_true_iff, Z.eqb_neq in H1. auto.
Qed.

Lemma nocr_intro c r : c <> CR -> nocr r -> nocr (c :: r).
Proof.
  unfold nocr. cbn [forallb]. intros H ->.
  replace (c =? 13) with false by (symmetry; apply Z.eqb_neq; lia).
  reflexivity.
Qed.

Lemma crlf_cons c r :
  crlf (c :: r) = (if c =? LF then [CR; LF] else [c]) ++ crlf r.
Proof. reflexivity. Qed.

(** ** [get] and [peek] in the two runs *)

Lemma rel_get_head (echo echo' : bool) s t :
  sim s t ->
  rel (get echo) (get echo') s t
      (fun c s' c' t' => got c s' c' t' /\ head_is s c).
Proof.
  intros (C & N & L & S).
  destruct (get_ahead echo s) as (s1 & G1 & P1 & A1 & C1 & L1).
  destruct (get_ahead echo' t) as (t1 & G2 & P2 & A2 & C2 & L2).
  unfold rel. rewrite G1, G2. split; [|reflexivity].
  unfold got. splits; auto.
  destruct (ahead s) as [|c r] eqn:Hs.
  - rewrite S in *. cbn [crlf flat_map hd tl] in *.
    left. unfold char_of. simpl. splits; auto.
    unfold sim. rewrite A1, A2. simpl in *. splits; auto; congruence.
  - destruct (nocr_cons c r N) as [Hc Nr].
    rewrite crlf_cons in S. rewrite S in *. cbn [hd tl] in *.
    destruct (Z.eqb_spec c LF) as [->|Hlf]; cbn [app hd tl] in *.
    + right. right. unfold char_of. simpl in *. splits; auto.
      unfold lag. rewrite A1, A2. splits; auto.
      rewrite L1, L2, C, L. unfold tick. simpl. reflexivity.
    + unfold char_of. destruct (Z.leb_spec c 0) as [Hn|Hp].
      * left. splits; auto. unfold sim. rewrite A1, A2.
        splits; auto; congruence.
      * right. left. splits; auto. unfold sim. rewrite A1, A2.
        splits; auto.
        -- rewrite C1. apply Z.eqb_neq. assumption.
        -- rewrite L1, L2, L. unfold tick.
           replace (c =? 13) with false by (symmetry; apply Z.eqb_neq; lia).
           replace (c =? 10) with false by (symmetry; apply Z.eqb_neq; lia).
           reflexivity.
Qed.

Lemma rel_get (echo echo' : bool) s t :
  sim s t -> rel (get echo) (get echo') s t got.
Proof.
  intros Hm. eapply rel_mono; [apply rel_get_head; eassumption|].
  cbv beta. intros c s' c' t' [H _]. exact H.
Qed.

Lemma lag_get (echo : bool) s t :
  lag s t ->
  exists t', get echo t = Ok LF t' /\ sim s t' /\ preview t' = 0.
Proof.
  intros (C & N & L & C' & S).
  destruct (get_ahead echo t) as (t1 & G2 & P2 & A2 & C2 & L2).
  rewrite S in *. cbn [hd tl] in *.
  exists t1. splits; auto. unfold sim. splits; auto.
  rewrite L2, C', L. unfold tick. simpl. lia.
Qed.

Lemma hd_crlf l ch :
  nocr l -> ch <> LF -> ch <> CR ->
  (hd EOF (crlf l) =? ch) = (hd EOF l =? ch).
Proof.
  intros N H1 H2. destruct l as [|c r]; [reflexivity|].
  rewrite crlf_cons. cbn [hd].
  destruct (Z.eqb_spec c LF) as [->|Hc]; cbn [app hd]; [|reflexivity].
  replace (13 =? ch) with false by (symmetry; apply Z.eqb_neq; lia).
  replace (10 =? ch) with false by (symmetry; apply Z.eqb_neq; lia).
  reflexivity.
Qed.

Lemma rel_peek_is ch s t :
  0 < ch -> ch <> LF -> ch <> CR -> sim s t ->
  rel (peek_is ch) (peek_is ch) s t
      (fun b s' b' t' => b' = b /\ sim s' t' /\
                         (b = true -> head_is s' ch)).
Proof.
  intros H0 H1 H2 (C & N & L & S).
  destruct (peek_is_ahead ch s) as (s1 & P1 & C1 & L1 & A1).
  destruct (peek_is_ahead ch t) as (t1 & P2 & C2 & L2 & A2).
  unfold rel. rewrite P1, P2. splits.
  - rewrite S. apply hd_crlf; assumption.
  - unfold sim. rewrite A1, A2, S. splits; auto; try congruence.
    + destruct (ahead s) as [|c r]; [reflexivity|].
      destruct (nocr_cons c r N) as [Hc Nr].
      destruct (c =? 0); [assumption | apply nocr_intro; assumption].
    + destruct (ahead s) as [|c r]; [reflexivity|].
      rewrite crlf_cons.
      destruct (Z.eqb_spec c LF) as [->|Hlf]; cbn [app]; [reflexivity|].
      destruct (c =? 0); [reflexivity|].
      rewrite crlf_cons.
      replace (c =? 10) with false by (symmetry; apply Z.eqb_neq; lia).
      reflexivity.
  - intros E. apply Z.eqb_eq in E. unfold head_is, char_of.
    rewrite A1. destruct (ahead s) as [|c r]; cbn [hd] in *; [lia|].
    replace (c =? 0) with false by (symmetry; apply Z.eqb_neq; lia).
    cbn [hd]. replace (c <=? 0) with false by (symmetry; apply Z.leb_gt; lia).
    assumption.
Qed.

Lemma lag_peek_is ch s t :
  ch <> LF -> lag s t ->
  exists t', peek_is ch t = Ok false t' /\ lag s t'.
Proof.
  intros H1 (C & N & L & C' & S).
  destruct (peek_is_ahead ch t) as (t1 & P2 & C2 & L2 & A2).
  exists t1. split.
  - rewrite P2, S. cbn [hd].
    replace (10 =? ch) with false by (symmetry; apply Z.eqb_neq; lia).
    reflexivity.
  - rewrite S in A2. simpl in A2.
    unfold lag. splits; auto; congruence.
Qed.

Lemma sim_emitted c c' s t : sim s t -> sim (emitted c s) (emitted c' t).
Proof.
  unfold emitted. destruct (0 <? c); destruct (0 <? c'); exact (fun H => H).
Qed.

Lemma lag_emitted c c' s t : lag s t -> lag (emitted c s) (emitted c' t).
Proof.
  unfold emitted. destruct (0 <? c); destruct (0 <? c'); exact (fun H => H).
Qed.

Lemma sim_write l l' s t : sim s t -> sim (write l s) (write l' t).
Proof. exact (fun H => H). Qed.

Lemma sim_set_line_nr n s t :
  sim s t -> sim (set_line_nr n s) (set_line_nr n t).
Proof.
  intros (C & N & L & S). unfold sim. splits; auto.
Qed.

Lemma sim_line s t : sim s t -> line_nr s = line_nr t.
Proof. intros H. apply H. Qed.

Lemma lag_line s t : lag s t -> line_nr s = line_nr t.
Proof. intros H. apply H. Qed.

Lemma sim_initial stdin :
  nocr stdin -> sim (initial stdin) (initial (crlf stdin)).
Proof.
  intros N. unfold sim. splits; auto.
Qed.

Lemma rel_rewrite_r {A B} (m1 : M A) (m2 m2' : M B) s t t'
  (Q : A -> state -> B -> state -> Prop) :
  m2 t = m2' t' -> rel m1 m2' s t' Q -> rel m1 m2 s t Q.
Proof. unfold rel. intros ->. auto. Qed.

Lemma rel_bind_ret {A B A' B'} (a : A) (b : B)
  (k1 : A -> M A') (k2 : B -> M B') s t Q :
  rel (k1 a) (k2 b) s t Q -> rel (bind (ret a) k1) (bind (ret b) k2) s t Q.
Proof. exact (fun H => H). Qed.

Lemma rel_bind_emit {A' B'} c c'
  (k1 : Z -> M A') (k2 : Z -> M B') s t Q :
  rel (k1 c) (k2 c') (emitted c s) (emitted c' t) Q ->
  rel (bind (emit c) k1) (bind (emit c') k2) s t Q.
Proof.
  unfold rel, bind, emit, emitted.
  destruct (0 <? c); destruct (0 <? c'); auto.
Qed.

Lemma rel_bind_modify {A' B'} f g
  (k1 : unit -> M A') (k2 : unit -> M B') s t Q :
  rel (k1 tt) (k2 tt) (f s) (g t) Q ->
  rel (bind (modify f) k1) (bind (modify g) k2) s t Q.
Proof. exact (fun H => H). Qed.

Lemma rel_orM_peeks a b s t :
  0 < a -> a <> LF -> a <> CR -> 0 < b -> b <> LF -> b <> CR -> sim s t ->
  rel (orM (peek_is a) (peek_is b)) (orM (peek_is a) (peek_is b)) s t
      (fun r s' r' t' => r' = r /\ sim s' t').
Proof.
  intros Ha0 Ha Ha' Hb0 Hb Hb' Hs. unfold orM.
  eapply rel_bind; [apply rel_peek_is; assumption|].
  cbv beta. intros r s' r' t' (-> & Hs' & _).
  destruct r.
  - apply rel_ret. auto.
  - eapply rel_mono; [apply rel_peek_is; assumption|].
    cbv beta. intros r1 s1 r1' t1 (-> & Hs1 & _). auto.
Qed.

(** The tests that the context decides. *)
Ltac tests :=
  repeat match goal with
  | |- context [if ?b then _ else _] =>
      let v := eval vm_compute in b in
      match v with
      | true => change b with true
      | false => change b with false
      end; cbv iota
  | |- context [Z.eqb ?a ?b] =>
      first [ replace (Z.eqb a b) with false
                by (symmetry; apply Z.eqb_neq; lia)
            | replace (Z.eqb a b) with true
                by (symmetry; apply Z.eqb_eq; lia) ]
  | |- context [?b && false] => rewrite (andb_false_r b)
  end; cbv iota.

(** One step of two runs in [sim]. *)
Ltac rel_step1 :=
  lazymatch goal with
  | |- rel (bind (get _) _) (bind (get _) _) _ _ _ =>
      let G := fresh "G" in
      eapply rel_bind; [apply rel_get_head; assumption|];
      intros ? ? ? ? G;
      destruct G as
        ((? & ? & [(? & ? & ?)|[(? & ? & ? & ? & ?)|(? & ? & ?)]]) & ?);
      subst; tests
  | |- rel (bind (peek_is _) _) (bind (peek_is _) _) _ _ _ =>
      let G := fresh "G" in
      let Hp := fresh "Hp" in
      let b := fresh "b" in
      eapply rel_bind; [apply rel_peek_is; [lia | lia | lia | assumption]|];
      intros b ? ? ? G; destruct G as (? & ? & Hp); subst;
      destruct b; [specialize (Hp eq_refl) | clear Hp]
  | |- rel (peek_is _) (peek_is _) _ _ _ =>
      let G := fresh "G" in
      eapply rel_mono; [apply rel_peek_is; [lia | lia | lia | assumption]|];
      cbv beta; intros ? ? ? ? G; destruct G as (? & ? & ?); subst
  | |- rel (bind (ret _) _) (bind (ret _) _) _ _ _ =>
      apply rel_bind_ret
  | |- rel (bind (emit _) _) (bind (emit _) _) _ _ _ =>
      apply rel_bind_emit
  | |- rel (bind (modify _) _) (bind (modify _) _) _ _ _ =>
      apply rel_bind_modify
  | |- rel (bind (emits _) _) (bind (emits _) _) _ _ _ =>
      apply rel_bind_modify
  | |- rel (bind (andM _ _) _) (bind (andM _ _) _) _ _ _ =>
      unfold andM
  | |- rel (bind (orM _ _) _) (bind (orM _ _) _) _ _ _ =>
      let G := fresh "G" in
      eapply rel_bind;
      [apply rel_orM_peeks;
       [lia | lia | lia | lia | lia | lia | assumption]|];
      intros ? ? ? ? G; destruct G as (? & ?); subst
  | |- rel (bind (if ?b then _ else _) _) (bind (if ?b then _ else _) _) _ _ _ =>
      let B := fresh "B" in destruct b eqn:B; tests
  | |- rel (if ?b then _ else _) (if ?b then _ else _) _ _ _ =>
      let B := fresh "B" in destruct b eqn:B; tests
  | |- rel (ret _) (ret _) _ _ _ => apply rel_ret
  | |- rel (error _) (error _) _ _ _ => apply rel_error
  end.

Ltac rel_step := rel_step1; cbv beta; tests.

(** The end of a path: the lines are the same, or the loop goes on. *)
Ltac rel_close IH :=
  first [ assumption
        | apply sim_line; assumption
        | apply lag_line; assumption
        | reflexivity
        | solve [apply IH; auto]
        | solve [exfalso; unfold head_is in *; zb;
                 first [discriminate | lia | congruence]] ].

Lemma string_loop_LF n quote in_comment was t t' :
  SPACE < quote -> get true t = Ok LF t' ->
  string_loop (S n) quote in_comment was t
  = string_loop n quote in_comment was t'.
Proof.
  intros Hq G. cbn [string_loop]. unfold bind at 1. rewrite G.
  tests. unfold bind, ret, andM. tests. reflexivity.
Qed.

Lemma string_loop_sim ft :
  forall fs quote in_comment was s t,
    SPACE < quote -> sim s t \/ lag s t ->
    rel (string_loop fs quote in_comment was)
        (string_loop ft quote in_comment was) s t
        (fun _ s' _ t' => sim s' t').
Proof.
  induction ft as [|n IH]; intros fs quote in_comment was s t Hq Hm.
  { apply rel_timeout_r. }
  destruct Hm as [Hm|Hm].
  - destruct fs as [|m]; [apply rel_timeout_l|].
    cbn [string_loop].
    repeat rel_step; rel_close IH.
  - destruct (lag_get true s t Hm) as (t' & G & Hs & _).
    eapply rel_rewrite_r; [apply string_loop_LF; eassumption|].
    apply IH; auto.
Qed.

Lemma is_quote_above c : is_quote c = true -> SPACE < c.
Proof.
  unfold is_quote. intros H. zb.
  repeat match goal with H : _ \/ _ |- _ => destruct H end; zb; lia.
Qed.

Lemma string_sim fs ft quote in_comment s t :
  SPACE < quote -> sim s t ->
  rel (string fs quote in_comment) (string ft quote in_comment) s t
      (fun _ s' _ t' => sim s' t').
Proof.
  intros Hq Hs.
  change (rel (string_loop fs quote in_comment (line_nr s))
              (string_loop ft quote in_comment (line_nr t)) s t
              (fun _ s' _ t' => sim s' t')).
  rewrite <- (sim_line s t Hs). apply string_loop_sim; auto.
Qed.

Lemma regexp_set_LF n in_comment t t' :
  get true t = Ok LF t' ->
  regexp_set (S n) in_comment t = regexp_set n in_comment t'.
Proof.
  intros G. cbn [regexp_set]. unfold bind at 1. rewrite G.
  tests. unfold bind, ret, andM. tests. reflexivity.
Qed.

Lemma regexp_set_sim ft :
  forall fs in_comment s t,
    sim s t \/ lag s t ->
    rel (regexp_set fs in_comment) (regexp_set ft in_comment) s t
        (fun _ s' _ t' => sim s' t').
Proof.
  induction ft as [|n IH]; intros fs in_comment s t Hm.
  { apply rel_timeout_r. }
  destruct Hm as [Hm|Hm].
  - destruct fs as [|m]; [apply rel_timeout_l|].
    cbn [regexp_set].
    repeat rel_step; rel_close IH.
  - destruct (lag_get true s t Hm) as (t' & G & Hs & _).
    eapply rel_rewrite_r; [apply regexp_set_LF; eassumption|].
    apply IH; auto.
Qed.

Lemma regexp_loop_LF n in_comment was t t' :
  get true t = Ok LF t' ->
  regexp_loop (S n) in_comment was t = regexp_loop n in_comment was t'.
Proof.
  intros G. cbn [regexp_loop]. unfold bind at 1. rewrite G.
  cbv zeta. tests. unfold bind, ret, andM. tests. reflexivity.
Qed.

Lemma regexp_loop_sim ft :
  forall fs in_comment was s t,
    sim s t \/ lag s t ->
    rel (regexp_loop fs in_comment was) (regexp_loop ft in_comment was) s t
        (fun _ s' _ t' => sim s' t').
Proof.
  induction ft as [|n IH]; intros fs in_comment was s t Hm.
  { apply rel_timeout_r. }
  destruct Hm as [Hm|Hm].
  - destruct fs as [|m]; [apply rel_timeout_l|].
    cbn [regexp_loop]. cbv zeta.
    repeat (rel_step
            || (eapply rel_bind;
                [apply regexp_set_sim; left; assumption|];
                cbv beta; intros ? ? ? ? ?; tests));
      rel_close IH.
  - destruct (lag_get true s t Hm) as (t' & G & Hs & _).
    eapply rel_rewrite_r; [apply regexp_loop_LF; eassumption|].
    apply IH; auto.
Qed.

Lemma regexp_sim fs ft in_comment s t :
  sim s t ->
  rel (regexp fs in_comment) (regexp ft in_comment) s t
      (fun _ s' _ t' => sim s' t').
Proof.
  intros Hs.
  change (rel (regexp_loop fs in_comment (line_nr s))
              (regexp_loop ft in_comment (line_nr t)) s t
              (fun _ s' _ t' => sim s' t')).
  rewrite <- (sim_line s t Hs). apply regexp_loop_sim; auto.
Qed.

(** A call of a literal scanner by two runs in [sim]. *)
Ltac rel_call :=
  lazymatch goal with
  | |- rel (bind (string _ _ _) _) (bind (string _ _ _) _) _ _ _ =>
      eapply rel_bind;
      [apply string_sim; [apply is_quote_above; assumption | assumption]|];
      cbv beta; intros ? ? ? ? ?; tests
  | |- rel (bind (regexp _ _) _) (bind (regexp _ _) _) _ _ _ =>
      eapply rel_bind; [apply regexp_sim; assumption|];
      cbv beta; intros ? ? ? ? ?; tests
  end.

Lemma condition_loop_LF n left paren t t' :
  get true t = Ok LF t' ->
  condition_loop (S n) left paren t = condition_loop n left paren t'.
Proof.
  intros G. cbn [condition_loop]. unfold bind at 1. rewrite G.
  cbv zeta. tests. unfold bind, ret, andM. tests. reflexivity.
Qed.

Lemma condition_loop_sim ft :
  forall fs left paren s t,
    sim s t \/ lag s t ->
    rel (condition_loop fs left paren) (condition_loop ft left paren) s t
        (fun _ s' _ t' => sim s' t').
Proof.
  induction ft as [|n IH]; intros fs left paren s t Hm.
  { apply rel_timeout_r. }
  destruct Hm as [Hm|Hm].
  - destruct fs as [|m]; [apply rel_timeout_l|].
    cbn [condition_loop]. cbv zeta.
    repeat (rel_step || rel_call); rel_close IH.
  - destruct (lag_get true s t Hm) as (t' & G & Hs & _).
    eapply rel_rewrite_r; [apply condition_loop_LF; eassumption|].
    apply IH; auto.
Qed.

Lemma line_comment_sim ft :
  forall fs s t,
    sim s t ->
    rel (line_comment fs) (line_comment ft) s t
        (fun _ s' _ t' => sim s' t' \/ lag s' t').
Proof.
  induction ft as [|n IH]; intros fs s t Hm.
  { apply rel_timeout_r. }
  destruct fs as [|m]; [apply rel_timeout_l|].
  cbn [line_comment].
  repeat rel_step; auto; rel_close IH.
Qed.

Lemma skip_spaces_sim ft :
  forall fs s t,
    sim s t ->
    rel (skip_spaces fs) (skip_spaces ft) s t
        (fun _ s' _ t' => sim s' t').
Proof.
  induction ft as [|n IH]; intros fs s t Hm.
  { apply rel_timeout_r. }
  destruct fs as [|m]; [apply rel_timeout_l|].
  cbn [skip_spaces].
  repeat rel_step; auto; rel_close IH.
Qed.

(** ** The body of a tagged comment, read by the two runs *)

Lemma rel_timeout_right {A B} (m1 : M A) (m2 : M B) s t
  (Q : A -> state -> B -> state -> Prop) :
  m2 t = Timeout -> rel m1 m2 s t Q.
Proof. unfold rel. intros ->. destruct (m1 s); exact I. Qed.

Lemma stuff_stars_sim ft :
  forall fs paren s t,
    sim s t ->
    rel (stuff_stars fs paren) (stuff_stars ft paren) s t
        (fun b s' b' t' => b' = b /\ sim s' t').
Proof.
  induction ft as [|n IH]; intros fs paren s t Hm.
  { apply rel_timeout_r. }
  destruct fs as [|m]; [apply rel_timeout_l|].
  cbn [stuff_stars].
  repeat rel_step; try split; rel_close IH.
Qed.

Lemma stuff_iter_sim fs ft left paren s t :
  sim s t ->
  rel (stuff_iter fs left paren) (stuff_iter ft left paren) s t
      (fun r s' r' t' =>
         r' = r /\
         match r with
         | None => sim s' t'
         | Some _ => sim s' t' \/ lag s' t'
         end).
Proof.
  intros Hm. unfold stuff_iter.
  eapply rel_bind; [apply stuff_stars_sim; assumption|].
  cbv beta. intros b s' b' t' [-> Hs].
  destruct b.
  { apply rel_ret. auto. }
  cbv zeta.
  repeat (rel_step || rel_call); try split; auto;
    try solve [exfalso; zb; first [discriminate | lia | congruence]];
    rel_close stuff_stars_sim.
Qed.

(** A turn of the loop of [stuff] at the line feed of a pair. *)
Lemma stuff_loop_LF s t :
  lag s t ->
  exists t', sim s t' /\
    forall n left paren,
      stuff_loop (S (S n)) left paren t = stuff_loop (S n) left paren t'.
Proof.
  intros Hm.
  destruct (lag_peek_is STAR s t) as (t1 & P & H1); [lia|assumption|].
  destruct (lag_get true s t1 H1) as (t' & G & Hs & _).
  exists t'. split; [assumption|]. intros n left paren.
  cbn [stuff_loop]. unfold stuff_iter. cbn [stuff_stars].
  unfold bind at 1. unfold bind at 1. unfold bind at 1. rewrite P.
  unfold ret at 1. cbv iota. unfold bind at 1. rewrite G.
  cbv zeta. tests. unfold ret. reflexivity.
Qed.

Lemma stuff_loop_sim ft :
  forall fs left paren s t,
    sim s t \/ lag s t ->
    rel (stuff_loop fs left paren) (stuff_loop ft left paren) s t
        (fun _ s' _ t' => sim s' t').
Proof.
  induction ft as [|n IH]; intros fs left paren s t Hm.
  { apply rel_timeout_r. }
  destruct Hm as [Hm|Hm].
  - destruct fs as [|m]; [apply rel_timeout_l|].
    cbn [stuff_loop].
    eapply rel_bind; [apply stuff_iter_sim; assumption|].
    cbv beta. intros r s' r' t' [-> Hs].
    destruct r as [[l p]|]; [|apply rel_ret; assumption].
    apply IH. assumption.
  - destruct n as [|n].
    { apply rel_timeout_right. reflexivity. }
    destruct (stuff_loop_LF s t Hm) as (t' & Hs & E).
    eapply rel_rewrite_r; [apply E|].
    apply IH. auto.
Qed.

Lemma stuff_sim fs ft s t :
  sim s t ->
  rel (stuff fs) (stuff ft) s t (fun _ s' _ t' => sim s' t').
Proof.
  intros Hm. unfold stuff.
  eapply rel_bind; [apply skip_spaces_sim; assumption|].
  cbv beta. intros _ s' _ t' Hs.
  apply stuff_loop_sim. auto.
Qed.

Lemma condition_sim fs ft s t :
  sim s t ->
  rel (condition fs) (condition ft) s t (fun _ s' _ t' => sim s' t').
Proof.
  intros Hm. unfold condition. apply condition_loop_sim. auto.
Qed.

Lemma bind_peek_is {A} ch (k : bool -> M A) s :
  bind peek (fun c => k (c =? ch)) s = bind (peek_is ch) k s.
Proof.
  unfold peek_is, bind, ret. destruct (peek s); reflexivity.
Qed.

(** [expand] tests the character that [peek] returns. *)
Lemma expand_eq fuel reg tag_nr s :
  expand fuel reg tag_nr s =
  (b <- peek_is LPAREN ;;
   (if b
    then emits (bytes "if ") ;;; condition fuel ;;; emit SPACE ;;; ret tt
    else ret tt) ;;;
   emit LBRACE ;;;
   match method_of reg tag_nr with
   | [] => stuff fuel ;;; emit RBRACE ;;; ret tt
   | m => emits m ;;; emit LPAREN ;;; stuff fuel ;;; emits (bytes ");}")
   end) s.
Proof.
  unfold expand.
  exact (bind_peek_is LPAREN
           (fun b =>
              (if b
               then emits (bytes "if ") ;;; condition fuel ;;; emit SPACE ;;;
                    ret tt
               else ret tt) ;;;
              emit LBRACE ;;;
              match method_of reg tag_nr with
              | [] => stuff fuel ;;; emit RBRACE ;;; ret tt
              | m => emits m ;;; emit LPAREN ;;; stuff fuel ;;;
                     emits (bytes ");}")
              end) s).
Qed.

Lemma rel_assoc {A B A' B' A2 B2} (m1 : M A) (m2 : M B)
  (k1 : A -> M A') (k2 : B -> M B') (h1 : A' -> M A2) (h2 : B' -> M B2)
  s t Q :
  rel (bind m1 (fun x => bind (k1 x) h1))
      (bind m2 (fun y => bind (k2 y) h2)) s t Q ->
  rel (bind (bind m1 k1) h1) (bind (bind m2 k2) h2) s t Q.
Proof.
  unfold rel, bind. destruct (m1 s); destruct (m2 t); auto.
Qed.

Ltac rel_call2 :=
  lazymatch goal with
  | |- rel (bind (bind _ _) _) (bind (bind _ _) _) _ _ _ =>
      apply rel_assoc; cbv beta
  | |- rel (bind (condition _) _) (bind (condition _) _) _ _ _ =>
      eapply rel_bind; [apply condition_sim; assumption|];
      cbv beta; intros ? ? ? ? ?
  | |- rel (bind (stuff _) _) (bind (stuff _) _) _ _ _ =>
      eapply rel_bind; [apply stuff_sim; assumption|];
      cbv beta; intros ? ? ? ? ?
  | |- rel (emits _) (emits _) _ _ _ => apply rel_modify
  end.

Lemma expand_sim fs ft reg tag_nr s t :
  sim s t ->
  rel (expand fs reg tag_nr) (expand ft reg tag_nr) s t
      (fun _ s' _ t' => sim s' t').
Proof.
  intros Hm. unfold rel. rewrite !expand_eq. fold (rel
    (b <- peek_is LPAREN ;;
     (if b
      then emits (bytes "if ") ;;; condition fs ;;; emit SPACE ;;; ret tt
      else ret tt) ;;;
     emit LBRACE ;;;
     match method_of reg tag_nr with
     | [] => stuff fs ;;; emit RBRACE ;;; ret tt
     | m => emits m ;;; emit LPAREN ;;; stuff fs ;;; emits (bytes ");}")
     end)
    (b <- peek_is LPAREN ;;
     (if b
      then emits (bytes "if ") ;;; condition ft ;;; emit SPACE ;;; ret tt
      else ret tt) ;;;
     emit LBRACE ;;;
     match method_of reg tag_nr with
     | [] => stuff ft ;;; emit RBRACE ;;; ret tt
     | m => emits m ;;; emit LPAREN ;;; stuff ft ;;; emits (bytes ");}")
     end) s t (fun _ s' _ t' => sim s' t')).
  rel_step;
  destruct (method_of reg tag_nr) as [|a m];
    repeat (rel_step || rel_call2);
    first [apply sim_emitted | apply sim_write]; assumption.
Qed.

(** ** The driver, read by the two runs *)

Lemma got_hand c s c' t : got c s c' t -> hand c s c' t.
Proof.
  intros (_ & _ & [(-> & -> & H)|[(_ & _ & _ & -> & H)|(-> & -> & H)]]).
  - left. split; [left; reflexivity | assumption].
  - left. split; [left; reflexivity | assumption].
  - right. left. auto.
Qed.

Lemma got_behind echo echo' s0 t c s :
  sim s0 t -> get echo s0 = Ok c s ->
  exists c' t', get echo' t = Ok c' t' /\ got c s c' t'.
Proof.
  intros Hm G. pose proof (rel_get echo echo' s0 t Hm) as R.
  destruct (get_spec echo' t) as (c' & t' & G' & _).
  unfold rel in R. rewrite G, G' in R. eauto.
Qed.

Lemma rel_get_lag echo echo' s t :
  lag s t -> rel (get echo) (get echo') s t hand.
Proof.
  intros Hm. destruct (lag_get echo' s t Hm) as (t' & G' & Hs & _).
  destruct (get_spec echo s) as (c & s' & G & _).
  unfold rel. rewrite G, G'. right. right. split; [reflexivity|].
  exists s, echo. auto.
Qed.

(** [unget] after [get]: the two runs are at the same place again. *)
Lemma unget_got c s c' t :
  got c s c' t -> chr c c' /\ sim (set_preview c s) (set_preview c' t).
Proof.
  intros (P & P' & [(-> & -> & H)|[(Hc & Hlf & Hcr & -> & H)|(-> & -> & H)]]).
  - split; [left; reflexivity|].
    destruct H as (C & N & L & S). unfold sim, ahead in *.
    rewrite P, P' in *. simpl in *. splits; auto. rewrite S. reflexivity.
  - split; [left; reflexivity|].
    destruct H as (C & N & L & S). unfold sim, ahead in *.
    rewrite P, P' in *. simpl in *.
    replace (c =? 0) with false by (symmetry; apply Z.eqb_neq; lia).
    simpl. splits; auto.
    + apply nocr_intro; assumption.
    + replace (c =? 10) with false by (symmetry; apply Z.eqb_neq; lia).
      rewrite S. reflexivity.
  - split; [right; auto|].
    destruct H as (C & N & L & C' & S). unfold sim, ahead in *.
    rewrite P, P' in *. simpl in *. splits; auto. rewrite S. reflexivity.
Qed.

Lemma read_tag_sim n :
  forall tag c c' s t,
    got c s c' t -> sim s t ->
    rel (read_tag n tag c) (read_tag n tag c') s t
        (fun r s' r' t' => fst r' = fst r /\ got (snd r) s' (snd r') t').
Proof.
  induction n as [|n IH]; intros tag c c' s t Hg Hm.
  { apply rel_ret. auto. }
  cbn [read_tag].
  eapply rel_bind; [apply rel_get; eassumption|].
  cbv beta. intros c1 s1 c1' t1 G.
  pose proof G as G0.
  destruct G as
    (? & ? & [(-> & -> & ?)|[(? & ? & ? & -> & ?)|(-> & -> & ?)]]);
    tests.
  - apply rel_ret. auto.
  - destruct (is_alphanum c1).
    + apply IH; assumption.
    + apply rel_ret. auto.
  - apply rel_ret. auto.
Qed.

Lemma candidate_sim c s t :
  0 < c -> c <> LF -> c <> CR ->
  sim s t -> head_is s STAR ->
  rel (candidate c) (candidate c) s t
      (fun r s' r' t' =>
         fst r' = fst r /\ chr (snd r) (snd r') /\ sim s' t').
Proof.
  intros H1 H2 H3 Hm Hh. unfold candidate.
  eapply rel_bind; [apply rel_get_head; eassumption|].
  cbv beta. intros c1 s1 c1' t1 [G Hc].
  unfold head_is in *.
  assert (Hs : sim s1 t1).
  { destruct G as
      (? & ? & [(-> & -> & ?)|[(? & ? & ? & -> & ?)|(-> & -> & ?)]]);
      try assumption.
    exfalso. congruence. }
  destruct G as (P & P' & _).
  eapply rel_bind.
  { apply read_tag_sim; [|eassumption].
    unfold got. splits; auto. right. left. splits; auto. }
  cbv beta. intros r s' r' t' [E G].
  unfold unget. apply rel_bind_modify. apply rel_ret.
  destruct (unget_got _ _ _ _ G). auto.
Qed.

Ltac hand_tac :=
  first [ assumption
        | apply got_hand; assumption
        | left; split; [left; reflexivity | assumption]
        | left; split; [right; split; reflexivity | assumption]
        | right; left; splits; auto; fail
        | apply got_hand; unfold got; splits; auto; fail ].

(** A turn of the loop of an unmatched comment with a line feed in hand. *)
Lemma echo_comment_LF n t c t' :
  get true t = Ok c t' -> echo_comment (S n) LF t = echo_comment n c t'.
Proof.
  intros G. cbn [echo_comment]. tests. unfold bind. rewrite G. reflexivity.
Qed.

Lemma echo_comment_sim ft :
  forall fs c c' s t,
    hand c s c' t ->
    rel (echo_comment fs c) (echo_comment ft c') s t
        (fun _ s' _ t' => sim s' t').
Proof.
  induction ft as [|n IH]; intros fs c c' s t Hh.
  { apply rel_timeout_r. }
  destruct Hh as [[Hc Hm]|[(-> & -> & Hm)|(-> & s0 & echo & Hm & G)]].
  - destruct fs as [|m]; [apply rel_timeout_l|].
    cbn [echo_comment].
    destruct Hc as [->|[-> ->]]; tests;
      repeat rel_step;
      first [ rel_close IH | apply IH; hand_tac ].
  - destruct fs as [|m]; [apply rel_timeout_l|].
    cbn [echo_comment]. tests.
    eapply rel_bind; [apply rel_get_lag; assumption|].
    cbv beta. intros c1 s1 c1' t1 H. apply IH. assumption.
  - destruct (got_behind echo true s0 t c s Hm G) as (c1 & t1 & G' & Hg).
    eapply rel_rewrite_r; [apply echo_comment_LF; eassumption|].
    apply IH. apply got_hand. assumption.
Qed.

Lemma rel_get_hand echo echo' s t :
  sim s t -> rel (get echo) (get echo') s t hand.
Proof.
  intros Hm. eapply rel_mono; [apply rel_get; eassumption|].
  intros c s' c' t'. apply got_hand.
Qed.

Lemma block_comment_sim fs ft reg c s t :
  0 < c -> c <> LF -> c <> CR ->
  sim s t -> head_is s STAR ->
  rel (block_comment fs reg c) (block_comment ft reg c) s t hand.
Proof.
  intros H1 H2 H3 Hm Hh. unfold block_comment.
  eapply rel_bind; [apply candidate_sim; assumption|].
  cbv beta. intros [tag c1] s' [tag' c1'] t' (E & Hc & Hs).
  cbn [fst snd] in *. subst tag'. cbv zeta.
  destruct (0 <=? (if (length tag =? 0)%nat then -1 else match_ tag reg)).
  - eapply rel_bind; [apply expand_sim; assumption|].
    cbv beta. intros _ s1 _ t1 Hs1. apply rel_get_hand. assumption.
  - apply rel_bind_modify. apply rel_bind_modify.
    eapply rel_bind.
    { apply echo_comment_sim. left. split; [assumption|].
      apply sim_write, sim_write. assumption. }
    cbv beta. intros _ s1 _ t1 Hs1. apply rel_get_hand. assumption.
Qed.

Lemma lone_slash_sim fs ft left s t :
  sim s t ->
  rel (lone_slash fs left) (lone_slash ft left) s t hand.
Proof.
  intros Hm. unfold lone_slash.
  apply rel_bind_emit.
  apply (sim_emitted SLASH SLASH) in Hm.
  destruct (pre_regexp left).
  - eapply rel_bind; [apply regexp_sim; assumption|].
    cbv beta. intros _ s1 _ t1 Hs1. apply rel_get_hand. assumption.
  - apply rel_bind_ret. apply rel_get_hand. assumption.
Qed.

Lemma process_step_sim fs ft reg c c' left s t :
  (chr c c' /\ sim s t) \/ (c = LF /\ c' = CR /\ lag s t) ->
  rel (process_step fs reg c left) (process_step ft reg c' left) s t turn.
Proof.
  intros [[Hc Hm]|(-> & -> & Hm)].
  - unfold process_step. destruct Hc as [->|[-> ->]]; tests.
    + destruct (Z.eqb_spec c EOF) as [E|E]; [apply rel_ret; exact I|].
      destruct (is_quote c) eqn:Q.
      { apply rel_bind_emit. apply (sim_emitted c c) in Hm.
        eapply rel_bind;
          [apply string_sim; [apply is_quote_above; assumption | auto]|].
        cbv beta. intros _ s1 _ t1 Hs1. apply rel_ret.
        split; [reflexivity|]. left. split; [left; reflexivity|assumption]. }
      destruct (Z.eqb_spec c SLASH) as [S|S].
      * subst c.
        eapply rel_bind; [apply rel_peek_is; [lia | lia | lia | assumption]|].
        cbv beta. intros b s1 b' t1 (-> & Hs1 & Hb).
        destruct b.
        { apply rel_bind_emit. apply (sim_emitted SLASH SLASH) in Hs1.
          eapply rel_bind; [apply line_comment_sim; assumption|].
          cbv beta. intros _ s2 _ t2 [Hs2|Hs2].
          - eapply rel_bind; [apply rel_get_hand; assumption|].
            cbv beta. intros c1 s3 c1' t3 Hh. apply rel_ret.
            split; [reflexivity | assumption].
          - eapply rel_bind; [apply rel_get_lag; assumption|].
            cbv beta. intros c1 s3 c1' t3 Hh. apply rel_ret.
            split; [reflexivity | assumption]. }
        eapply rel_bind; [apply rel_peek_is; [lia | lia | lia | assumption]|].
        cbv beta. intros b2 s2 b2' t2 (-> & Hs2 & Hb2).
        destruct b2.
        { eapply rel_bind.
          - apply block_comment_sim; try lia; try assumption.
            apply Hb2. reflexivity.
          - cbv beta. intros c1 s3 c1' t3 Hh. apply rel_ret.
            split; [reflexivity | assumption]. }
        eapply rel_bind; [apply lone_slash_sim; assumption|].
        cbv beta. intros c1 s3 c1' t3 Hh. apply rel_ret.
        split; [reflexivity | assumption].
      * apply rel_bind_emit. apply (sim_emitted c c) in Hm.
        eapply rel_bind; [apply rel_get_hand; assumption|].
        cbv beta. intros c1 s3 c1' t3 Hh. apply rel_ret.
        split; [reflexivity | assumption].
    + apply rel_bind_emit. apply (sim_emitted LF CR) in Hm.
      eapply rel_bind; [apply rel_get_hand; assumption|].
      cbv beta. intros c1 s3 c1' t3 Hh. apply rel_ret.
      split; [reflexivity | assumption].
  - unfold process_step. tests.
    apply rel_bind_emit. apply (lag_emitted LF CR) in Hm.
    eapply rel_bind; [apply rel_get_lag; assumption|].
    cbv beta. intros c1 s3 c1' t3 Hh. apply rel_ret.
    split; [reflexivity | assumption].
Qed.

(** A turn of the loop of [process] with the line feed of a pair in hand. *)
Lemma process_loop_LF n reg left t c t' :
  get false (emitted LF t) = Ok c t' ->
  process_loop (S n) reg LF left t = process_loop n reg c left t'.
Proof.
  intros G. cbn [process_loop]. unfold process_step. tests.
  unfold bind at 1. unfold bind at 1. unfold emit. tests.
  change (write [LF] t) with (emitted LF t).
  unfold bind at 1. rewrite G. reflexivity.
Qed.

Lemma process_loop_sim reg ft :
  forall fs c c' left s t,
    hand c s c' t ->
    rel (process_loop fs reg c left) (process_loop ft reg c' left) s t
        (fun _ _ _ _ => True).
Proof.
  induction ft as [|n IH]; intros fs c c' left s t Hh.
  { apply rel_timeout_r. }
  destruct Hh as [Hh|[Hh|(-> & s0 & echo & Hm & G)]].
  - destruct fs as [|m]; [apply rel_timeout_l|].
    cbn [process_loop].
    eapply rel_bind; [apply process_step_sim; left; exact Hh|].
    cbv beta. intros [[c1 l1]|] s1 [[c1' l1']|] t1 H;
      try contradiction.
    + destruct H as [-> H]. apply IH. assumption.
    + apply rel_ret. exact I.
  - destruct fs as [|m]; [apply rel_timeout_l|].
    cbn [process_loop].
    eapply rel_bind; [apply process_step_sim; right; exact Hh|].
    cbv beta. intros [[c1 l1]|] s1 [[c1' l1']|] t1 H;
      try contradiction.
    + destruct H as [-> H]. apply IH. assumption.
    + apply rel_ret. exact I.
  - apply (sim_emitted 0 LF) in Hm.
    destruct (got_behind echo false s0 (emitted LF t) c s Hm G)
      as (c1 & t1 & G' & Hg).
    eapply rel_rewrite_r; [apply process_loop_LF; eassumption|].
    apply IH. apply got_hand. assumption.
Qed.

Lemma process_sim fs ft reg s t :
  sim s t ->
  rel (process fs reg) (process ft reg) s t (fun _ _ _ _ => True).
Proof.
  intros Hm. unfold process. apply rel_bind_modify.
  apply (sim_set_line_nr 1) in Hm.
  eapply rel_bind; [apply rel_get_hand; assumption|].
  cbv beta. intros c s1 c' t1 Hh. apply process_loop_sim. assumption.
Qed.

(** Two results with the same diagnostic. *)
Lemma rel_diagnostic {A B} (m1 : M A) (m2 : M B) s t Q :
  rel m1 m2 s t Q -> m1 s <> Timeout -> m2 t <> Timeout ->
  diagnostic (m2 t) = diagnostic (m1 s).
Proof.
  unfold rel. destruct (m1 s) as [a s'|msg s'|];
    destruct (m2 t) as [b t'|msg' t'|]; intros H H1 H2;
    try contradiction; try congruence; try reflexivity.
  destruct H as [-> E]. unfold diagnostic. rewrite E. reflexivity.
Qed.

Lemma run_crlf reg stdin :
  nocr stdin ->
  diagnostic (run reg (crlf stdin)) = diagnostic (run reg stdin).
Proof.
  intros N. unfold run.
  eapply rel_diagnostic.
  - apply process_sim, sim_initial; assumption.
  - apply (run_total reg stdin).
  - apply (run_total reg (crlf stdin)).
Qed.

(** ** The method line and the line endings *)

(** [declare] does not read the state. *)
Lemma declare_pure arg c :
  exists x : (list Z * list Z * Z) + String.string,
    forall s, declare arg c s =
              match x with inl v => Ok v s | inr msg => Fail msg s end.
Proof.
  unfold declare.
  destruct (scan_name MAX_TAG_LENGTH arg c) as [[tag c1] r].
  destruct (length tag =? 0)%nat.
  { exists (inr (text arg)). reflexivity. }
  destruct (c1 =? 0).
  { exists (inl (tag, [], c1)). reflexivity. }
  destruct (c1 =? COLON).
  - destruct (scan_name MAX_TAG_LENGTH (tl r) c1) as [[method c2] r2].
    destruct ((length method =? 0)%nat || negb (c2 =? 0)).
    + exists (inr (text arg)). reflexivity.
    + exists (inl (tag, method, c2)). reflexivity.
  - exists (inr (text arg)). reflexivity.
Qed.

Lemma configure_sim argv :
  forall comment c reg s t,
    sim s t ->
    rel (configure argv comment c reg) (configure argv comment c reg) s t
        (fun r s' r' t' => r' = r /\ sim s' t').
Proof.
  induction argv as [|arg argv IH]; intros comment c reg s t Hm.
  { apply rel_ret. auto. }
  cbn [configure]. destruct comment.
  - apply rel_bind_modify, rel_bind_modify, rel_bind_emit.
    apply IH, sim_emitted, sim_write, sim_write. assumption.
  - destruct (str_eqb arg (bytes "-comment")); [apply IH; assumption|].
    destruct (declare_pure arg c) as [x Hx].
    unfold rel, bind. rewrite !Hx.
    destruct x as [[[tag method] c1]|msg].
    + exact (IH false c1 (reg ++ [(tag, method)]) s t Hm).
    + split; [reflexivity | apply sim_line; assumption].
Qed.

Lemma configure_total argv :
  forall comment c reg s,
    wp (configure argv comment c reg) s
       (fun _ s' => mu s' = mu s) (fun _ _ => True) False.
Proof.
  induction argv as [|arg argv IH]; intros comment c reg s.
  { exact eq_refl. }
  cbn [configure]. destruct comment.
  - exact (IH false c reg _).
  - destruct (str_eqb arg (bytes "-comment")); [apply IH|].
    destruct (declare_pure arg c) as [x Hx].
    unfold wp, bind. rewrite Hx.
    destruct x as [[[tag method] c1]|msg]; [|exact I].
    exact (IH false c1 (reg ++ [(tag, method)]) s).
Qed.

(** The fuel of [jsdev] is enough on every command line and input. *)
Lemma jsdev_total argv stdin : jsdev argv stdin <> Timeout.
Proof.
  unfold jsdev, main. eapply wp_total. apply wp_bind.
  eapply wp_mono; [apply configure_total | | |].
  - cbv beta. intros reg s' E. apply process_total.
    rewrite E. unfold mu, stream, initial. simpl. lia.
  - intros msg s' H. exact H.
  - intros H. exact H.
Qed.

Lemma main_sim fs ft argv s t :
  sim s t ->
  rel (main fs argv) (main ft argv) s t (fun _ _ _ _ => True).
Proof.
  intros Hm. unfold main.
  eapply rel_bind; [apply configure_sim; eassumption|].
  cbv beta. intros reg s' reg' t' [-> Hs]. apply process_sim. assumption.
Qed.

(** * Runs on a known text *)

Lemma wp_fails {A} (m : M A) s (E : String.string -> state -> Prop) :
  wp m s (fun _ _ => False) E False ->
  exists msg s', m s = Fail msg s' /\ E msg s'.
Proof.
  unfold wp. destruct (m s) as [a s'|msg s'|]; try contradiction.
  intros H. exists msg, s'. auto.
Qed.

Lemma wp_true {A} (m : M A) s :
  wp m s (fun _ _ => True) (fun _ _ => True) True.
Proof. unfold wp. destruct (m s); exact I. Qed.

Lemma wp_returns {A} (m : M A) s (Q : A -> state -> Prop) :
  wp m s Q (fun _ _ => False) False ->
  exists a s', m s = Ok a s' /\ Q a s'.
Proof.
  unfold wp. destruct (m s) as [a s'|msg s'|]; try contradiction.
  intros H. exists a, s'. auto.
Qed.

(** [get] on a text state whose stream is known. *)
Lemma wp_get_cons (echo : bool) s c r (Q : Z -> state -> Prop) E T :
  wf s -> stream s = c :: r ->
  (forall s', wf s' -> preview s' = 0 -> stream s' = r ->
              out s' = out s ++ (if echo then [c] else []) ->
              line_nr s' = line_nr s + tick c (cr s) ->
              Q c s') ->
  wp (get echo) s Q E T.
Proof.
  intros W Hs H.
  destruct (get_text_eq echo s c r W Hs) as (s1 & G & W1 & P1 & S1 & O1 & L1).
  unfold wp. rewrite G. apply H; assumption.
Qed.

(** Two facts about one run. *)
Lemma wp_conj {A} (m : M A) s (Q1 Q2 : A -> state -> Prop)
  (E1 E2 : String.string -> state -> Prop) (T1 T2 : Prop) :
  wp m s Q1 E1 T1 -> wp m s Q2 E2 T2 ->
  wp m s (fun a s' => Q1 a s' /\ Q2 a s')
         (fun msg s' => E1 msg s' /\ E2 msg s') (T1 /\ T2).
Proof. unfold wp. destruct (m s); auto. Qed.

Lemma counted_inv c :
  counted c = true ->
  0 < c /\ (c =? EOF) = false /\ is_quote c = false /\ (c =? SLASH) = false.
Proof.
  unfold counted. intros H.
  apply andb_true_iff in H. destruct H as [H H3].
  apply andb_true_iff in H. destruct H as [H1 H2].
  apply Z.ltb_lt in H1. apply negb_true_iff in H2, H3.
  splits; auto. apply Z.eqb_neq. lia.
Qed.

Lemma depth_stars d k l : depth d (repeat STAR k ++ l) = depth d l.
Proof. induction k as [|k IH]; [reflexivity|]. exact IH. Qed.

Lemma depth_app d w l :
  depth d (w ++ l)
  = match depth d w with Some e => depth e l | None => None end.
Proof.
  revert d. induction w as [|c w IH]; intros d; [reflexivity|].
  cbn [app depth].
  destruct (is_open c); [apply IH|].
  destruct (is_close c); [|apply IH].
  destruct (d - 1 <? 0); [reflexivity | apply IH].
Qed.

Lemma is_close_inv c :
  is_close c = true -> c = RPAREN \/ c = RBRACE \/ c = RBRACKET.
Proof.
  unfold is_close. intros H.
  apply orb_true_iff in H. destruct H as [H|H];
    [apply orb_true_iff in H; destruct H as [H|H]|];
    apply Z.eqb_eq in H; auto.
Qed.

Lemma depth_close c l : is_close c = true -> depth 0 (c :: l) = None.
Proof.
  intros H. cbn [depth]. rewrite H.
  destruct (is_close_inv c H) as [->|[->| ->]]; reflexivity.
Qed.

Lemma depth_nonneg l : forall d e, 0 <= d -> depth d l = Some e -> 0 <= e.
Proof.
  induction l as [|c l IH]; intros d e Hd; cbn [depth].
  - intros H. injection H as <-. assumption.
  - destruct (is_open c); [apply IH; lia|].
    destruct (is_close c); [|apply IH; assumption].
    destruct (Z.ltb_spec (d - 1) 0); [discriminate|]. apply IH. lia.
Qed.

Lemma hd_counted r l : forallb counted r = true ->
  (hd EOF (r ++ STAR :: l) =? SLASH) = false.
Proof.
  destruct r as [|c r]; [reflexivity|].
  cbn [forallb app hd]. intros H. apply andb_true_iff in H.
  destruct H as [H _]. apply counted_inv in H. apply H.
Qed.

Lemma forallb_repeat_app {A} (f : A -> bool) a k l :
  forallb f (repeat a k ++ l) = true -> forallb f l = true.
Proof.
  rewrite forallb_app. intros H. apply andb_true_iff in H. apply H.
Qed.

(** The stars at the head of the body: [stuff_stars] writes them and
    stops at the first character that is not a star, or at the end of the
    comment, where a depth above 0 is an error. *)
Lemma stuff_stars_run fuel paren s body rest :
  wf s -> stream s = body ++ STAR :: SLASH :: rest ->
  forallb counted body = true -> (length body < fuel)%nat ->
  wp (stuff_stars fuel paren) s
     (fun b s' =>
        wf s' /\
        exists k body',
          body = repeat STAR k ++ body' /\ out s' = out s ++ repeat STAR k /\
          if b then body' = [] /\ stream s' = rest /\ paren <= 0 /\
                    preview s' = 0
          else stream s' = body' ++ STAR :: SLASH :: rest /\
               exists c r, body' = c :: r /\ c <> STAR)
     (fun msg s' =>
        msg = "Unbalanced stuff" /\ 0 < paren /\
        (exists k, body = repeat STAR k) /\
        out s' = out s ++ body /\ stream s' = rest)
     False.
Proof.
  revert s body.
  induction fuel as [|fuel IH]; intros s body W Hs Hb Hf; [lia|].
  cbn [stuff_stars].
  apply wp_bind, wp_peek_is_text; [assumption|].
  intros s1 W1 S1 O1 _ _. rewrite Hs.
  destruct body as [|c r].
  - (* the end of the comment *)
    cbn [app hd Z.eqb Pos.eqb].
    apply wp_bind. rewrite Hs in S1.
    apply (wp_get_cons false s1 STAR (SLASH :: rest)); [assumption..|].
    intros s2 W2 P2 S2 O2 _.
    apply wp_bind, wp_peek_is_text; [assumption|].
    intros s3 W3 S3 O3 _ _. rewrite S2. cbn [hd Z.eqb Pos.eqb].
    apply wp_bind. rewrite S2 in S3.
    apply (wp_get_cons false s3 SLASH rest); [assumption..|].
    intros s4 W4 P4 S4 O4 _.
    assert (Ho : out s4 = out s).
    { rewrite O4, O3, O2, O1, !app_nil_r. reflexivity. }
    destruct (Z.ltb_spec 0 paren).
    + apply wp_error. splits; auto.
      * exists O. reflexivity.
      * rewrite app_nil_r. assumption.
    + apply wp_ret. split; [assumption|].
      exists O, []. splits; auto. rewrite app_nil_r. assumption.
  - cbn [forallb] in Hb. apply andb_true_iff in Hb. destruct Hb as [Hc Hr].
    destruct (counted_inv c Hc) as (Hpos & Hne & Hnq & Hns).
    cbn [app hd]. cbn [app] in Hs. rewrite Hs in S1.
    destruct (Z.eqb_spec c STAR) as [->|Hstar].
    + (* a star of the body *)
      apply wp_bind.
      apply (wp_get_cons false s1 STAR (r ++ STAR :: SLASH :: rest));
        [assumption..|].
      intros s2 W2 P2 S2 O2 _.
      apply wp_bind, wp_peek_is_text; [assumption|].
      intros s3 W3 S3 O3 _ _. rewrite S2, (hd_counted r _ Hr).
      apply wp_bind, wp_emit.
      eapply wp_mono;
        [apply (IH (emitted STAR s3) r);
         [apply wf_emitted; assumption
         | autorewrite with cursor; congruence
         | assumption
         | cbn [length] in Hf; lia]
        | | | auto].
      * cbv beta. intros b s4 (W4 & k & body' & Hk & Ho & Hrest).
        split; [assumption|]. exists (S k), body'. splits.
        -- cbn [repeat app]. rewrite Hk at 1. reflexivity.
        -- rewrite Ho. autorewrite with cursor.
           rewrite O3, O2, O1, !app_nil_r. cbn [Z.ltb Z.compare].
           rewrite <- app_assoc. reflexivity.
        -- exact Hrest.
      * cbv beta. intros msg s4 (Hm & Hp & (k & Hk) & Ho & Hrest).
        splits; auto.
        -- exists (S k). cbn [repeat]. rewrite Hk at 1. reflexivity.
        -- rewrite Ho. autorewrite with cursor.
           rewrite O3, O2, O1, !app_nil_r. cbn [Z.ltb Z.compare].
           rewrite <- app_assoc. reflexivity.
    + (* another character *)
      apply wp_ret. split; [assumption|].
      exists O, (c :: r). splits.
      * reflexivity.
      * rewrite app_nil_r. assumption.
      * assumption.
      * exists c, r. auto.
Qed.

(** The loop of [stuff] on a body of counted characters: it ends at the
    end of the comment when the depth is 0 there, and fails with
    "Unbalanced stuff" at the first closing bracket read at the depth 0
    or at the end of the comment. *)
Lemma stuff_loop_run fuel :
  forall left d s body rest,
  wf s -> stream s = body ++ STAR :: SLASH :: rest ->
  forallb counted body = true -> 0 <= d ->
  (length body + 1 < fuel)%nat ->
  wp (stuff_loop fuel left d) s
     (fun _ s' =>
        depth d body = Some 0 /\ wf s' /\ preview s' = 0 /\
        stream s' = rest /\ out s' = out s ++ body)
     (fun msg s' =>
        msg = "Unbalanced stuff" /\
        ((exists w c r,
             body = w ++ c :: r /\ depth d w = Some 0 /\
             is_close c = true /\ out s' = out s ++ w ++ [c] /\
             stream s' = r ++ STAR :: SLASH :: rest) \/
         (exists e,
             depth d body = Some e /\ 0 < e /\
             out s' = out s ++ body /\ stream s' = rest)))
     False.
Proof.
  induction fuel as [|fuel IH]; intros left d s body rest W Hs Hb Hd Hf;
    [lia|].
  cbn [stuff_loop]. apply wp_bind. unfold stuff_iter. cbv zeta.
  apply wp_bind.
  eapply wp_mono;
    [apply (stuff_stars_run fuel d s body rest); [assumption..|lia]
    | | | auto].
  - cbv beta. intros b s1 (W1 & k & body' & Hk & O1 & H).
    destruct b.
    + (* the end of the comment *)
      destruct H as (-> & S1 & Hp & P1). rewrite app_nil_r in Hk.
      apply wp_ret. apply wp_ret. splits; auto.
      * rewrite Hk, <- (app_nil_r (repeat STAR k)), depth_stars.
        cbn [depth]. f_equal. lia.
      * rewrite O1, Hk. reflexivity.
    + destruct H as (S1 & c & r & -> & Hstar).
      pose proof Hb as Hcr. rewrite Hk in Hcr.
      apply forallb_repeat_app in Hcr.
      cbn [forallb] in Hcr. apply andb_true_iff in Hcr.
      destruct Hcr as [Hc Hr].
      destruct (counted_inv c Hc) as (Hpos & Hne & Hnq & Hns).
      apply wp_bind. cbn [app] in S1.
      apply (wp_get_cons true s1 c (r ++ STAR :: SLASH :: rest));
        [assumption..|].
      intros s2 W2 P2 S2 O2 _.
      rewrite Hne, Hnq, Hns.
      assert (Hlen : (length r + 1 < fuel)%nat).
      { rewrite Hk in Hf. rewrite length_app in Hf. cbn [length] in Hf.
        lia. }
      assert (Hout : out s2 = out s ++ repeat STAR k ++ [c]).
      { rewrite O2, O1, <- app_assoc. reflexivity. }
      assert (Hcont :
        forall left' d', 0 <= d' ->
          (forall l, depth d (c :: l) = depth d' l) ->
          wp (stuff_loop fuel left' d') s2
             (fun _ s' =>
                depth d body = Some 0 /\ wf s' /\ preview s' = 0 /\
                stream s' = rest /\ out s' = out s ++ body)
             (fun msg s' =>
                msg = "Unbalanced stuff" /\
                ((exists w c r,
                     body = w ++ c :: r /\ depth d w = Some 0 /\
                     is_close c = true /\ out s' = out s ++ w ++ [c] /\
                     stream s' = r ++ STAR :: SLASH :: rest) \/
                 (exists e,
                     depth d body = Some e /\ 0 < e /\
                     out s' = out s ++ body /\ stream s' = rest)))
             False).
      { intros left' d' Hd' Hstep.
        eapply wp_mono;
          [apply (IH left' d' s2 r rest); assumption | | | auto].
        - cbv beta. intros _ s3 (Ha & W3 & P3 & S3 & O3). splits; auto.
          + rewrite Hk, depth_stars, Hstep. assumption.
          + rewrite O3, Hout, Hk, <- !app_assoc. reflexivity.
        - cbv beta. intros msg s3 (Hm & Hcase). split; [assumption|].
          destruct Hcase as [(w & c0 & r0 & Hw & Hdw & Hc0 & Ho & Hst)
                            |(e & He & Hpe & Ho & Hst)].
          + left. exists (repeat STAR k ++ c :: w), c0, r0. splits; auto.
            * rewrite Hk, Hw, <- app_assoc. reflexivity.
            * rewrite depth_stars, Hstep. assumption.
            * rewrite Ho, Hout, <- !app_assoc. reflexivity.
          + right. exists e. splits; auto.
            * rewrite Hk, depth_stars, Hstep. assumption.
            * rewrite Ho, Hout, Hk, <- !app_assoc. reflexivity. }
      destruct (is_open c) eqn:Hopen.
      { apply wp_ret. apply Hcont; [lia|].
        intros l. cbn [depth]. rewrite Hopen. reflexivity. }
      destruct (is_close c) eqn:Hclose.
      { destruct (Z.ltb_spec (d - 1) 0) as [Hneg|Hok].
        - apply wp_error. split; [reflexivity|]. left.
          exists (repeat STAR k), c, r. splits; auto;
            first [ rewrite <- (app_nil_r (repeat STAR k)), depth_stars;
                    cbn [depth]; f_equal; lia
                  | rewrite Hout, <- app_assoc; reflexivity ].
        - apply wp_ret. apply Hcont; [lia|].
          intros l. cbn [depth]. rewrite Hopen, Hclose.
          replace (d - 1 <? 0) with false
            by (symmetry; apply Z.ltb_ge; lia).
          reflexivity. }
      apply wp_ret. apply Hcont; [lia|].
      intros l. cbn [depth]. rewrite Hopen, Hclose. reflexivity.
  - cbv beta. intros msg s1 (Hm & Hp & (k & Hk) & Ho & Hst).
    split; [assumption|]. right. exists d. splits; auto.
    rewrite Hk, <- (app_nil_r (repeat STAR k)), depth_stars. reflexivity.
Qed.

(** The spaces before the body. *)
Lemma skip_spaces_run fuel :
  forall s n l,
  wf s -> stream s = repeat SPACE n ++ l -> hd EOF l <> SPACE ->
  (n < fuel)%nat ->
  wp (skip_spaces fuel) s
     (fun _ s' => wf s' /\ stream s' = l /\ out s' = out s)
     (fun _ _ => False) False.
Proof.
  induction fuel as [|fuel IH]; intros s n l W Hs Hl Hf; [lia|].
  cbn [skip_spaces].
  apply wp_bind, wp_peek_is_text; [assumption|].
  intros s1 W1 S1 O1 _ _. rewrite Hs.
  destruct n as [|n]; cbn [repeat app hd].
  - replace (hd EOF l =? SPACE) with false
      by (symmetry; apply Z.eqb_neq; assumption).
    apply wp_ret. splits; auto. rewrite S1, Hs. reflexivity.
  - cbn [Z.eqb Pos.eqb]. apply wp_bind.
    rewrite Hs in S1. cbn [repeat app] in S1.
    apply (wp_get_cons false s1 SPACE (repeat SPACE n ++ l));
      [assumption..|].
    intros s2 W2 P2 S2 O2 _.
    eapply wp_mono; [apply (IH s2 n l); try assumption; lia | | auto | auto].
    cbv beta. intros _ s3 (W3 & S3 & O3). splits; auto.
    rewrite O3, O2, O1, app_nil_r. reflexivity.
Qed.

(** [stuff] on the spaces, a body of counted characters and the end of
    the comment. *)
Lemma stuff_run fuel s n body rest :
  wf s -> stream s = repeat SPACE n ++ body ++ STAR :: SLASH :: rest ->
  forallb counted body = true -> hd EOF (body ++ [STAR]) <> SPACE ->
  (length (stream s) <= fuel)%nat ->
  wp (stuff fuel) s
     (fun _ s' =>
        depth 0 body = Some 0 /\ wf s' /\ preview s' = 0 /\
        stream s' = rest /\ out s' = out s ++ body)
     (fun msg s' =>
        msg = "Unbalanced stuff" /\
        ((exists w c r,
             body = w ++ c :: r /\ depth 0 w = Some 0 /\
             is_close c = true /\ out s' = out s ++ w ++ [c] /\
             stream s' = r ++ STAR :: SLASH :: rest) \/
         (exists e,
             depth 0 body = Some e /\ 0 < e /\
             out s' = out s ++ body /\ stream s' = rest)))
     False.
Proof.
  intros W Hs Hb Hh Hf.
  assert (Hlen : (n + length body + 2 <= fuel)%nat).
  { rewrite Hs in Hf. rewrite !length_app, repeat_length in Hf.
    cbn [length] in Hf. lia. }
  unfold stuff. apply wp_bind.
  eapply wp_mono;
    [apply (skip_spaces_run fuel s n (body ++ STAR :: SLASH :: rest));
     [assumption | assumption | | lia]
    | | cbv beta; intros; contradiction | auto].
  - destruct body; [discriminate | exact Hh].
  - cbv beta. intros _ s1 (W1 & S1 & O1).
    rewrite <- O1.
    apply (stuff_loop_run fuel LBRACE 0 s1 body rest); auto; lia.
Qed.

Lemma quiet_inv c :
  quiet c = true ->
  counted c = true /\ is_open c = false /\ is_close c = false.
Proof.
  unfold quiet. intros H.
  apply andb_true_iff in H. destruct H as [H H3].
  apply andb_true_iff in H. destruct H as [H1 H2].
  apply negb_true_iff in H2, H3. auto.
Qed.

Lemma hd_quiet r l : forallb quiet r = true ->
  (hd EOF (r ++ RPAREN :: l) =? SLASH) = false.
Proof.
  destruct r as [|c r]; [reflexivity|].
  cbn [forallb app hd]. intros H. apply andb_true_iff in H.
  destruct H as [H _]. apply quiet_inv in H. destruct H as [H _].
  apply counted_inv in H. apply H.
Qed.

(** The loop of [condition] inside the parentheses, on quiet
    characters. *)
Lemma condition_loop_run fuel :
  forall left s inner rest,
  wf s -> stream s = inner ++ RPAREN :: rest ->
  forallb quiet inner = true -> (length inner < fuel)%nat ->
  wp (condition_loop fuel left 1) s
     (fun _ s' => wf s' /\ preview s' = 0 /\ stream s' = rest /\
                  out s' = out s ++ inner ++ [RPAREN])
     (fun _ _ => False) False.
Proof.
  induction fuel as [|fuel IH]; intros left s inner rest W Hs Hq Hf; [lia|].
  cbn [condition_loop]. cbv zeta. apply wp_bind.
  destruct inner as [|c r].
  - apply (wp_get_cons true s RPAREN rest); [assumption..|].
    intros s1 W1 P1 S1 O1 _.
    change (is_open RPAREN) with false. change (is_close RPAREN) with true.
    change (1 - 1 =? 0) with true. cbv iota.
    apply wp_ret. splits; auto.
  - cbn [forallb] in Hq. apply andb_true_iff in Hq. destruct Hq as [Hc Hr].
    destruct (quiet_inv c Hc) as (Hcc & Hno & Hnc).
    destruct (counted_inv c Hcc) as (Hpos & Hne & Hnq & Hns).
    apply (wp_get_cons true s c (r ++ RPAREN :: rest)); [assumption..|].
    intros s1 W1 P1 S1 O1 _.
    rewrite Hno, Hnc, Hne, Hnq, Hns.
    apply wp_bind.
    assert (Hnext : forall s2, wf s2 -> stream s2 = stream s1 ->
                               out s2 = out s1 ->
              wp (condition_loop fuel (if SPACE <? c then c else left) 1) s2
                 (fun _ s' => wf s' /\ preview s' = 0 /\ stream s' = rest /\
                              out s' = out s ++ (c :: r) ++ [RPAREN])
                 (fun _ _ => False) False).
    { intros s2 W2 S2 O2.
      eapply wp_mono;
        [apply (IH _ s2 r rest);
         [assumption | congruence | assumption | cbn [length] in Hf; lia]
        | | auto | auto].
      cbv beta. intros _ s3 (W3 & P3 & S3 & O3). splits; auto.
      rewrite O3, O2, O1, <- app_assoc. reflexivity. }
    unfold andM. destruct (c =? STAR).
    + apply wp_peek_is_text; [assumption|].
      intros s2 W2 S2 O2 _ _. rewrite S1, (hd_quiet r _ Hr).
      apply Hnext; assumption.
    + apply wp_ret. apply Hnext; auto.
Qed.

Lemma condition_run fuel s inner rest :
  wf s -> stream s = LPAREN :: inner ++ RPAREN :: rest ->
  forallb quiet inner = true -> (length inner + 1 < fuel)%nat ->
  wp (condition fuel) s
     (fun _ s' => wf s' /\ preview s' = 0 /\ stream s' = rest /\
                  out s' = out s ++ LPAREN :: inner ++ [RPAREN])
     (fun _ _ => False) False.
Proof.
  intros W Hs Hq Hf. unfold condition.
  destruct fuel as [|fuel]; [lia|].
  cbn [condition_loop]. cbv zeta. apply wp_bind.
  apply (wp_get_cons true s LPAREN (inner ++ RPAREN :: rest));
    [assumption..|].
  intros s1 W1 P1 S1 O1 _. cbn [is_open Z.eqb Pos.eqb orb Z.add Pos.add].
  eapply wp_mono;
    [apply (condition_loop_run fuel _ s1 inner rest);
     [assumption | assumption | assumption | lia]
    | | auto | auto].
  cbv beta. intros _ s2 (W2 & P2 & S2 & O2). splits; auto.
  rewrite O2, O1. cbn [app]. rewrite <- app_assoc. reflexivity.
Qed.

(** [stuff] on a body whose brackets are balanced. *)
Lemma stuff_ok fuel s n body rest :
  wf s -> stream s = repeat SPACE n ++ body ++ STAR :: SLASH :: rest ->
  forallb counted body = true -> hd EOF (body ++ [STAR]) <> SPACE ->
  depth 0 body = Some 0 ->
  (length (stream s) <= fuel)%nat ->
  wp (stuff fuel) s
     (fun _ s' => wf s' /\ preview s' = 0 /\ stream s' = rest /\
                  out s' = out s ++ body)
     (fun _ _ => False) False.
Proof.
  intros W Hs Hb Hh Hd Hf.
  eapply wp_mono; [apply (stuff_run fuel s n body rest); assumption
                  | | | auto].
  - cbv beta. intros _ s' (_ & H). exact H.
  - cbv beta. intros msg s' (_ & [(w & c & r & Hw & Hdw & Hc & _)
                                 |(e & He & Hpe & _)]).
    + rewrite Hw, depth_app, Hdw, (depth_close c r Hc) in Hd. discriminate.
    + rewrite He in Hd. injection Hd as ->. lia.
Qed.

Lemma hd_app_cons {A} (d a : A) (l l1 l2 : list A) :
  hd d (l ++ a :: l1) = hd d (l ++ a :: l2).
Proof. destruct l; reflexivity. Qed.

(** [expand] on an optional condition, spaces, a balanced body and the
    end of the comment. *)
Lemma expand_run fuel reg tag_nr s cond n body rest :
  wf s ->
  stream s = cond ++ repeat SPACE n ++ body ++ STAR :: SLASH :: rest ->
  conditional cond ->
  (cond = [] -> hd EOF (repeat SPACE n ++ body ++ [STAR]) <> LPAREN) ->
  forallb counted body = true -> hd EOF (body ++ [STAR]) <> SPACE ->
  depth 0 body = Some 0 ->
  (length (stream s) <= fuel)%nat ->
  wp (expand fuel reg tag_nr) s
     (fun _ s' => wf s' /\ preview s' = 0 /\ stream s' = rest /\
                  out s' =
                  out s ++ expansion cond (method_of reg tag_nr) body)
     (fun _ _ => False) False.
Proof.
  intros W Hs Hcond Hnc Hb Hh Hd Hf. unfold expand.
  apply wp_bind, wp_peek_text; [assumption|].
  intros s1 W1 S1 O1 _ _.
  (* the body and the closing text, from a state after the condition *)
  assert (Hbody : forall s2 pre,
            wf s2 ->
            stream s2 = repeat SPACE n ++ body ++ STAR :: SLASH :: rest ->
            out s2 = out s ++ pre ->
            wp (emit LBRACE ;;;
                match method_of reg tag_nr with
                | [] => stuff fuel ;;; emit RBRACE ;;; ret tt
                | m0 :: m =>
                    emits (m0 :: m) ;;; emit LPAREN ;;;
                    stuff fuel ;;; emits (bytes ");}")
                end) s2
               (fun _ s' =>
                  wf s' /\ preview s' = 0 /\ stream s' = rest /\
                  out s' =
                  out s ++ pre ++ [LBRACE] ++
                  match method_of reg tag_nr with
                  | [] => body ++ [RBRACE]
                  | _ => method_of reg tag_nr ++ [LPAREN] ++ body ++
                         bytes ");}"
                  end)
               (fun _ _ => False) False).
  { intros s2 pre W2 S2 O2.
    assert (Hf2 : (length (stream s2) <= fuel)%nat).
    { rewrite S2. rewrite Hs in Hf. rewrite length_app in Hf. lia. }
    apply wp_bind, wp_emit.
    destruct (method_of reg tag_nr) as [|m0 m] eqn:Hm.
    - apply wp_bind.
      eapply wp_mono;
        [apply (stuff_ok fuel (emitted LBRACE s2) n body rest);
         autorewrite with cursor; assumption
        | | auto | auto].
      cbv beta. intros _ s3 (W3 & P3 & S3 & O3).
      apply wp_bind, wp_emit. apply wp_ret.
      autorewrite with cursor in *. splits; auto.
      rewrite O3, O2. cbn [Z.ltb Z.compare].
      rewrite <- !app_assoc. reflexivity.
    - apply wp_bind, wp_modify. apply wp_bind, wp_emit. apply wp_bind.
      eapply wp_mono;
        [apply (stuff_ok fuel (emitted LPAREN (write (m0 :: m)
                                                 (emitted LBRACE s2)))
                  n body rest);
         autorewrite with cursor; assumption
        | | auto | auto].
      cbv beta. intros _ s3 (W3 & P3 & S3 & O3).
      apply wp_modify.
      autorewrite with cursor in *. splits; auto.
      rewrite O3, O2. cbn [Z.ltb Z.compare].
      rewrite <- !app_assoc. reflexivity. }
  destruct Hcond as [->|(inner & Hq & ->)].
  - (* without a condition *)
    cbn [app] in Hs.
    assert (Hp : (hd EOF (stream s) =? LPAREN) = false).
    { apply Z.eqb_neq. rewrite Hs.
      replace (repeat SPACE n ++ body ++ STAR :: SLASH :: rest)
        with ((repeat SPACE n ++ body) ++ STAR :: SLASH :: rest)
        by (rewrite <- app_assoc; reflexivity).
      rewrite (hd_app_cons EOF STAR _ _ []), <- app_assoc.
      apply Hnc. reflexivity. }
    rewrite Hp. apply wp_bind, wp_ret.
    eapply wp_mono;
      [apply (Hbody s1 []); [assumption | congruence
                            | rewrite app_nil_r; assumption]
      | | auto | auto].
    cbv beta. intros _ s2 (W2 & P2 & S2 & O2). splits; auto.
    rewrite O2, expansion_no_cond. reflexivity.
  - (* with a condition *)
    cbn [app] in Hs. rewrite Hs. cbn [hd Z.eqb Pos.eqb].
    rewrite <- app_assoc in Hs. cbn [app] in Hs.
    apply wp_bind. apply wp_bind, wp_modify. apply wp_bind.
    eapply wp_mono;
      [apply (condition_run fuel (write (bytes "if ") s1) inner
                (repeat SPACE n ++ body ++ STAR :: SLASH :: rest));
       [apply wf_write; assumption
       | autorewrite with cursor; congruence
       | assumption
       | rewrite Hs in Hf; cbn [length] in Hf;
         rewrite length_app in Hf; cbn [length] in Hf; lia]
      | | auto | auto].
    cbv beta. intros _ s2 (W2 & P2 & S2 & O2).
    apply wp_bind, wp_emit. apply wp_ret.
    eapply wp_mono;
      [apply (Hbody (emitted SPACE s2)
                (bytes "if " ++ (LPAREN :: inner ++ [RPAREN]) ++ [SPACE]));
       [apply wf_emitted; assumption
       | autorewrite with cursor; assumption
       | autorewrite with cursor; rewrite O2;
         autorewrite with cursor; rewrite O1;
         cbn [Z.ltb Z.compare]; rewrite <- !app_assoc; reflexivity]
      | | auto | auto].
    cbv beta. intros _ s3 (W3 & P3 & S3 & O3). splits; auto.
    rewrite O3, expansion_cond by discriminate.
    rewrite <- !app_assoc. reflexivity.
Qed.

Lemma read_tag_ok n : forall tag c s,
  wp (read_tag n tag c) s (fun _ _ => True) (fun _ _ => False) False.
Proof.
  induction n as [|n IH]; intros tag c s; cbn [read_tag].
  - apply wp_ret. exact I.
  - repeat wp_step; auto.
Qed.

Lemma candidate_ok c s :
  wp (candidate c) s (fun _ _ => True) (fun _ _ => False) False.
Proof.
  unfold candidate.
  apply wp_bind. wp_step.
  - apply wp_bind.
    eapply wp_mono; [apply read_tag_ok | | auto | auto].
    cbv beta. intros r s1 _. apply wp_bind, wp_modify. apply wp_ret.
    exact I.
  - apply wp_bind.
    eapply wp_mono; [apply read_tag_ok | | auto | auto].
    cbv beta. intros r s1 _. apply wp_bind, wp_modify. apply wp_ret.
    exact I.
Qed.

Lemma ident_run_tag n tag l :
  forallb is_alphanum tag = true -> (length tag < n)%nat ->
  is_alphanum (hd EOF l) = false ->
  ident_run n (tag ++ l) = tag.
Proof.
  revert n. induction tag as [|c tag IH]; intros n Ht Hn Hl.
  - cbn [app]. destruct n; [reflexivity|].
    destruct l as [|a l]; [reflexivity|].
    cbn [ident_run]. cbn [hd] in Hl. rewrite Hl. reflexivity.
  - cbn [forallb] in Ht. apply andb_true_iff in Ht. destruct Ht as [Hc Ht].
    destruct n; [cbn [length] in Hn; lia|].
    cbn [app ident_run]. rewrite Hc. f_equal.
    apply IH; [assumption | cbn [length] in Hn; lia | assumption].
Qed.

(** The slash-star branch on a tag of the registry, an optional
    condition, spaces, a balanced body and the end of the comment. *)
Lemma block_comment_run fuel reg c s tag cond n body rest :
  wf s ->
  stream s = STAR :: tag ++ cond ++ repeat SPACE n ++ body ++
             STAR :: SLASH :: rest ->
  tag <> [] -> forallb is_alphanum tag = true ->
  (length tag < MAX_TAG_LENGTH)%nat -> 0 <= match_ tag reg ->
  conditional cond ->
  (cond = [] ->
   is_alphanum (hd EOF (repeat SPACE n ++ body ++ [STAR])) = false /\
   hd EOF (repeat SPACE n ++ body ++ [STAR]) <> LPAREN) ->
  forallb counted body = true -> hd EOF (body ++ [STAR]) <> SPACE ->
  depth 0 body = Some 0 ->
  (length (stream s) <= fuel)%nat ->
  wp (block_comment fuel reg c) s
     (fun c' s' =>
        wf s' /\ pending c' ++ stream s' = rest /\
        out s' =
        out s ++ expansion cond (method_of reg (match_ tag reg)) body)
     (fun _ _ => False) False.
Proof.
  intros W Hs Hne Ht Hlen Hm Hcond Hnc Hb Hh Hd Hf.
  set (after := cond ++ repeat SPACE n ++ body ++ STAR :: SLASH :: rest)
    in *.
  assert (Hafter : is_alphanum (hd EOF after) = false).
  { subst after. destruct Hcond as [->|(inner & _ & ->)]; [|reflexivity].
    cbn [app].
    replace (repeat SPACE n ++ body ++ STAR :: SLASH :: rest)
      with ((repeat SPACE n ++ body) ++ STAR :: SLASH :: rest)
      by (rewrite <- app_assoc; reflexivity).
    rewrite (hd_app_cons EOF STAR _ _ []), <- app_assoc.
    apply Hnc. reflexivity. }
  pose proof (ident_run_tag MAX_TAG_LENGTH tag after Ht Hlen Hafter) as Hrun.
  unfold block_comment. apply wp_bind.
  eapply wp_mono;
    [apply wp_conj;
     [apply (candidate_spec c s (tag ++ after) W Hs) | apply candidate_ok]
    | | cbv beta; intros ? ? [_ []] | intros [_ []]].
  cbv beta. intros [tag' c2] s2 ((O2 & T2 & P2 & K2) & _).
  cbn [fst snd] in *. rewrite Hrun in T2. subst tag'.
  destruct (K2 Hlen) as (W2 & A2 & S2 & E2 & R2). clear K2.
  apply app_inv_head in R2.
  replace (length tag =? 0)%nat with false
    by (destruct tag; [congruence | reflexivity]).
  replace (0 <=? match_ tag reg) with true
    by (symmetry; apply Z.leb_le; assumption).
  apply wp_bind.
  eapply wp_mono;
    [apply (expand_run fuel reg (match_ tag reg) s2 cond n body rest);
     try assumption
    | | auto | auto].
  - symmetry. exact R2.
  - intros Hc. apply Hnc, Hc.
  - rewrite <- R2. rewrite Hs in Hf. cbn [length] in Hf.
    rewrite length_app in Hf. lia.
  - cbv beta. intros _ s3 (W3 & P3 & S3 & O3).
    apply wp_get_text; [assumption|].
    intros c4 s4 W4 P4 S4 E4 O4 _. splits; auto.
    + congruence.
    + rewrite O4, O3, O2, app_nil_r. reflexivity.
Qed.

(** ** The count of lines is bounded by the input *)

Lemma tick_bound c b : 0 <= tick c b <= 1.
Proof.
  unfold tick. destruct (c =? 13); [lia|].
  destruct ((c =? 10) && negb b); lia.
Qed.

Lemma tick_alphanum c b : is_alphanum c = true -> tick c b = 0.
Proof.
  unfold is_alphanum, tick. intros H.
  destruct (Z.eqb_spec c 13) as [->|_]; [discriminate|].
  destruct (Z.eqb_spec c 10) as [->|_]; [discriminate|]. reflexivity.
Qed.

Ltac w_tac :=
  unfold bounded, within, weight, mu in *; autorewrite with cursor in *;
  repeat match goal with
  | H : _ /\ _ |- _ => destruct H
  end;
  repeat match goal with
  | H : stream _ = _ |- _ =>
      apply (f_equal (@length Z)) in H; cbn [length] in H
  end;
  repeat match goal with
  | H : context [tick ?c ?b] |- _ =>
      lazymatch goal with
      | _ : 0 <= tick c b <= 1 |- _ => fail
      | _ => pose proof (tick_bound c b)
      end
  end;
  cbn [length] in *; try (split; lia); try lia.

(** A call of a scanner that is bounded. *)
Ltac w_call lem :=
  lazymatch goal with
  | |- wp _ _ _ (fun _ s' => within ?L ?B s') _ =>
      eapply wp_mono;
      [apply (lem L B); w_tac
      | cbv beta; intros
      | cbv beta; intros; assumption
      | auto]
  end.

Ltac w_loop IH :=
  repeat wp_step; auto;
  try solve [w_tac];
  try solve [apply IH; w_tac].

Lemma string_loop_within L B fuel quote in_comment was :
  forall s,
  within L B s -> L <= was -> was + 2 * Z.of_nat (mu s) <= B ->
  bounded L B (string_loop fuel quote in_comment was) s.
Proof.
  induction fuel as [|fuel IH]; intros s Hw Hl Hb; [exact I|].
  unfold bounded. cbn [string_loop]. w_loop IH.
Qed.

Lemma string_within L B fuel quote in_comment s :
  within L B s -> bounded L B (string fuel quote in_comment) s.
Proof.
  intros Hw. unfold string.
  apply string_loop_within; [assumption | apply Hw | apply Hw].
Qed.

Lemma regexp_set_within L B fuel in_comment :
  forall s,
  within L B s ->
  wp (regexp_set fuel in_comment) s
     (fun _ s' => within L B s' /\ (mu s' <= mu s)%nat)
     (fun _ s' => within L B s') True.
Proof.
  induction fuel as [|fuel IH]; intros s Hw; [exact I|].
  cbn [regexp_set].
  repeat wp_step; auto; try solve [w_tac].
  all: eapply wp_mono; [apply IH; w_tac | | auto | auto];
    cbv beta; intros _ s2 [Ha Hb]; split; [assumption|];
    unfold mu in *;
    repeat match goal with
    | H : stream _ = _ |- _ =>
        apply (f_equal (@length Z)) in H; cbn [length] in H
    end; lia.
Qed.

Ltac w_scan :=
  lazymatch goal with
  | |- wp (string _ _ _) _ _ _ _ => w_call string_within
  | |- wp (regexp_set _ _) _ _ (fun _ s' => within ?L ?B s') _ =>
      eapply wp_mono;
      [apply (regexp_set_within L B); w_tac
      | cbv beta; intros ? ? [? ?]
      | cbv beta; intros; assumption
      | auto]
  end.

Lemma regexp_loop_within L B fuel in_comment was :
  forall s,
  within L B s -> L <= was -> was + 2 * Z.of_nat (mu s) <= B ->
  bounded L B (regexp_loop fuel in_comment was) s.
Proof.
  induction fuel as [|fuel IH]; intros s Hw Hl Hb; [exact I|].
  unfold bounded. cbn [regexp_loop]. cbv zeta.
  repeat (wp_step || w_scan); auto;
    try solve [w_tac]; try solve [apply IH; w_tac].
Qed.

Lemma regexp_within L B fuel in_comment s :
  within L B s -> bounded L B (regexp fuel in_comment) s.
Proof.
  intros Hw. unfold regexp.
  apply regexp_loop_within; [assumption | apply Hw | apply Hw].
Qed.

Ltac w_scan2 :=
  lazymatch goal with
  | |- wp (string _ _ _) _ _ _ _ => w_call string_within
  | |- wp (regexp _ _) _ _ _ _ => w_call regexp_within
  end.

Ltac w_body IH :=
  repeat (wp_step || w_scan2); auto;
  try solve [w_tac]; try solve [apply IH; w_tac].

Lemma condition_loop_within L B fuel :
  forall left paren s,
  within L B s -> bounded L B (condition_loop fuel left paren) s.
Proof.
  induction fuel as [|fuel IH]; intros left paren s Hw; [exact I|].
  unfold bounded. cbn [condition_loop]. cbv zeta. w_body IH.
Qed.

Lemma skip_spaces_within L B fuel :
  forall s, within L B s -> bounded L B (skip_spaces fuel) s.
Proof.
  induction fuel as [|fuel IH]; intros s Hw; [exact I|].
  unfold bounded. cbn [skip_spaces]. w_body IH.
Qed.

Lemma stuff_stars_within L B fuel paren :
  forall s, within L B s -> bounded L B (stuff_stars fuel paren) s.
Proof.
  induction fuel as [|fuel IH]; intros s Hw; [exact I|].
  unfold bounded. cbn [stuff_stars]. w_body IH.
Qed.

Lemma stuff_iter_within L B fuel left paren s :
  within L B s -> bounded L B (stuff_iter fuel left paren) s.
Proof.
  intros Hw. unfold bounded, stuff_iter. cbv zeta. apply wp_bind.
  w_call stuff_stars_within. w_body False.
Qed.

Lemma stuff_loop_within L B fuel :
  forall left paren s,
  within L B s -> bounded L B (stuff_loop fuel left paren) s.
Proof.
  induction fuel as [|fuel IH]; intros left paren s Hw; [exact I|].
  unfold bounded. cbn [stuff_loop]. apply wp_bind.
  w_call stuff_iter_within.
  repeat wp_step; auto. apply IH. assumption.
Qed.

Lemma stuff_within L B fuel s :
  within L B s -> bounded L B (stuff fuel) s.
Proof.
  intros Hw. unfold bounded, stuff. apply wp_bind.
  w_call skip_spaces_within. apply stuff_loop_within. assumption.
Qed.

Ltac w_scan3 :=
  lazymatch goal with
  | |- wp (stuff _) _ _ _ _ => w_call stuff_within
  | |- wp (condition _) _ _ _ _ =>
      unfold condition; w_call condition_loop_within
  end.

Lemma expand_within L B fuel reg tag_nr s :
  within L B s -> bounded L B (expand fuel reg tag_nr) s.
Proof.
  intros Hw. unfold bounded, expand.
  repeat (wp_step || w_scan3); auto; try solve [w_tac].
Qed.

Lemma line_comment_within L B fuel :
  forall s, within L B s -> bounded L B (line_comment fuel) s.
Proof.
  induction fuel as [|fuel IH]; intros s Hw; [exact I|].
  unfold bounded. cbn [line_comment]. w_body IH.
Qed.

Lemma echo_comment_within L B fuel :
  forall c s, within L B s -> bounded L B (echo_comment fuel c) s.
Proof.
  induction fuel as [|fuel IH]; intros c s Hw; [exact I|].
  unfold bounded. cbn [echo_comment]. w_body IH.
Qed.

(** The loop that reads the tag: the last character read is pushed back
    by [candidate], which gives back 2 to the weight; the character read
    before the loop has left room for it. *)
Lemma read_tag_within L Y n :
  forall tag c s,
  L <= line_nr s -> weight s + 1 <= Y ->
  wp (read_tag n tag c) s
     (fun r s' => L <= line_nr s' /\
                  weight s' + (if 0 <? snd r then 2 else 0) <= Y + 1 /\
                  (preview s = 0 -> preview s' = 0))
     (fun _ _ => False) True.
Proof.
  induction n as [|n IH]; intros tag c s Hl Hw; cbn [read_tag].
  - apply wp_ret. cbn [snd]. destruct (0 <? c); splits; auto; lia.
  - repeat wp_step; auto; cbn [snd]; try discriminate.
    + eapply wp_mono;
        [apply (IH (tag ++ [c0]) c0 s');
         rewrite ?(tick_alphanum _ _ B) in *; w_tac
        | | auto | auto].
      cbv beta. intros r s2 (Ha & Hb & Hc). splits; auto.
    + replace (0 <? c0) with true by (symmetry; apply Z.ltb_lt; lia).
      splits; auto; w_tac.
    + change (0 <? -1) with false. cbv iota. splits; auto; w_tac.
Qed.

Lemma candidate_within L B c s :
  within L B s -> preview s = STAR ->
  wp (candidate c) s
     (fun _ s' => within L B s') (fun _ _ => False) True.
Proof.
  intros Hw Hp. unfold candidate.
  apply wp_bind. wp_step.
  - (* the star *)
    assert (c0 = STAR).
    { unfold stream in *. rewrite Hp in *. cbn in *. congruence. }
    subst c0. apply wp_bind.
    eapply wp_mono;
      [apply (read_tag_within L (weight s - 1) MAX_TAG_LENGTH [] c s');
       unfold tick in *; cbn in *; w_tac
      | | auto | auto].
    cbv beta. intros [tag c2] s2 (Ha & Hb & Hc). cbn [snd] in *.
    apply wp_bind, wp_modify. apply wp_ret.
    specialize (Hc ltac:(assumption)).
    unfold within, weight, mu in *. autorewrite with cursor.
    rewrite stream_unget by assumption. rewrite length_app.
    destruct (0 <? c2); cbn [length] in *; lia.
  - exfalso. lia.
Qed.

Lemma block_comment_within L B fuel reg c s :
  within L B s -> preview s = STAR ->
  bounded L B (block_comment fuel reg c) s.
Proof.
  intros Hw Hp. unfold bounded, block_comment. apply wp_bind.
  eapply wp_mono;
    [apply (candidate_within L B c s); assumption
    | | cbv beta; intros; contradiction | auto].
  cbv beta. intros [tag c2] s2 H2.
  assert (Hx : forall fuel c, bounded L B (echo_comment fuel c)
                                (write tag (write (bytes "/*") s2))).
  { intros. apply echo_comment_within. w_tac. }
  repeat (wp_step
          || (lazymatch goal with
              | |- wp (expand _ _ _) _ _ _ _ => w_call expand_within
              | |- wp (echo_comment _ _) _ _ _ _ =>
                  eapply wp_mono;
                  [apply Hx | cbv beta; intros
                  | cbv beta; intros; assumption | auto]
              end)); auto; try solve [w_tac].
Qed.

Lemma lone_slash_within L B fuel left s :
  within L B s -> bounded L B (lone_slash fuel left) s.
Proof.
  intros Hw. unfold bounded, lone_slash. w_body False.
Qed.

Lemma process_step_within L B fuel reg c left s :
  within L B s -> bounded L B (process_step fuel reg c left) s.
Proof.
  intros Hw. unfold bounded, process_step.
  repeat (wp_step
          || w_scan2
          || (lazymatch goal with
              | |- wp (line_comment _) _ _ _ _ => w_call line_comment_within
              | |- wp (lone_slash _ _) _ _ _ _ => w_call lone_slash_within
              | |- wp (block_comment _ _ _) ?s1 _
                      (fun _ s' => within ?L ?B s') _ =>
                  eapply wp_mono;
                  [apply (block_comment_within L B);
                   [w_tac | zb; congruence]
                  | cbv beta; intros
                  | cbv beta; intros; assumption | auto]
              end)); auto; try solve [w_tac].
Qed.

Lemma process_loop_within L B fuel reg :
  forall c left s,
  within L B s -> bounded L B (process_loop fuel reg c left) s.
Proof.
  induction fuel as [|fuel IH]; intros c left s Hw; [exact I|].
  unfold bounded. cbn [process_loop]. apply wp_bind.
  w_call process_step_within.
  repeat wp_step; auto. apply IH. assumption.
Qed.

Lemma process_within fuel reg s :
  preview s = 0 -> 0 <= line_nr s ->
  bounded 1 (1 + 2 * Z.of_nat (length (input s))) (process fuel reg) s.
Proof.
  intros Hp Hl. unfold bounded, process.
  apply wp_bind, wp_modify. apply wp_bind.
  assert (Hw : within 1 (1 + 2 * Z.of_nat (length (input s)))
                      (set_line_nr 1 s)).
  { unfold within, weight, mu, stream. simpl. rewrite Hp. simpl. lia. }
  wp_step; apply process_loop_within; w_tac.
Qed.

(** The line of every diagnostic of a run of [process] lies between 1
    and 1 plus twice the length of the input. *)
Lemma run_line reg stdin n msg :
  diagnostic (run reg stdin) = Some (n, msg) ->
  1 <= n <= 1 + 2 * Z.of_nat (length stdin).
Proof.
  unfold run. intros Hd.
  pose proof (process_within (length stdin + 2) reg (initial stdin)
                eq_refl ltac:(simpl; lia)) as G.
  unfold bounded, wp in G.
  destruct (process (length stdin + 2) reg (initial stdin))
    as [a s'|m s'|]; try discriminate.
  injection Hd as <- _. destruct G as [G1 G2].
  unfold weight, initial in G2. cbn [input] in G2. lia.
Qed.

Lemma declare_line arg c s :
  wp (declare arg c) s (fun _ s' => s' = s) (fun _ s' => s' = s) True.
Proof.
  unfold declare.
  destruct (scan_name MAX_TAG_LENGTH arg c) as [[tag c1] r].
  destruct (scan_name MAX_TAG_LENGTH (tl r) c1) as [[method c2] r2].
  unfold wp, bind, error, ret.
  destruct (length tag =? 0)%nat; [reflexivity|].
  destruct (c1 =? 0); [reflexivity|].
  destruct (c1 =? COLON); [|reflexivity].
  destruct ((length method =? 0)%nat || negb (c2 =? 0)); reflexivity.
Qed.

Lemma configure_line argv :
  forall comment c reg s,
  wp (configure argv comment c reg) s
     (fun _ s' => line_nr s' = line_nr s /\ preview s' = preview s /\
                  input s' = input s)
     (fun _ s' => line_nr s' = line_nr s) True.
Proof.
  induction argv as [|arg argv IH]; intros comment c reg s;
    cbn [configure].
  - apply wp_ret. auto.
  - destruct comment.
    + apply wp_bind, wp_modify. apply wp_bind, wp_modify.
      apply wp_bind, wp_emit.
      eapply wp_mono; [apply IH | | | auto]; cbv beta; intros;
        unfold emitted in *; destruct (0 <? LF); simpl in *; auto.
    + destruct (str_eqb arg (bytes "-comment")); [apply IH|].
      apply wp_bind.
      eapply wp_mono; [apply declare_line | | | auto]; cbv beta.
      * intros [[tag method] c2] s' ->. apply IH.
      * intros msg s' ->. reflexivity.
Qed.

(** The line of every diagnostic of the program lies between 0, the line
    of a bad method line, and 1 plus twice the length of the input. *)
Lemma jsdev_line argv stdin n msg :
  diagnostic (jsdev argv stdin) = Some (n, msg) ->
  0 <= n <= 1 + 2 * Z.of_nat (length stdin).
Proof.
  unfold jsdev, main. intros Hd.
  pose proof (configure_line argv false EOF [] (initial stdin)) as G.
  unfold wp in G. unfold bind in Hd.
  destruct (configure argv false EOF [] (initial stdin))
    as [reg s1|m s1|]; try discriminate.
  - destruct G as (G1 & G2 & G3).
    pose proof (process_within (length stdin + 2) reg s1
                  ltac:(rewrite G2; reflexivity)
                  ltac:(rewrite G1; simpl; lia)) as K.
    unfold bounded, wp in K. rewrite G3 in K. cbn [initial input] in K.
    destruct (process (length stdin + 2) reg s1)
      as [a s'|m s'|]; try discriminate.
    injection Hd as <- _. destruct K as [K1 K2].
    unfold weight in K2. lia.
  - injection Hd as Hn _. subst n. rewrite G. cbn [initial line_nr]. lia.
Qed.

(** * The claims *)

(** ** Expansion *)



(** ** Pass-through *)

Lemma process_loop_untagged fuel reg :
  forall c left s,
  wf s -> in_hand c s ->
  existsb (at_tagged reg) (driver fuel reg c left s) = false ->
  wp (process_loop fuel reg c left) s
     (fun _ s' => out s' = out s ++ pending c ++ stream s)
     (fun _ _ => True) True.
Proof.
  induction fuel as [|fuel IH]; intros c left s W Hc Hu; [exact I|].
  cbn [process_loop driver existsb] in *.
  apply orb_false_iff in Hu. destruct Hu as [Hu1 Hu2].
  assert (Hp : c = SLASH -> opens_tagged reg (SLASH :: stream s) = false).
  { intros ->. exact Hu1. }
  pose proof (process_step_untagged fuel reg c left s W Hc Hp) as G.
  apply wp_bind. unfold wp at 1. unfold wp in G.
  destruct (process_step fuel reg c left s) as [[[c' left']|] s1|msg s1|];
    try exact I.
  - destruct G as (W1 & H1 & w & Sa & Sb).
    eapply wp_mono; [apply (IH c' left' s1 W1 H1 Hu2) | | auto | auto].
    cbv beta. intros _ s2 Ho.
    rewrite Ho, Sb, Sa, <- app_assoc. reflexivity.
  - destruct G as [-> ->]. apply wp_ret.
    destruct Hc as [Hc|[_ Hc]]; [lia|discriminate|].
    rewrite Hc. simpl. rewrite app_nil_r. reflexivity.
Qed.

(** A condition on the text alone that is enough: no slash-star of the
    input, wherever it stands, is followed by a tag of the registry. *)
Lemma passthrough_plain reg stdin :
  is_text stdin -> plain reg stdin = true ->
  diagnostic (run reg stdin) = None ->
  output (run reg stdin) = Some stdin.
Proof.
  intros Ht Hp Hd.
  pose proof (run_total reg stdin) as Htot.
  pose proof (process_plain (length stdin + 2) reg (initial stdin)
                (wf_initial stdin Ht) eq_refl Hp) as G.
  unfold run in *. unfold wp in G.
  destruct (process (length stdin + 2) reg (initial stdin))
    as [[] s'|msg s'|]; [|discriminate|congruence].
  simpl. rewrite G. reflexivity.
Qed.

(** C2, as amended.  On a text (no NUL) on which the scanner meets no
    slash-star followed by a tag of the registry (nor by MAX_TAG_LENGTH
    identifier characters), a run of [process] that ends without a
    diagnostic has written its input, byte for byte. *)
Theorem passthrough reg stdin :
  is_text stdin -> untagged reg stdin = true ->
  diagnostic (run reg stdin) = None ->
  output (run reg stdin) = Some stdin.
Proof.
  intros Ht Hu Hd.
  pose proof (run_total reg stdin) as Htot.
  assert (G : wp (process (length stdin + 2) reg) (initial stdin)
                 (fun _ s' => out s' = stdin) (fun _ _ => True) True).
  { unfold untagged, configurations in Hu. apply negb_true_iff in Hu.
    unfold process.
    pose proof (wf_initial stdin Ht) as W.
    assert (G0 : wp (modify (set_line_nr 1) ;;; get false) (initial stdin)
                    (fun c s1 => wf s1 /\ in_hand c s1 /\
                                 pending c ++ stream s1 = stdin /\
                                 out s1 = [])
                    (fun _ _ => True) True).
    { apply wp_bind, wp_modify.
      apply wp_get_hand; [apply wf_set_line_nr; exact W|].
      intros c s1 W1 H1 S1 O1. splits; auto. }
    unfold wp in G0 |- *. unfold bind in *.
    destruct (modify (set_line_nr 1) (initial stdin)) as [[] s0|msg s0|];
      try exact I.
    destruct (get false s0) as [c s1|msg s1|]; try exact I.
    destruct G0 as (W1 & H1 & S1 & O1).
    pose proof (process_loop_untagged (length stdin + 2) reg c 0 s1
                  W1 H1 Hu) as G1.
    unfold wp in G1.
    destruct (process_loop (length stdin + 2) reg c 0 s1)
      as [[] s2|msg s2|]; try exact I.
    rewrite G1, O1, S1. reflexivity. }
  unfold run in *. unfold wp in G.
  destruct (process (length stdin + 2) reg (initial stdin))
    as [[] s'|msg s'|]; [|discriminate|congruence].
  simpl. rewrite G. reflexivity.
Qed.

Lemma passthrough_witness :
  let reg := [(bytes "debug", []); (bytes "alarm", bytes "alert")] in
  let stdin := bytes "var r = /[/]*/; a = b/c; /*note x*/ s = '/*debug x*/'; // see /*debug x*/" in
  output (run reg stdin) = Some stdin.
Proof.
  intros reg stdin. apply passthrough.
  - vm_compute. reflexivity.
  - vm_compute. reflexivity.
  - vm_compute. reflexivity.
Defined.

(** C2 as stated fails.  A comment that holds a slash-slash is no tagged
    comment, and [process] stops at it with the diagnostic
    "nested comment." instead of writing its input; a string that is not
    closed stops it too; and a NUL byte is read as the end of the input,
    so that the rest of an input without any comment is not written. *)
Lemma passthrough_as_stated_fails :
  let nested := bytes "x = 1; /* see http://x */ y = 2;" in
  let open := bytes "s = 'ab" in
  let nul := bytes "a" ++ [0] ++ bytes "b" in
  (is_text nested /\ untagged [] nested = true /\
   diagnostic (run [] nested) = Some (1, "nested comment.") /\
   output (run [] nested) <> Some nested) /\
  (is_text open /\ untagged [] open = true /\
   diagnostic (run [] open) = Some (1, "unterminated string literal.") /\
   output (run [] open) <> Some open) /\
  (untagged [] nul = true /\
   diagnostic (run [] nul) = None /\
   output (run [] nul) = Some (bytes "a") /\
   output (run [] nul) <> Some nul).
Proof.
  intros nested open nul.
  splits; try (vm_compute; reflexivity); vm_compute; discriminate.
Qed.

(** ** Comments whose tag does not match *)

(** C9, as amended.  The driver is at a slash followed by a star and
    [rest]; the identifier run [tag] of [rest] has less than
    MAX_TAG_LENGTH characters and is empty or not in the registry.
    Whenever the step ends without a diagnostic, it has written the
    comment as it has read it: slash-star, [body] (which starts with the
    tag), star-slash, where that star-slash is the first one after the
    slash-star. *)
Theorem unmatched_comment_echoed fuel reg left s rest r s' :
  wf s -> stream s = STAR :: rest ->
  let tag := ident_run MAX_TAG_LENGTH rest in
  (length tag < MAX_TAG_LENGTH)%nat ->
  tag = [] \/ match_ tag reg < 0 ->
  process_step fuel reg SLASH left s = Ok r s' ->
  exists c' body,
    r = Some (c', left) /\
    rest = body ++ [STAR; SLASH] ++ pending c' ++ stream s' /\
    has_close (body ++ [STAR]) = false /\
    out s' = out s ++ comment_text body.
Proof.
  intros W Hs tag Hlen Hm Hrun.
  assert (G : wp (process_step fuel reg SLASH left) s
                 (fun r s' =>
                    exists c' body,
                      r = Some (c', left) /\
                      rest = body ++ [STAR; SLASH] ++ pending c' ++
                             stream s' /\
                      has_close (body ++ [STAR]) = false /\
                      out s' = out s ++ comment_text body)
                 (fun _ _ => True) True).
  { eapply process_step_star; [exact W | exact Hs |].
    intros s1 W1 S1 O1 _ _.
    eapply wp_mono;
      [apply (block_comment_unmatched fuel reg SLASH s1 rest);
       assumption | | auto | auto].
    cbv beta. intros c' s2 (W2 & H2 & body & Ha & Hb & Hc).
    exists c', body. rewrite <- O1. splits; auto. }
  exact (wp_ok _ _ _ _ _ _ _ G Hrun).
Qed.

Lemma unmatched_comment_echoed_witness :
  let reg := [(bytes "debug", []); (bytes "alarm", bytes "alert")] in
  let rest := bytes "debugger: a * b / c **/;" in
  let s := mkState (STAR :: rest) 0 false 1 [] in
  let s' := mkState [] 0 false 1 (bytes "/*debugger: a * b / c **/") in
  exists c' body,
    Some (SEMI, 0) = Some (c', 0) /\
    rest = body ++ [STAR; SLASH] ++ pending c' ++ stream s' /\
    has_close (body ++ [STAR]) = false /\
    out s' = out s ++ comment_text body.
Proof.
  intros reg rest s s'.
  apply (unmatched_comment_echoed 40%nat reg 0 s rest).
  - split; [repeat constructor | simpl; lia].
  - reflexivity.
  - vm_compute. lia.
  - right. vm_compute. reflexivity.
  - vm_compute. reflexivity.
Defined.

(** C9 as stated fails: the comment below has no tag and ends at its
    first star-slash, and the driver stops inside it with the diagnostic
    "nested comment." *)
Lemma unmatched_comment_as_stated_fails :
  let body := bytes " a /* b " in
  let stdin := comment_text body in
  is_text stdin /\
  ident_run MAX_TAG_LENGTH body = [] /\
  has_close (body ++ [STAR]) = false /\
  diagnostic (run [] stdin) = Some (1, "nested comment.") /\
  output (run [] stdin) <> Some stdin.
Proof.
  intros body stdin. splits; try (vm_compute; reflexivity).
  vm_compute. discriminate.
Qed.

(** ** The candidate tag *)

(** What [candidate] does when the identifier run fills the tag: the
    character pushed back is the last character stored. *)
Lemma candidate_long c s rest :
  wf s -> stream s = STAR :: rest ->
  length (ident_run MAX_TAG_LENGTH rest) = MAX_TAG_LENGTH ->
  wp (candidate c) s
     (fun r s' =>
        fst r = ident_run MAX_TAG_LENGTH rest /\
        snd r = last (fst r) c /\ preview s' = snd r /\
        rest = fst r ++ input s')
     (fun _ _ => True) True.
Proof.
  intros W Hs Hlen. unfold candidate.
  apply wp_bind. wp_step; sync; [|congruence].
  assert (Hr : stream s' = rest) by congruence.
  apply wp_bind.
  eapply wp_mono; [apply read_tag_spec; assumption | | auto | auto].
  cbv beta. intros [tag c2] s2 (W2 & O2 & P2 & T2 & R2).
  cbn [fst snd app] in *. rewrite Hr in *.
  apply wp_bind, wp_modify. apply wp_ret. cbn [fst snd].
  unfold read_rel in R2. rewrite Hlen, Nat.ltb_irrefl in R2.
  destruct R2 as [Ra Rb]. subst tag.
  splits; auto.
  simpl. rewrite Ra at 1. f_equal.
  unfold stream. rewrite P2; [reflexivity|].
  left. assumption.
Qed.

(** C4 (the code departs from it).  On a comment whose identifier run has
    MAX_TAG_LENGTH characters, here 80 letters [a], the loop that reads
    the tag ends without reading the next character: the character pushed
    back is the 80th letter, which the tag holds already, and the comment
    is written with 81 letters. *)
Theorem long_tag_is_read_twice :
  let run80 := repeat 97 80 in
  let stdin := bytes "/*" ++ run80 ++ bytes "*/" in
  candidate SLASH (mkState (STAR :: run80 ++ bytes "*/") 0 false 1 [])
  = Ok (run80, 97) (mkState (bytes "*/") 97 false 1 []) /\
  is_alphanum 97 = true /\
  output (run [] stdin) = Some (bytes "/*" ++ repeat 97 81 ++ bytes "*/").
Proof.
  intros run80 stdin. splits; vm_compute; reflexivity.
Qed.

(** ** The method line *)

Lemma scan_name_short n name c :
  Forall (fun b => is_alphanum b = true) name ->
  (length name < n)%nat ->
  scan_name n name c = (name, 0, []).
Proof.
  intros H. revert n c.
  induction H as [|b name Hb Hn IH]; intros n c Hlen.
  - destruct n; [simpl in Hlen; lia|]. reflexivity.
  - destruct n; [simpl in Hlen; lia|].
    cbn [scan_name hd tl]. rewrite Hb.
    rewrite IH by (simpl in Hlen; lia).
    reflexivity.
Qed.

(** A name of 1 to 79 identifier characters is accepted as a tag without
    a method. *)
Lemma declare_accepts name c s :
  Forall (fun b => is_alphanum b = true) name ->
  (1 <= length name < MAX_TAG_LENGTH)%nat ->
  declare name c s = Ok (name, [], 0) s.
Proof.
  intros H [Hl Hu]. unfold declare.
  rewrite scan_name_short by assumption.
  destruct name as [|b name]; [simpl in Hl; lia|].
  reflexivity.
Qed.

(** C5 (the code departs from it).  A name of exactly MAX_TAG_LENGTH
    identifier characters, here 80 letters [a], is within the bound of
    the claim, and [main] rejects it with the diagnostic of the method
    line (line 0, the message is the argument); a name of 79 letters is
    accepted. *)
Theorem tag_of_80_characters_is_rejected :
  let name := repeat 97 80 in
  length name = MAX_TAG_LENGTH /\
  forallb is_alphanum name = true /\
  diagnostic (jsdev [name] (bytes "x")) = Some (0, text name) /\
  output (jsdev [repeat 97 79] (bytes "x")) = Some (bytes "x").
Proof.
  intros name. splits; vm_compute; reflexivity.
Qed.

(** ** Unterminated strings *)

(** When the text ends before an unescaped closing quote (and, inside a
    tagged comment, holds no star-slash, which is another diagnostic),
    [string] fails with "unterminated string literal." and the line of
    the diagnostic is the value of [line_nr] at its call; and every
    diagnostic with this message carries that value.  The texts of the
    examples end on a later line than the one reported. *)
Lemma string_restores_line :
  (forall fuel quote in_comment s,
      wf s -> 0 < quote ->
      closed quote (stream s) = false ->
      (in_comment = true -> has_close (stream s) = false) ->
      (length (stream s) < fuel)%nat ->
      exists s',
        string fuel quote in_comment s
        = Fail "unterminated string literal." s' /\
        line_nr s' = line_nr s) /\
  (forall fuel quote in_comment s msg s',
      string fuel quote in_comment s = Fail msg s' ->
      msg = "unterminated string literal." ->
      line_nr s' = line_nr s) /\
  diagnostic (run [] (bytes "s = 'ab" ++ [LF] ++ bytes "cd"))
  = Some (1, "unterminated string literal.") /\
  diagnostic (run [] (bytes "x;" ++ [LF] ++ bytes "s = 'ab" ++ [LF; LF]))
  = Some (2, "unterminated string literal.").
Proof.
  splits; try (vm_compute; reflexivity).
  - intros fuel quote in_comment s W Hq Hc Hn Hf.
    destruct (wp_fails _ _ _
                (string_loop_unterminated fuel quote in_comment
                   (line_nr s) s W Hq Hc Hn Hf))
      as (msg & s' & Hr & -> & Hl).
    exists s'. split; assumption.
  - intros fuel quote in_comment s msg s' Hr Hm.
    exact (wp_fail _ _ _ _ _ _ _
             (string_loop_line fuel quote in_comment (line_nr s) s) Hr Hm).
Qed.

Lemma string_restores_line_example :
  let s := mkState (bytes "ab\" ++ [SQUOTE; LF] ++ bytes "cd") 0 false 7
             (bytes "s = '") in
  exists s',
    string 20 SQUOTE true s = Fail "unterminated string literal." s' /\
    line_nr s' = 7.
Proof.
  intros s.
  apply (proj1 string_restores_line 20%nat SQUOTE true s).
  - split; [repeat constructor | simpl; lia].
  - lia.
  - vm_compute. reflexivity.
  - intros _. vm_compute. reflexivity.
  - vm_compute. lia.
Qed.

(** C8 (the code departs from it).  [string] reports the value that
    [line_nr] had at its call, and that value is not always the line
    where the literal began: a line break that [unget] has pushed back is
    counted again by the next [get].  In the input of three lines below,
    a comment whose slash-star ends its line, its end on the second line
    and a quote alone on the third, the literal begins on line 3 and the
    diagnostic of the unterminated string carries line 4, with line feeds
    and with carriage returns and line feeds alike; with a space after
    the slash-star no line break is pushed back and the line is 3. *)
Theorem unterminated_string_line_is_off :
  let before := bytes "/*" ++ [LF] ++ bytes "*/" ++ [LF] in
  let before_crlf := bytes "/*" ++ [CR; LF] ++ bytes "*/" ++ [CR; LF] in
  let before_spaced := bytes "/* " ++ [LF] ++ bytes "*/" ++ [LF] in
  spec_line_of before = 3 /\
  diagnostic (run [] (before ++ [SQUOTE]))
  = Some (4, "unterminated string literal.") /\
  spec_line_of before_crlf = 3 /\
  diagnostic (run [] (before_crlf ++ [SQUOTE]))
  = Some (4, "unterminated string literal.") /\
  spec_line_of before_spaced = 3 /\
  diagnostic (run [] (before_spaced ++ [SQUOTE]))
  = Some (3, "unterminated string literal.") /\
  (let s := mkState [] 0 false 1 [] in
   (get false ;;; unget LF ;;; get false) (set_input [LF] s)
   = Ok LF (set_line_nr 3 s)).
Proof.
  intros before before_crlf before_spaced.
  splits; vm_compute; reflexivity.
Qed.

(** ** Unbalanced stuff *)

Lemma stuff_iter_depth fuel left paren s :
  wp (stuff_iter fuel left paren) s
     (fun r _ => match r with
                 | Some (_, paren') => 0 <= paren -> 0 <= paren'
                 | None => True
                 end)
     (fun _ _ => True) True.
Proof.
  unfold stuff_iter. cbv zeta.
  apply wp_bind.
  eapply wp_mono; [apply wp_true | | auto | auto].
  cbv beta. intros [] s1 _; [apply wp_ret; exact I|].
  repeat (wp_step
          || (eapply wp_mono; [apply wp_true | cbv beta; intros | auto | auto]));
    auto; zb; intros; lia.
Qed.

(** One turn of the loop of [stuff] at a bracket [c]: the character is
    read and written, and [k] decides on its kind and on the depth. *)
Lemma stuff_iter_bracket fuel left paren s c r
  (Q : option (Z * Z) -> state -> Prop) E T :
  wf s -> stream s = c :: r -> is_open c || is_close c = true ->
  (forall s', wf s' -> stream s' = r -> out s' = out s ++ [c] ->
     wp (if is_open c then ret (Some (c, paren + 1))
         else if paren - 1 <? 0 then error "Unbalanced stuff"
              else ret (Some (c, paren - 1))) s' Q E T) ->
  wp (stuff_iter (S fuel) left paren) s Q E T.
Proof.
  intros W Hs Hc HQ. unfold stuff_iter. cbv zeta.
  assert (Hk : (c =? 42) = false /\ (c =? -1) = false /\
               is_quote c = false /\ (SPACE <? c) = true /\
               (is_open c = false -> is_close c = true)).
  { apply orb_true_iff in Hc. destruct Hc as [Hc|Hc].
    - unfold is_open in Hc. apply orb_true_iff in Hc.
      destruct Hc as [Hc|Hc];
        [apply orb_true_iff in Hc; destruct Hc as [Hc|Hc]|];
        apply Z.eqb_eq in Hc; subst c; splits; try reflexivity;
        discriminate.
    - destruct (is_close_inv c Hc) as [->|[->| ->]]; splits;
        reflexivity. }
  destruct Hk as (Hns & Hne & Hnq & Hsp & Hoc).
  apply wp_bind. cbn [stuff_stars].
  apply wp_bind, wp_peek_is_text; [assumption|].
  intros s1 W1 S1 O1 _ _. rewrite Hs. cbn [hd]. rewrite Hns.
  apply wp_ret. apply wp_bind. rewrite Hs in S1.
  apply (wp_get_cons true s1 c r); [assumption..|].
  intros s2 W2 P2 S2 O2 _.
  rewrite Hne, Hnq, Hsp. rewrite O1 in O2.
  specialize (HQ s2 W2 S2 O2).
  destruct (is_open c); [exact HQ|].
  rewrite (Hoc eq_refl). exact HQ.
Qed.

Lemma stuff_iter_end fuel left paren s r :
  wf s -> stream s = STAR :: SLASH :: r -> 0 < paren ->
  wp (stuff_iter (S fuel) left paren) s
     (fun _ _ => False) (fun msg _ => msg = "Unbalanced stuff") False.
Proof.
  intros W Hs Hp. unfold stuff_iter. cbv zeta.
  apply wp_bind. cbn [stuff_stars].
  apply wp_bind, wp_peek_is_text; [assumption|].
  intros s1 W1 S1 _ _ _. rewrite Hs. cbn [hd Z.eqb Pos.eqb].
  apply wp_bind. rewrite Hs in S1.
  apply (wp_get_cons false s1 STAR (SLASH :: r)); [assumption..|].
  intros s2 W2 P2 S2 _ _.
  apply wp_bind, wp_peek_is_text; [assumption|].
  intros s3 W3 S3 _ _ _. rewrite S2. cbn [hd Z.eqb Pos.eqb].
  apply wp_bind. rewrite S2 in S3.
  apply (wp_get_cons false s3 SLASH r); [assumption..|].
  intros s4 W4 P4 S4 _ _.
  replace (0 <? paren) with true by (symmetry; apply Z.ltb_lt; lia).
  apply wp_error. reflexivity.
Qed.



(** ** Division or regexp *)

(** At a single slash (the character in hand is a slash
    and the next one is neither a slash nor a star) the driver writes the
    slash, scans a regexp literal if and only if [left] is one of
    [( , = : [ ! & | ? { } ;], sets [left] to the slash and reads the
    next character; [left] is the character that the driver tracks: a
    character above space written by the default branch replaces it.
    On [a = b/c/d;] the two slashes are met with [left] equal to [b] and
    to [c], and every character is a turn of its own: no regexp literal.
    On [x=/abc/;] the slash is met with [left] equal to [=], and the turn
    reads the whole of [/abc/]. *)
Lemma lone_slash_rule :
  (forall fuel reg left s,
      wf s -> hd EOF (stream s) <> SLASH -> hd EOF (stream s) <> STAR ->
      exists s1,
        stream s1 = stream s /\ out s1 = out s ++ [SLASH] /\
        process_step fuel reg SLASH left s
        = ((if pre_regexp left then regexp fuel false else ret tt) ;;;
           c <- get false ;; ret (Some (c, SLASH))) s1) /\
  (forall left,
      pre_regexp left = true <->
      In left [LPAREN; COMMA; EQUALS; COLON; LBRACKET; BANG;
               AMP; BAR; QUESTION; LBRACE; RBRACE; SEMI]) /\
  (forall fuel reg c left s,
      c <> EOF -> is_quote c = false -> c <> SLASH ->
      process_step fuel reg c left s
      = (emit c ;;; c' <- get false ;;
         ret (Some (c', if SPACE <? c then c else left))) s) /\
  map view (configurations [] (bytes "a = b/c/d;"))
  = [(97, 0, []); (SPACE, 97, bytes "a"); (EQUALS, 97, bytes "a ");
     (SPACE, EQUALS, bytes "a ="); (98, EQUALS, bytes "a = ");
     (SLASH, 98, bytes "a = b"); (99, SLASH, bytes "a = b/");
     (SLASH, 99, bytes "a = b/c"); (100, SLASH, bytes "a = b/c/");
     (SEMI, 100, bytes "a = b/c/d"); (EOF, SEMI, bytes "a = b/c/d;")] /\
  map view (configurations [] (bytes "x=/abc/;"))
  = [(120, 0, []); (EQUALS, 120, bytes "x"); (SLASH, EQUALS, bytes "x=");
     (SEMI, SLASH, bytes "x=/abc/"); (EOF, SEMI, bytes "x=/abc/;")].
Proof.
  splits; try (vm_compute; reflexivity).
  - intros fuel reg left s W H1 H2.
    destruct (process_step_lone reg s W H1 H2)
      as (s1 & W1 & S1 & O1 & _ & Hp).
    exists (emitted SLASH s1). autorewrite with cursor.
    splits; [assumption | rewrite O1; reflexivity |].
    rewrite Hp. unfold bind at 1. rewrite lone_slash_eq.
    unfold bind.
    destruct (pre_regexp left);
      [destruct (regexp fuel false (emitted SLASH s1))|]; reflexivity.
  - apply pre_regexp_iff.
  - apply process_step_default.
Qed.

Lemma lone_slash_rule_example :
  let s := mkState (bytes "abc/;") 0 false 1 (bytes "x=") in
  (exists s1,
      stream s1 = stream s /\ out s1 = out s ++ [SLASH] /\
      process_step 9 [] SLASH EQUALS s
      = ((if pre_regexp EQUALS then regexp 9 false else ret tt) ;;;
         c <- get false ;; ret (Some (c, SLASH))) s1) /\
  process_step 9 [] 120 0 (mkState (bytes "=/abc/;") 0 false 1 [])
  = (emit 120 ;;; c' <- get false ;;
     ret (Some (c', if SPACE <? 120 then 120 else 0)))
      (mkState (bytes "=/abc/;") 0 false 1 []).
Proof.
  intros s. split.
  - apply (proj1 lone_slash_rule 9%nat [] EQUALS s).
    + split; [repeat constructor | simpl; lia].
    + vm_compute. discriminate.
    + vm_compute. discriminate.
  - apply (proj1 (proj2 (proj2 lone_slash_rule)) 9%nat [] 120 0).
    + discriminate.
    + reflexivity.
    + discriminate.
Qed.

(** A string literal at the top level leaves [left] as it was. *)
Lemma process_step_string_left fuel reg q left s r s' :
  is_quote q = true ->
  process_step fuel reg q left s = Ok r s' -> r = Some (0, left).
Proof.
  intros Hq. unfold process_step.
  replace (q =? EOF) with false
    by (symmetry; apply Z.eqb_neq; apply is_quote_above in Hq; lia).
  rewrite Hq. unfold bind, ret.
  destruct (emit q s) as [a s1|msg s1|]; try discriminate.
  destruct (string fuel q false s1) as [b s2|msg s2|]; try discriminate.
  intros H. injection H as <- _. reflexivity.
Qed.

(** A string literal in the body of a tagged comment sets [left] to its
    quote. *)
Lemma stuff_iter_string_left fuel left paren s q rest left' paren' s' :
  wf s -> stream s = q :: rest -> is_quote q = true ->
  stuff_iter (S fuel) left paren s = Ok (Some (left', paren')) s' ->
  left' = q /\ paren' = paren.
Proof.
  intros W Hs Hq Hr.
  pose proof (is_quote_above q Hq) as Ha.
  assert (K : wp (stuff_iter (S fuel) left paren) s
                 (fun r _ => r = Some (q, paren))
                 (fun _ _ => True) True).
  { unfold stuff_iter. cbv zeta. apply wp_bind. cbn [stuff_stars].
    apply wp_bind, wp_peek_is_text; [assumption|].
    intros s1 W1 S1 _ _ _. rewrite Hs. cbn [hd].
    replace (q =? 42) with false
      by (symmetry; apply Z.eqb_neq; unfold is_quote in Hq; lia).
    apply wp_ret. apply wp_bind, wp_get_text; [assumption|].
    intros c1 s2 W2 P2 S2 E2 _ _. rewrite S1, Hs in S2.
    assert (c1 = q).
    { destruct (Z.leb_spec c1 0) as [Hle|Hgt].
      - destruct (E2 Hle) as [-> E2']. rewrite E2' in S2. discriminate.
      - rewrite pending_pos in S2 by assumption. injection S2 as S2 _.
        auto. }
    subst c1.
    replace (q =? EOF) with false by (symmetry; apply Z.eqb_neq; lia).
    rewrite Hq. apply wp_bind.
    eapply wp_mono; [apply wp_true | | auto | auto].
    cbv beta. intros _ s3 _. apply wp_ret.
    replace (SPACE <? q) with true by (symmetry; apply Z.ltb_lt; lia).
    reflexivity. }
  pose proof (wp_ok _ _ _ _ _ _ _ K Hr) as E.
  injection E as -> ->. auto.
Qed.

(** C3 (the code departs from it).  At the top level [left] is not the
    most recent character above space after a string literal: [process]
    leaves [left] as it was before the literal, while [stuff] and
    [condition] set it to the closing quote.  In the input below the
    slash that follows the string is met with [left] equal to the equals
    sign, although the most recent character above space is the double
    quote, which is not in the set; a regexp literal is scanned, the turn
    reads the whole of the slash, the quote and the slash, and the run
    ends without a diagnostic.  After a letter in place of the string
    the same slash is a division, and the quote after it opens a string
    that is not closed; and in the body or the condition of a tagged
    comment the text with the string is scanned in that way too. *)
Theorem left_is_stale_after_string :
  let seen := bytes "x=" ++ [DQUOTE] ++ bytes "a" ++ [DQUOTE] in
  let stdin := seen ++ bytes "/'/3;" in
  let reg := [(bytes "debug", [])] in
  (exists s s',
      nth_error (configurations [] stdin) 4 = Some (SLASH, EQUALS, s) /\
      out s = seen /\
      last_significant seen = DQUOTE /\
      pre_regexp (last_significant seen) = false /\
      pre_regexp EQUALS = true /\
      nth_error (configurations [] stdin) 5 = Some (51, SLASH, s') /\
      out s' = seen ++ bytes "/'/") /\
  output (run [] stdin) = Some stdin /\
  diagnostic (run [] (bytes "x=a/'/3;"))
  = Some (1, "unterminated string literal.") /\
  diagnostic (run reg (bytes "/*debug " ++ stdin ++ bytes "*/"))
  = Some (1, "unexpected close comment in string.") /\
  diagnostic (run reg (bytes "/*debug(" ++ stdin ++ bytes ") y*/"))
  = Some (1, "unexpected close comment in string.").
Proof.
  intros seen stdin reg. splits; try (vm_compute; reflexivity).
  do 2 eexists. splits; vm_compute; reflexivity.
Qed.

(** ** The first slash *)

Lemma is_blank_inv b :
  is_blank b = true ->
  0 < b /\ b <> EOF /\ is_quote b = false /\ b <> SLASH /\
  (SPACE <? b) = false.
Proof.
  unfold is_blank, is_quote. intros H. zb.
  splits; try lia;
    try (apply Z.ltb_ge; lia);
    try (apply orb_false_iff; split; [apply orb_false_iff; split|];
         apply Z.eqb_neq; lia).
Qed.

Lemma driver_blanks reg rest ws :
  forall fuel c s,
    wf s -> c :: stream s = ws ++ SLASH :: rest ->
    forallb is_blank ws = true ->
    (length ws < fuel)%nat ->
    exists s', nth_error (driver fuel reg c 0 s) (length ws)
               = Some (SLASH, 0, s') /\
               wf s' /\ stream s' = rest /\ out s' = out s ++ ws.
Proof.
  induction ws as [|w ws IH]; intros fuel c s W Hs Hb Hf.
  - destruct fuel; [simpl in Hf; lia|].
    cbn [app] in Hs. injection Hs as -> Hs.
    exists s. rewrite app_nil_r. splits; auto.
  - destruct fuel; [simpl in Hf; lia|].
    cbn [app] in Hs. injection Hs as -> Hs.
    cbn [forallb] in Hb. apply andb_true_iff in Hb. destruct Hb as [Hw Hb].
    destruct (is_blank_inv w Hw) as (H1 & H2 & H3 & H4 & H5).
    cbn [length nth_error driver].
    rewrite process_step_default by assumption.
    assert (Hx : exists c1 r1, ws ++ SLASH :: rest = c1 :: r1)
      by (destruct ws; simpl; eauto).
    destruct Hx as (c1 & r1 & Hr). rewrite Hr in Hs.
    assert (We : wf (emitted w s)) by (apply wf_emitted; assumption).
    destruct (get_text_eq false (emitted w s) c1 r1 We)
      as (s1 & Hg & W1 & P1 & S1 & O1 & _).
    { autorewrite with cursor. assumption. }
    unfold bind at 1. unfold emit.
    replace (0 <? w) with true by (symmetry; apply Z.ltb_lt; lia).
    fold (emitted w s).
    assert (Hem : write [w] s = emitted w s).
    { unfold emitted.
      replace (0 <? w) with true by (symmetry; apply Z.ltb_lt; lia).
      reflexivity. }
    rewrite Hem. unfold bind. rewrite Hg. cbn [ret]. rewrite H5.
    destruct (IH fuel c1 s1 W1) as (s' & Hn & W' & S' & O').
    + rewrite S1, Hr. reflexivity.
    + exact Hb.
    + simpl in Hf. lia.
    + exists s'. splits; auto.
      rewrite O', O1. autorewrite with cursor.
      replace (0 <? w) with true by (symmetry; apply Z.ltb_lt; lia).
      rewrite app_nil_r, <- app_assoc. reflexivity.
Qed.

Lemma orM_peeks_false s :
  wf s -> hd EOF (stream s) <> SLASH -> hd EOF (stream s) <> STAR ->
  exists s1, orM (peek_is SLASH) (peek_is STAR) s = Ok false s1 /\
             wf s1 /\ stream s1 = stream s /\ out s1 = out s.
Proof.
  intros W H1 H2.
  destruct (peek_is_text_eq SLASH s W) as (s0 & P0 & W0 & S0 & O0 & _).
  destruct (peek_is_text_eq STAR s0 W0) as (s1 & P1 & W1 & S1 & O1 & _).
  exists s1. splits; try congruence.
  unfold orM, bind. rewrite P0.
  replace (hd EOF (stream s) =? SLASH) with false
    by (symmetry; apply Z.eqb_neq; assumption).
  rewrite P1, S0.
  replace (hd EOF (stream s) =? STAR) with false
    by (symmetry; apply Z.eqb_neq; assumption).
  reflexivity.
Qed.

(** A slash at the head of a stuff body starts a regexp literal. *)
Lemma stuff_slash fuel s r :
  wf s -> stream s = SLASH :: r ->
  hd EOF r <> SLASH -> hd EOF r <> STAR ->
  exists s3, stream s3 = r /\ out s3 = out s ++ [SLASH] /\
             stuff (S (S fuel)) s
             = (regexp (S fuel) true ;;; stuff_loop (S fuel) SLASH 0) s3.
Proof.
  intros W Hs H1 H2.
  destruct (peek_is_text_eq SPACE s W) as (s0 & P0 & W0 & S0 & O0 & _).
  destruct (peek_is_text_eq STAR s0 W0) as (s1 & P1 & W1 & S1 & O1 & _).
  destruct (get_text_eq true s1 SLASH r W1) as (s2 & P2 & W2 & _ & S2 & O2 & _);
    [congruence|].
  destruct (orM_peeks_false s2 W2) as (s3 & P3 & W3 & S3 & O3);
    [rewrite S2; assumption | rewrite S2; assumption |].
  exists s3. splits; [congruence | congruence |].
  unfold stuff. cbn [skip_spaces stuff_loop].
  unfold bind at 1. unfold bind at 1. rewrite P0, Hs. cbn [hd Z.eqb Pos.eqb].
  cbn [ret].
  unfold bind at 1. unfold stuff_iter at 1. cbn [stuff_stars].
  unfold bind at 1. unfold bind at 1. rewrite P1, S0, Hs.
  cbn [hd Z.eqb Pos.eqb ret].
  unfold bind at 1. rewrite P2.
  cbn [Z.eqb Pos.eqb is_quote is_open is_close orb].
  unfold bind at 1. rewrite P3.
  cbn [pre_regexp Z.eqb Pos.eqb orb].
  unfold bind. destruct (regexp (S fuel) true s3); reflexivity.
Qed.

(** A slash at the head of a condition starts a regexp literal. *)
Lemma condition_slash fuel s r :
  wf s -> stream s = SLASH :: r ->
  hd EOF r <> SLASH -> hd EOF r <> STAR ->
  exists s3, stream s3 = r /\ out s3 = out s ++ [SLASH] /\
             condition (S fuel) s
             = (regexp fuel true ;;; condition_loop fuel SLASH 0) s3.
Proof.
  intros W Hs H1 H2.
  destruct (get_text_eq true s SLASH r W Hs)
    as (s2 & P2 & W2 & _ & S2 & O2 & _).
  destruct (orM_peeks_false s2 W2) as (s3 & P3 & W3 & S3 & O3);
    [rewrite S2; assumption | rewrite S2; assumption |].
  exists s3. splits; [congruence | congruence |].
  unfold condition. cbn [condition_loop].
  unfold bind at 1. rewrite P2.
  cbn [Z.eqb Pos.eqb is_quote is_open is_close orb].
  unfold bind at 1. rewrite P3.
  cbn [pre_regexp Z.eqb Pos.eqb orb Z.ltb Z.compare Pos.compare
       Pos.compare_cont].
  unfold bind. destruct (regexp fuel true s3); reflexivity.
Qed.

(** C10.  [process] starts with [left] equal to 0, which is not in the
    set of [pre_regexp]: a slash met before any character above space
    (after blanks only, and not followed by a slash or a star) is met
    with [left] equal to 0, and the turn writes it and reads the next
    character without a regexp scan.  In [stuff] and in [condition],
    which start with [left] equal to a left brace, a slash read first
    starts a regexp scan.  So a slash, a double quote and a slash are a
    regexp literal at the head of a stuff body, while at the top level the
    double quote after the first slash starts a string, which is
    unterminated here. *)
Theorem initial_slash_is_division :
  pre_regexp 0 = false /\
  (forall reg ws rest,
      forallb is_blank ws = true -> is_text rest ->
      hd EOF rest <> SLASH -> hd EOF rest <> STAR ->
      exists s s1,
        nth_error (configurations reg (ws ++ SLASH :: rest)) (length ws)
        = Some (SLASH, 0, s) /\
        out s = ws /\ stream s = rest /\
        stream s1 = rest /\ out s1 = ws ++ [SLASH] /\
        forall fuel,
          process_step fuel reg SLASH 0 s
          = (c <- get false ;; ret (Some (c, SLASH))) s1) /\
  (forall fuel s r,
      wf s -> stream s = SLASH :: r ->
      hd EOF r <> SLASH -> hd EOF r <> STAR ->
      exists s3, stream s3 = r /\ out s3 = out s ++ [SLASH] /\
                 stuff (S (S fuel)) s
                 = (regexp (S fuel) true ;;; stuff_loop (S fuel) SLASH 0)
                     s3) /\
  (forall fuel s r,
      wf s -> stream s = SLASH :: r ->
      hd EOF r <> SLASH -> hd EOF r <> STAR ->
      exists s3, stream s3 = r /\ out s3 = out s ++ [SLASH] /\
                 condition (S fuel) s
                 = (regexp fuel true ;;; condition_loop fuel SLASH 0) s3) /\
  output (run [(bytes "debug", [])]
            (bytes "/*debug /" ++ [DQUOTE] ++ bytes "/.test(s)*/"))
  = Some (bytes "{/" ++ [DQUOTE] ++ bytes "/.test(s)}") /\
  diagnostic (run [(bytes "debug", [])]
                (bytes "/" ++ [DQUOTE] ++ bytes "/.test(s)"))
  = Some (1, "unterminated string literal.").
Proof.
  splits; try (vm_compute; reflexivity).
  - intros reg ws rest Hb Ht H1 H2.
    assert (Hall : is_text (ws ++ SLASH :: rest)).
    { unfold is_text in *. rewrite forallb_app. cbn [forallb].
      rewrite Ht. cbn [Z.ltb Z.compare andb].
      rewrite andb_true_r.
      rewrite forallb_forall in *. intros b Hin.
      destruct (is_blank_inv b (Hb b Hin)) as [Hp _].
      apply Z.ltb_lt. assumption. }
    pose proof (wf_initial _ Hall) as W0.
    assert (Hx : exists c0 r0, ws ++ SLASH :: rest = c0 :: r0)
      by (destruct ws; simpl; eauto).
    destruct Hx as (c0 & r0 & Hr).
    destruct (get_text_eq false
                (set_line_nr 1 (initial (ws ++ SLASH :: rest))) c0 r0)
      as (s0 & G0 & Ws & P0 & S0 & O0 & _).
    { apply wf_set_line_nr. exact W0. }
    { rewrite stream_set_line_nr. unfold stream, initial. simpl. exact Hr. }
    destruct (driver_blanks reg rest ws
                (length (ws ++ SLASH :: rest) + 2) c0 s0 Ws)
      as (s & Hn & W & S & O).
    { rewrite S0, Hr. reflexivity. }
    { exact Hb. }
    { rewrite length_app. simpl. lia. }
    destruct (process_step_lone reg s W) as (s1 & W1 & S1 & O1 & _ & Hp);
      [rewrite S; assumption | rewrite S; assumption |].
    assert (Os : out s = ws).
    { rewrite O, O0. autorewrite with cursor. rewrite app_nil_r.
      reflexivity. }
    exists s, (emitted SLASH s1). autorewrite with cursor. splits.
    + unfold configurations. unfold bind, modify. rewrite G0. exact Hn.
    + exact Os.
    + exact S.
    + congruence.
    + rewrite O1, Os. reflexivity.
    + intros fuel. rewrite Hp. unfold bind at 1. rewrite lone_slash_eq.
      reflexivity.
  - intros. apply stuff_slash; assumption.
  - intros. apply condition_slash; assumption.
Qed.

Lemma initial_slash_is_division_witness :
  (exists s s1,
      nth_error (configurations [] (bytes "  / 2")) 2 = Some (SLASH, 0, s) /\
      out s = bytes "  " /\ stream s = bytes " 2" /\
      stream s1 = bytes " 2" /\ out s1 = bytes "  /" /\
      forall fuel,
        process_step fuel [] SLASH 0 s
        = (c <- get false ;; ret (Some (c, SLASH))) s1) /\
  (exists s3,
      stream s3 = bytes "ab/ */" /\ out s3 = bytes "{/" /\
      stuff 9 (mkState (bytes "/ab/ */") 0 false 1 (bytes "{"))
      = (regexp 8 true ;;; stuff_loop 8 SLASH 0) s3) /\
  (exists s3,
      stream s3 = bytes "ab/)" /\ out s3 = bytes "if /" /\
      condition 9 (mkState (bytes "/ab/)") 0 false 1 (bytes "if "))
      = (regexp 8 true ;;; condition_loop 8 SLASH 0) s3).
Proof.
  split; [|split].
  - apply (proj1 (proj2 initial_slash_is_division) [] (bytes "  ")
             (bytes " 2")).
    + reflexivity.
    + reflexivity.
    + vm_compute. discriminate.
    + vm_compute. discriminate.
  - apply (proj1 (proj2 (proj2 initial_slash_is_division)) 7%nat
             (mkState (bytes "/ab/ */") 0 false 1 (bytes "{"))
             (bytes "ab/ */")).
    + split; [repeat constructor | simpl; lia].
    + reflexivity.
    + vm_compute. discriminate.
    + vm_compute. discriminate.
  - apply (proj1 (proj2 (proj2 (proj2 initial_slash_is_division))) 8%nat
             (mkState (bytes "/ab/)") 0 false 1 (bytes "if "))
             (bytes "ab/)")).
    + split; [repeat constructor | simpl; lia].
    + reflexivity.
    + vm_compute. discriminate.
    + vm_compute. discriminate.
Defined.

(** ** C6: line endings *)

(** The count of lines in [get], on every state. *)
Lemma get_counts (echo : bool) s :
  exists c s',
    get echo s = Ok c s' /\
    line_nr s' = line_nr s +
                 (if c =? CR then 1
                  else if (c =? LF) && negb (cr s) then 1 else 0) /\
    cr s' = (if c =? EOF then cr s else c =? CR).
Proof.
  destruct (get_ahead echo s) as (s' & G & _ & _ & C & L).
  exists (char_of (hd EOF (ahead s))), s'. split; [exact G|].
  rewrite C, L. unfold char_of, tick.
  destruct (Z.leb_spec (hd EOF (ahead s)) 0) as [H|H].
  - split; [simpl; lia | reflexivity].
  - replace (hd EOF (ahead s) =? EOF) with false
      by (symmetry; apply Z.eqb_neq; lia).
    split; reflexivity.
Qed.

(** A carriage return and the line feed after it are one line. *)
Lemma get_pair (e1 e2 : bool) s s1 s2 :
  get e1 s = Ok CR s1 -> get e2 s1 = Ok LF s2 ->
  line_nr s2 = line_nr s + 1.
Proof.
  intros G1 G2.
  destruct (get_counts e1 s) as (c & s' & G & L & C).
  rewrite G1 in G. injection G as <- <-.
  destruct (get_counts e2 s1) as (c & s' & G & L' & _).
  rewrite G2 in G. injection G as <- <-.
  rewrite L', L, C. simpl. lia.
Qed.

(** C6.  The diagnostic of a run, its line number included, is the same
    on an input with line feeds and on the same input with a carriage
    return before each line feed, for every command line of at most
    [MAX_NR_TAGS] tokens and every input of less than 2^28 characters,
    and the line of that diagnostic is below [INT_MAX]; from a count
    below [INT_MAX], [get] adds one to [line_nr] at a carriage return and
    at a line feed that does not follow a carriage return, and at no
    other character, so that a carriage return and the line feed after
    it add one; three inputs of three lines show it. *)
Theorem crlf_same_line :
  (forall argv stdin,
      (length argv <= MAX_NR_TAGS)%nat ->
      Z.of_nat (length stdin) < 2 ^ 28 ->
      nocr stdin ->
      diagnostic (jsdev argv (crlf stdin)) = diagnostic (jsdev argv stdin) /\
      forall n msg,
        diagnostic (jsdev argv stdin) = Some (n, msg) -> 0 <= n < INT_MAX) /\
  (forall reg stdin,
      (length reg <= MAX_NR_TAGS)%nat ->
      Z.of_nat (length stdin) < 2 ^ 28 ->
      nocr stdin ->
      diagnostic (run reg (crlf stdin)) = diagnostic (run reg stdin) /\
      forall n msg,
        diagnostic (run reg stdin) = Some (n, msg) -> 1 <= n < INT_MAX) /\
  (forall echo s,
      0 <= line_nr s < INT_MAX ->
      exists c s',
        get echo s = Ok c s' /\
        line_nr s' = line_nr s +
                     (if c =? CR then 1
                      else if (c =? LF) && negb (cr s) then 1 else 0) /\
        0 <= line_nr s' <= INT_MAX /\
        cr s' = (if c =? EOF then cr s else c =? CR)) /\
  (forall e1 e2 s s1 s2,
      0 <= line_nr s < INT_MAX ->
      get e1 s = Ok CR s1 -> get e2 s1 = Ok LF s2 ->
      line_nr s2 = line_nr s + 1 /\ 0 <= line_nr s2 <= INT_MAX) /\
  diagnostic (jsdev [] (bytes "a;" ++ [LF] ++ bytes "b;" ++ [LF] ++
                        bytes "/* c"))
  = Some (3, "unterminated comment.") /\
  diagnostic (jsdev [] (bytes "a;" ++ [CR; LF] ++ bytes "b;" ++ [CR; LF] ++
                        bytes "/* c"))
  = Some (3, "unterminated comment.") /\
  diagnostic (jsdev [] (bytes "a;" ++ [CR] ++ bytes "b;" ++ [CR] ++
                        bytes "/* c"))
  = Some (3, "unterminated comment.").
Proof.
  split; [|split; [|split; [|split; [|splits; vm_compute; reflexivity]]]].
  - intros argv stdin _ Hlen N. split.
    + unfold jsdev. eapply rel_diagnostic.
      * apply main_sim, sim_initial. assumption.
      * apply (jsdev_total argv stdin).
      * apply (jsdev_total argv (crlf stdin)).
    + intros n msg Hd. pose proof (jsdev_line argv stdin n msg Hd).
      change (2 ^ 28) with 268435456 in Hlen. unfold INT_MAX. lia.
  - intros reg stdin _ Hlen N. split.
    + apply run_crlf. assumption.
    + intros n msg Hd. pose proof (run_line reg stdin n msg Hd).
      change (2 ^ 28) with 268435456 in Hlen. unfold INT_MAX. lia.
  - intros echo s B.
    destruct (get_counts echo s) as (c & s' & G & L & C).
    exists c, s'. splits; try assumption;
      rewrite L; destruct (c =? CR); try destruct ((c =? LF) && negb (cr s));
      unfold INT_MAX in *; lia.
  - intros e1 e2 s s1 s2 B G1 G2.
    rewrite (get_pair e1 e2 s s1 s2 G1 G2). unfold INT_MAX in *. lia.
Qed.

Lemma crlf_same_line_witness :
  let argv := [bytes "debug"; bytes "log:console.log"] in
  let stdin := bytes "x = 1;" ++ [LF] ++ bytes "/*debug y = '" ++ [LF] ++
               bytes "*/" in
  (diagnostic (jsdev argv (crlf stdin)) = diagnostic (jsdev argv stdin) /\
   forall n msg,
     diagnostic (jsdev argv stdin) = Some (n, msg) -> 0 <= n < INT_MAX) /\
  diagnostic (jsdev argv stdin)
  = Some (3, "unexpected close comment in string.") /\
  (diagnostic (run [(bytes "debug", [])] (crlf stdin))
   = diagnostic (run [(bytes "debug", [])] stdin) /\
   forall n msg,
     diagnostic (run [(bytes "debug", [])] stdin) = Some (n, msg) ->
     1 <= n < INT_MAX) /\
  (exists c s',
      get true (mkState [LF; 97] 0 false 7 []) = Ok c s' /\
      line_nr s' = 8) /\
  (line_nr (mkState [] 0 false 8 [LF])
   = line_nr (mkState [CR; LF] 0 false 7 []) + 1 /\
   0 <= line_nr (mkState [] 0 false 8 [LF]) <= INT_MAX).
Proof.
  intros argv stdin.
  split; [|split; [|split; [|split]]].
  - apply (proj1 crlf_same_line argv stdin).
    + unfold MAX_NR_TAGS. simpl. lia.
    + reflexivity.
    + vm_compute. reflexivity.
  - vm_compute. reflexivity.
  - apply (proj1 (proj2 crlf_same_line) [(bytes "debug", [])] stdin).
    + unfold MAX_NR_TAGS. simpl. lia.
    + reflexivity.
    + vm_compute. reflexivity.
  - destruct (proj1 (proj2 (proj2 crlf_same_line)) true
                (mkState [LF; 97] 0 false 7 [])) as (c & s' & G & L & _).
    + unfold INT_MAX. simpl. lia.
    + exists c, s'. split; [exact G|].
      vm_compute in G. injection G as <- <-. reflexivity.
  - apply (proj1 (proj2 (proj2 (proj2 crlf_same_line))) false true
             (mkState [CR; LF] 0 false 7 [])
             (mkState [LF] 0 true 8 [])
             (mkState [] 0 false 8 [LF])); try reflexivity.
    unfold INT_MAX. simpl. lia.
Defined.

(** * More of the code *)

(** ** The registry *)

Lemma str_eqb_eq a b : str_eqb a b = true <-> a = b.
Proof.
  unfold str_eqb. destruct (list_eq_dec Z.eq_dec a b); split; congruence.
Qed.

Lemma match_from_first tag reg :
  forall k,
    (match_from tag reg k = EOF /\ forall e, In e reg -> fst e <> tag) \/
    (exists pre m post,
        reg = pre ++ (tag, m) :: post /\
        (forall e, In e pre -> fst e <> tag) /\
        match_from tag reg k = k + Z.of_nat (length pre)).
Proof.
  induction reg as [|[t m] reg IH]; intros k.
  { left. split; [reflexivity | intros e []]. }
  cbn [match_from]. destruct (str_eqb tag t) eqn:E.
  - apply str_eqb_eq in E. subst t. right.
    exists [], m, reg. splits; auto. simpl. lia.
  - assert (Hn : t <> tag).
    { intros ->. rewrite (proj2 (str_eqb_eq tag tag) eq_refl) in E.
      discriminate. }
    destruct (IH (k + 1)) as [[H1 H2]|(pre & m' & post & H1 & H2 & H3)].
    + left. split; [assumption|]. intros e [<-|He]; [exact Hn | auto].
    + right. exists ((t, m) :: pre), m', post. splits.
      * rewrite H1. reflexivity.
      * intros e [<-|He]; [exact Hn | auto].
      * rewrite H3. cbn [length]. lia.
Qed.

(** X1.  [match] returns the index of the first declaration of the tag,
    in the order of the method line, and [expand] then uses the method of
    that declaration; it returns [EOF] when no declaration has the tag. *)
Theorem match_first_declaration tag reg :
  (match_ tag reg = EOF /\ forall e, In e reg -> fst e <> tag) \/
  (exists pre m post,
      reg = pre ++ (tag, m) :: post /\
      (forall e, In e pre -> fst e <> tag) /\
      match_ tag reg = Z.of_nat (length pre) /\
      method_of reg (match_ tag reg) = m).
Proof.
  unfold match_.
  destruct (match_from_first tag reg 0)
    as [H|(pre & m & post & H1 & H2 & H3)]; [left; exact H|].
  right. exists pre, m, post. splits; auto.
  rewrite H3. unfold method_of. simpl. rewrite Nat2Z.id, H1.
  rewrite app_nth2 by lia. rewrite Nat.sub_diag. reflexivity.
Qed.

(** ** The method line *)

Lemma scan_name_spec n :
  forall a c w c' r,
    scan_name n a c = (w, c', r) ->
    a = w ++ r /\ forallb is_alphanum w = true /\ (length w <= n)%nat /\
    ((length w < n)%nat -> c' = hd 0 r /\ is_alphanum c' = false) /\
    ((length w = n)%nat ->
     if (n =? 0)%nat then c' = c else is_alphanum c' = true).
Proof.
  induction n as [|n IH]; intros a c w c' r H.
  { injection H as <- <- <-. splits; auto; simpl; lia. }
  cbn [scan_name] in H. cbv zeta in H.
  destruct (is_alphanum (hd 0 a)) eqn:E.
  - destruct (scan_name n (tl a) (hd 0 a)) as [[w1 c1] r1] eqn:E1.
    injection H as <- <- <-.
    destruct (IH _ _ _ _ _ E1) as (H1 & H2 & H3 & H4 & H5).
    destruct a as [|b a]; [discriminate E|]. cbn [hd tl] in *.
    splits.
    + rewrite H1. reflexivity.
    + cbn [forallb]. rewrite E, H2. reflexivity.
    + cbn [length]. lia.
    + cbn [length]. intros L. apply H4. lia.
    + cbn [length]. intros L. cbn [Nat.eqb].
      assert (L' : length w1 = n) by lia. specialize (H5 L').
      destruct (n =? 0)%nat; [subst c1; exact E | exact H5].
  - injection H as <- <- <-. splits; auto; simpl; lia.
Qed.

Lemma scan_name_run n :
  forall w r c,
    forallb is_alphanum w = true -> (length w < n)%nat ->
    is_alphanum (hd 0 r) = false ->
    scan_name n (w ++ r) c = (w, hd 0 r, r).
Proof.
  induction n as [|n IH]; intros w r c Hw Hl Hr; [lia|].
  destruct w as [|b w].
  - cbn [app scan_name]. cbv zeta. rewrite Hr. reflexivity.
  - cbn [forallb] in Hw. apply andb_true_iff in Hw. destruct Hw as [Hb Hw].
    cbn [app scan_name hd tl]. cbv zeta. rewrite Hb.
    rewrite IH; auto. cbn [length] in Hl. lia.
Qed.

(** X2.  What [main] accepts as a declaration: when the scan of a token
    succeeds, the token is the tag, or the tag, a colon and the method,
    both made of identifier characters, the tag not empty, and both
    within the rows of [tags] and [methods]; when it fails, the message is
    the token and nothing has been written. *)
Theorem declare_sound arg c s :
  is_text arg ->
  match declare arg c s with
  | Ok (tag, method, c') s' =>
      s' = s /\ c' = 0 /\ arg = token (tag, method) /\
      forallb is_alphanum tag = true /\
      forallb is_alphanum method = true /\
      (1 <= length tag <= MAX_TAG_LENGTH)%nat /\
      (length method <= MAX_TAG_LENGTH)%nat
  | Fail msg s' => msg = text arg /\ s' = s
  | Timeout => False
  end.
Proof.
  intros T. unfold declare.
  destruct (scan_name MAX_TAG_LENGTH arg c) as [[tag c1] r] eqn:E1.
  destruct (scan_name_spec _ _ _ _ _ _ E1) as (H1 & H2 & H3 & H4 & H5).
  destruct (length tag =? 0)%nat eqn:L0; [split; reflexivity|].
  apply Nat.eqb_neq in L0.
  unfold bind, ret.
  assert (Tr : is_text r).
  { unfold is_text in *. rewrite H1, forallb_app in T.
    apply andb_true_iff in T. apply T. }
  assert (Hc : (length tag < MAX_TAG_LENGTH)%nat \/ is_alphanum c1 = true).
  { destruct (Nat.eq_dec (length tag) MAX_TAG_LENGTH) as [Hm|Hm];
      [right; exact (H5 Hm) | left; lia]. }
  assert (Hnil : forall l, is_text l -> hd 0 l = 0 -> l = []).
  { intros [|b l] Tl Hl; [reflexivity|].
    unfold is_text in Tl. cbn [forallb hd] in *.
    apply andb_true_iff in Tl. destruct Tl as [Tb _].
    apply Z.ltb_lt in Tb. lia. }
  destruct (Z.eqb_spec c1 0) as [->|Z0].
  - destruct Hc as [Hc|Hc]; [|discriminate Hc].
    destruct (H4 Hc) as [H6 _].
    rewrite (Hnil r Tr (eq_sym H6)), app_nil_r in H1. subst arg.
    unfold MAX_TAG_LENGTH in *. splits; auto; cbn [length]; lia.
  - destruct (Z.eqb_spec c1 COLON) as [->|Z1]; [|split; reflexivity].
    destruct Hc as [Hc|Hc]; [|discriminate Hc].
    destruct (H4 Hc) as [H6 _].
    destruct r as [|b r]; [discriminate H6|]. cbn [hd tl] in *. subst b.
    destruct (scan_name MAX_TAG_LENGTH r COLON) as [[method c2] r2] eqn:E2.
    destruct (scan_name_spec _ _ _ _ _ _ E2) as (K1 & K2 & K3 & K4 & K5).
    destruct (length method =? 0)%nat eqn:M0; [split; reflexivity|].
    apply Nat.eqb_neq in M0. cbn [orb].
    destruct (Z.eqb_spec c2 0) as [->|Z2]; [|split; reflexivity].
    cbn [negb].
    assert (Hm : (length method < MAX_TAG_LENGTH)%nat).
    { destruct (Nat.eq_dec (length method) MAX_TAG_LENGTH) as [Hm|Hm];
        [discriminate (K5 Hm) | lia]. }
    destruct (K4 Hm) as [K6 _].
    assert (Tr2 : is_text r2).
    { unfold is_text in *. cbn [forallb] in Tr.
      apply andb_true_iff in Tr. destruct Tr as [_ Tr].
      rewrite K1, forallb_app in Tr. apply andb_true_iff in Tr. apply Tr. }
    rewrite (Hnil r2 Tr2 (eq_sym K6)), app_nil_r in K1. subst r arg.
    unfold token. cbn [fst snd].
    destruct method as [|m0 method]; [cbn [length] in M0; lia|].
    unfold MAX_TAG_LENGTH in *. splits; auto; lia.
Qed.

Lemma declare_sound_witness :
  let arg := bytes "log:console.log" in
  match declare arg EOF (initial []) with
  | Ok (tag, method, c') s' =>
      s' = initial [] /\ c' = 0 /\ arg = token (tag, method) /\
      forallb is_alphanum tag = true /\
      forallb is_alphanum method = true /\
      (1 <= length tag <= MAX_TAG_LENGTH)%nat /\
      (length method <= MAX_TAG_LENGTH)%nat
  | Fail msg s' => msg = text arg /\ s' = initial []
  | Timeout => False
  end.
Proof.
  intros arg. apply (declare_sound arg EOF (initial [])). reflexivity.
Defined.

Lemma is_name_spec w :
  is_name w = true ->
  forallb is_alphanum w = true /\ (length w < MAX_TAG_LENGTH)%nat.
Proof.
  unfold is_name. intros H. apply andb_true_iff in H.
  destruct H as [H1 H2]. apply Nat.ltb_lt in H2. auto.
Qed.

Lemma is_declaration_spec d :
  is_declaration d = true ->
  forallb is_alphanum (fst d) = true /\
  (1 <= length (fst d) < MAX_TAG_LENGTH)%nat /\
  forallb is_alphanum (snd d) = true /\
  (length (snd d) < MAX_TAG_LENGTH)%nat.
Proof.
  unfold is_declaration. intros H.
  apply andb_true_iff in H. destruct H as [H H3].
  apply andb_true_iff in H. destruct H as [H1 H2].
  apply is_name_spec in H1. apply is_name_spec in H3.
  apply negb_true_iff, Nat.eqb_neq in H2.
  destruct H1, H3. splits; auto; lia.
Qed.

Lemma declare_scan d c s :
  is_declaration d = true ->
  declare (token d) c s = Ok (fst d, snd d, 0) s.
Proof.
  intros H. destruct (is_declaration_spec d H) as (H1 & H2 & H3 & H4).
  destruct d as [tag method]. cbn [fst snd] in *.
  assert (L0 : (length tag =? 0)%nat = false)
    by (apply Nat.eqb_neq; lia).
  unfold declare, token. cbn [snd fst].
  destruct method as [|m0 method].
  - pose proof (scan_name_run MAX_TAG_LENGTH tag [] c H1 ltac:(lia) eq_refl)
      as E.
    rewrite app_nil_r in E. rewrite E, L0. reflexivity.
  - rewrite (scan_name_run MAX_TAG_LENGTH tag (COLON :: m0 :: method) c H1
               ltac:(lia) eq_refl).
    rewrite L0. cbn [hd tl]. unfold bind, ret. cbn [Z.eqb Pos.eqb].
    pose proof (scan_name_run MAX_TAG_LENGTH (m0 :: method) [] COLON H3 H4
                  eq_refl) as E.
    rewrite app_nil_r in E. rewrite E. reflexivity.
Qed.

(** X3.  The scan of a declaration gives back the tag and the method:
    for a tag of 1 to 79 identifier characters and a method of 0 to 79,
    the token made of the tag, or of the tag, a colon and the method, is
    accepted, with that tag and that method, whatever the token before
    it has left in [c]. *)
Theorem declare_token d c s :
  is_declaration d = true ->
  declare (token d) c s = Ok (fst d, snd d, 0) s.
Proof. apply declare_scan. Qed.

Lemma declare_token_witness :
  declare (bytes "log:console.log") EOF (initial [])
  = Ok (bytes "log", bytes "console.log", 0) (initial []).
Proof.
  apply (declare_token (bytes "log", bytes "console.log") EOF (initial [])).
  reflexivity.
Defined.

Lemma token_not_comment d :
  is_declaration d = true -> str_eqb (token d) (bytes "-comment") = false.
Proof.
  intros H. destruct (is_declaration_spec d H) as (H1 & H2 & _).
  destruct (str_eqb (token d) (bytes "-comment")) eqn:E; [|reflexivity].
  apply str_eqb_eq in E. exfalso.
  destruct d as [[|b tag] method]; cbn [fst snd] in *; [simpl in H2; lia|].
  cbn [forallb] in H1. apply andb_true_iff in H1. destruct H1 as [Hb _].
  unfold token in E. cbn [fst snd] in E.
  destruct method; injection E as -> _; discriminate Hb.
Qed.

Lemma configure_declarations decls :
  forall c reg s,
    forallb is_declaration decls = true ->
    configure (map token decls) false c reg s = Ok (reg ++ decls) s.
Proof.
  induction decls as [|d decls IH]; intros c reg s H.
  { cbn [map configure]. rewrite app_nil_r. reflexivity. }
  cbn [forallb] in H. apply andb_true_iff in H. destruct H as [Hd H].
  cbn [map configure]. rewrite (token_not_comment d Hd).
  unfold bind at 1. rewrite (declare_scan d c s Hd).
  destruct d as [tag method]. cbn [fst snd].
  rewrite IH by assumption. rewrite <- app_assoc. reflexivity.
Qed.

Lemma jsdev_declarations decls stdin :
  forallb is_declaration decls = true ->
  jsdev (map token decls) stdin = run decls stdin.
Proof.
  intros H.
  pose proof (configure_declarations decls EOF [] (initial stdin) H) as E.
  cbn [app] in E. unfold jsdev, main, run, bind. rewrite E. reflexivity.
Qed.

(** X4.  The method line holds the registry: a command line of at most
    [MAX_NR_TAGS] declarations, each the token of a tag of 1 to 79
    identifier characters with a method of 0 to 79, fills [tags] and
    [methods] with these tags and methods in their order and writes
    nothing, so that the program is [process] on that registry. *)
Theorem method_line_is_registry decls stdin :
  forallb is_declaration decls = true ->
  (length decls <= MAX_NR_TAGS)%nat ->
  configure (map token decls) false EOF [] (initial stdin)
  = Ok decls (initial stdin) /\
  jsdev (map token decls) stdin = run decls stdin.
Proof.
  intros H _. split.
  - apply (configure_declarations decls EOF [] (initial stdin) H).
  - apply jsdev_declarations. assumption.
Qed.

Lemma method_line_is_registry_witness :
  let decls := [(bytes "debug", []); (bytes "log", bytes "console.log")] in
  configure [bytes "debug"; bytes "log:console.log"] false EOF []
            (initial (bytes "x"))
  = Ok decls (initial (bytes "x")) /\
  jsdev [bytes "debug"; bytes "log:console.log"] (bytes "x")
  = run decls (bytes "x").
Proof.
  intros decls.
  apply (method_line_is_registry decls (bytes "x")).
  - reflexivity.
  - unfold MAX_NR_TAGS. simpl. lia.
Defined.

(** ** What has been written is never read *)

Lemma framed_ret {A} (a : A) : framed (ret a).
Proof. intros p s. reflexivity. Qed.

Lemma framed_error {A} msg : framed (@error A msg).
Proof. intros p s. reflexivity. Qed.

Lemma framed_timeout {A} : framed (@timeout A).
Proof. intros p s. reflexivity. Qed.

Lemma framed_bind {A B} (m : M A) (k : A -> M B) :
  framed m -> (forall a, framed (k a)) -> framed (bind m k).
Proof.
  intros Hm Hk p s. unfold bind. rewrite Hm.
  destruct (m s) as [a s'|msg s'|]; cbn [rmap]; [apply Hk | |]; reflexivity.
Qed.

Lemma prepend_write p l s : write l (prepend p s) = prepend p (write l s).
Proof. unfold write, prepend. simpl. rewrite app_assoc. reflexivity. Qed.

Lemma framed_emits l : framed (emits l).
Proof.
  intros p s. unfold emits, modify. cbn [rmap]. rewrite prepend_write.
  reflexivity.
Qed.

Lemma framed_emit c : framed (emit c).
Proof.
  intros p s. unfold emit. destruct (0 <? c); cbn [rmap];
    [rewrite prepend_write|]; reflexivity.
Qed.

Lemma framed_set_line_nr n : framed (modify (set_line_nr n)).
Proof. intros p s. reflexivity. Qed.

Lemma framed_unget c : framed (unget c).
Proof. intros p s. reflexivity. Qed.

Lemma framed_peek : framed peek.
Proof.
  intros p [inp pv c l o]. unfold peek, prepend, bind, fgetc, modify, ret.
  simpl. destruct (pv =? 0); [destruct inp|]; reflexivity.
Qed.

Lemma framed_get echo : framed (get echo).
Proof.
  intros p [inp pv c l o].
  unfold get, prepend, bind, fgetc, ret, emit. simpl.
  destruct (pv =? 0); [destruct inp as [|b r]|]; simpl.
  - reflexivity.
  - destruct (b <=? 0); [reflexivity|].
    destruct (b =? 13), (b =? 10), c, echo, (0 <? b); simpl;
      unfold write; simpl; rewrite ?app_assoc; reflexivity.
  - destruct (pv <=? 0); [reflexivity|].
    destruct (pv =? 13), (pv =? 10), c, echo, (0 <? pv); simpl;
      unfold write; simpl; rewrite ?app_assoc; reflexivity.
Qed.

Ltac framed_step :=
  lazymatch goal with
  | |- framed (bind _ _) => apply framed_bind; [|intros ?]
  | |- framed (ret _) => apply framed_ret
  | |- framed (error _) => apply framed_error
  | |- framed timeout => apply framed_timeout
  | |- framed (get _) => apply framed_get
  | |- framed peek => apply framed_peek
  | |- framed (peek_is _) => unfold peek_is
  | |- framed (emit _) => apply framed_emit
  | |- framed (emits _) => apply framed_emits
  | |- framed (unget _) => apply framed_unget
  | |- framed (modify (set_line_nr _)) => apply framed_set_line_nr
  | |- framed (andM _ _) => unfold andM
  | |- framed (orM _ _) => unfold orM
  | |- framed (if ?b then _ else _) => destruct b
  | |- framed (match ?x with _ => _ end) => destruct x
  end.

Lemma framed_string_loop fuel :
  forall quote in_comment was, framed (string_loop fuel quote in_comment was).
Proof.
  induction fuel as [|fuel IH]; intros quote in_comment was;
    cbn [string_loop]; repeat framed_step; apply IH.
Qed.

Lemma framed_string fuel quote in_comment :
  framed (string fuel quote in_comment).
Proof.
  intros p s. unfold string. apply framed_string_loop.
Qed.

Lemma framed_regexp_set fuel :
  forall in_comment, framed (regexp_set fuel in_comment).
Proof.
  induction fuel as [|fuel IH]; intros in_comment;
    cbn [regexp_set]; repeat framed_step; apply IH.
Qed.

Lemma framed_regexp_loop fuel :
  forall in_comment was, framed (regexp_loop fuel in_comment was).
Proof.
  induction fuel as [|fuel IH]; intros in_comment was;
    cbn [regexp_loop]; cbv zeta; repeat framed_step;
    first [apply IH | apply framed_regexp_set].
Qed.

Lemma framed_regexp fuel in_comment : framed (regexp fuel in_comment).
Proof.
  intros p s. unfold regexp. apply framed_regexp_loop.
Qed.

Ltac framed_call :=
  first [ framed_step
        | apply framed_string
        | apply framed_regexp ].

Lemma framed_condition_loop fuel :
  forall left paren, framed (condition_loop fuel left paren).
Proof.
  induction fuel as [|fuel IH]; intros left paren;
    cbn [condition_loop]; cbv zeta; repeat framed_call; apply IH.
Qed.

Lemma framed_skip_spaces fuel : framed (skip_spaces fuel).
Proof.
  induction fuel as [|fuel IH];
    cbn [skip_spaces]; repeat framed_step; apply IH.
Qed.

Lemma framed_stuff_stars fuel : forall paren, framed (stuff_stars fuel paren).
Proof.
  induction fuel as [|fuel IH]; intros paren;
    cbn [stuff_stars]; repeat framed_step; apply IH.
Qed.

Lemma framed_stuff_iter fuel left paren :
  framed (stuff_iter fuel left paren).
Proof.
  unfold stuff_iter.
  apply framed_bind; [apply framed_stuff_stars|]. intros done.
  cbv zeta. repeat framed_call.
Qed.

Lemma framed_stuff_loop fuel :
  forall left paren, framed (stuff_loop fuel left paren).
Proof.
  induction fuel as [|fuel IH]; intros left paren; cbn [stuff_loop].
  - apply framed_timeout.
  - apply framed_bind; [apply framed_stuff_iter|].
    intros [[l p]|]; [apply IH | apply framed_ret].
Qed.

Lemma framed_stuff fuel : framed (stuff fuel).
Proof.
  unfold stuff. apply framed_bind;
    [apply framed_skip_spaces | intros _; apply framed_stuff_loop].
Qed.

Lemma framed_expand fuel reg tag_nr : framed (expand fuel reg tag_nr).
Proof.
  unfold expand, condition.
  repeat first [ framed_step
               | apply framed_condition_loop
               | apply framed_stuff ].
Qed.

Lemma framed_read_tag n : forall tag c, framed (read_tag n tag c).
Proof.
  induction n as [|n IH]; intros tag c;
    cbn [read_tag]; repeat framed_step; apply IH.
Qed.

Lemma framed_line_comment fuel : framed (line_comment fuel).
Proof.
  induction fuel as [|fuel IH];
    cbn [line_comment]; repeat framed_step; apply IH.
Qed.

Lemma framed_echo_comment fuel : forall c, framed (echo_comment fuel c).
Proof.
  induction fuel as [|fuel IH]; intros c;
    cbn [echo_comment]; repeat framed_step; apply IH.
Qed.

Lemma framed_process_step fuel reg c left :
  framed (process_step fuel reg c left).
Proof.
  unfold process_step, block_comment, candidate, lone_slash.
  repeat first [ framed_step
               | apply framed_string
               | apply framed_regexp
               | apply framed_line_comment
               | apply framed_read_tag
               | apply framed_expand
               | apply framed_echo_comment ].
Qed.

Lemma framed_process_loop fuel reg :
  forall c left, framed (process_loop fuel reg c left).
Proof.
  induction fuel as [|fuel IH]; intros c left; cbn [process_loop].
  - apply framed_timeout.
  - apply framed_bind; [apply framed_process_step|].
    intros [[c' l]|]; [apply IH | apply framed_ret].
Qed.

Lemma framed_process fuel reg : framed (process fuel reg).
Proof.
  unfold process. repeat framed_step. apply framed_process_loop.
Qed.

Lemma framed_declare arg c : framed (declare arg c).
Proof.
  destruct (declare_pure arg c) as [x Hx]. intros p s.
  rewrite !Hx. destruct x; reflexivity.
Qed.

Lemma framed_configure argv :
  forall comment c reg, framed (configure argv comment c reg).
Proof.
  induction argv as [|arg argv IH]; intros comment c reg;
    cbn [configure]; repeat framed_step;
    first [apply IH | apply framed_declare | idtac].
  all: destruct p as [tag method]; apply IH.
Qed.

Lemma framed_main fuel argv : framed (main fuel argv).
Proof.
  unfold main. apply framed_bind;
    [apply framed_configure | intros reg; apply framed_process].
Qed.

Lemma prepend_out s : prepend (out s) (mkState (input s) (preview s) (cr s)
                                         (line_nr s) []) = s.
Proof. destruct s. unfold prepend. simpl. rewrite app_nil_r. reflexivity. Qed.



(** ** Literals that are closed *)

Lemma hd_literal quote l : hd EOF (literal quote l) = hd EOF l.
Proof.
  destruct l as [|c r]; [reflexivity|]. cbn [literal].
  destruct (c =? quote); [reflexivity|].
  destruct (c =? BACKSLASH); [destruct r|]; reflexivity.
Qed.

Lemma string_loop_closed fuel quote in_comment was :
  forall s,
    wf s -> 0 < quote ->
    closed quote (stream s) = true ->
    (in_comment = true -> has_close (literal quote (stream s)) = false) ->
    (length (stream s) < fuel)%nat ->
    wp (string_loop fuel quote in_comment was) s
       (fun _ s' =>
          wf s' /\ preview s' = 0 /\
          stream s = literal quote (stream s) ++ stream s' /\
          out s' = out s ++ literal quote (stream s))
       (fun _ _ => False) False.
Proof.
  induction fuel as [|fuel IH]; intros s W Hq Hc Hn Hf; [lia|].
  cbn [string_loop]. apply wp_bind, wp_get_text; [assumption|].
  intros c s1 W1 P1 S1 E1 O1 _.
  destruct (Z.leb_spec c 0) as [Hle|Hpos].
  { destruct (E1 Hle) as [-> E1']. cbn [pending Z.ltb Z.compare app] in S1.
    rewrite S1, E1' in Hc. discriminate Hc. }
  rewrite pending_pos in S1, O1 by assumption. cbn [app] in S1.
  rewrite S1 in Hc, Hn, Hf |- *. cbn [closed literal length] in *.
  destruct (Z.eqb_spec c quote) as [Hcq|Hcq].
  { apply wp_ret. splits; auto. }
  destruct (Z.eqb_spec c BACKSLASH) as [Hb|Hb].
  - apply wp_bind, wp_get_text; [assumption|].
    intros c2 s2 W2 P2 S2 E2 O2 _.
    destruct (Z.leb_spec c2 0) as [Hle2|Hpos2].
    { destruct (E2 Hle2) as [-> E2'].
      cbn [pending Z.ltb Z.compare app] in S2.
      rewrite S2, E2' in Hc. discriminate Hc. }
    rewrite pending_pos in S2, O2 by assumption. cbn [app] in S2.
    rewrite S2 in Hc, Hn, Hf |- *. cbn [length] in Hf.
    assert (Hn2 : in_comment = true ->
                  has_close (c2 :: literal quote (stream s2)) = false).
    { intros Hi. eapply has_close_tl, Hn, Hi. }
    assert (K : wp (string_loop fuel quote in_comment was) s2
                   (fun _ s' =>
                      wf s' /\ preview s' = 0 /\
                      c :: c2 :: stream s2
                      = (c :: c2 :: literal quote (stream s2)) ++ stream s' /\
                      out s' = out s ++ c :: c2 :: literal quote (stream s2))
                   (fun _ _ => False) False).
    { eapply wp_mono; [apply IH | | auto | auto]; try assumption.
      - intros Hi. eapply has_close_tl, Hn2, Hi.
      - lia.
      - cbv beta. intros _ s' (Wa & Pa & Sa & Oa). splits; auto.
        + cbn [app]. rewrite <- Sa. reflexivity.
        + rewrite Oa, O2, O1, <- !app_assoc. reflexivity. }
    apply wp_bind. unfold andM.
    destruct (in_comment && (c2 =? 42)) eqn:Hic.
    + apply andb_true_iff in Hic. destruct Hic as [Hi Hc2].
      apply Z.eqb_eq in Hc2. subst c2.
      apply wp_peek_is_text; [assumption|]. intros s3 W3 S3 O3 _ _.
      pose proof (has_close_star _ (Hn2 Hi)) as Hs.
      rewrite hd_literal in Hs. rewrite Hs.
      replace (42 =? -1) with false by reflexivity.
      eapply wp_mono; [apply IH | | auto | auto]; try assumption.
      * rewrite S3. assumption.
      * intros Hi'. rewrite S3. eapply has_close_tl, Hn2, Hi'.
      * rewrite S3. lia.
      * cbv beta. intros _ s' (Wa & Pa & Sa & Oa). rewrite S3 in *.
        splits; auto.
        -- cbn [app]. rewrite <- Sa. reflexivity.
        -- rewrite Oa, O3, O2, O1, <- !app_assoc. reflexivity.
    + apply wp_ret.
      replace (c2 =? -1) with false by (symmetry; apply Z.eqb_neq; lia).
      exact K.
  - apply wp_bind, wp_ret. apply wp_bind. unfold andM.
    destruct (in_comment && (c =? 42)) eqn:Hic.
    + apply andb_true_iff in Hic. destruct Hic as [Hi Hc2].
      apply Z.eqb_eq in Hc2. subst c.
      apply wp_peek_is_text; [assumption|]. intros s3 W3 S3 O3 _ _.
      pose proof (has_close_star _ (Hn Hi)) as Hs.
      rewrite hd_literal in Hs. rewrite Hs.
      replace (42 =? -1) with false by reflexivity.
      eapply wp_mono; [apply IH | | auto | auto]; try assumption.
      * rewrite S3. assumption.
      * intros Hi'. rewrite S3. eapply has_close_tl, Hn, Hi'.
      * rewrite S3. lia.
      * cbv beta. intros _ s' (Wa & Pa & Sa & Oa). rewrite S3 in *.
        splits; auto.
        -- cbn [app]. rewrite <- Sa. reflexivity.
        -- rewrite Oa, O3, O1, <- !app_assoc. reflexivity.
    + apply wp_ret.
      replace (c =? -1) with false by (symmetry; apply Z.eqb_neq; lia).
      eapply wp_mono; [apply IH | | auto | auto]; try assumption.
      * intros Hi'. eapply has_close_tl, Hn, Hi'.
      * lia.
      * cbv beta. intros _ s' (Wa & Pa & Sa & Oa).
        splits; auto.
        -- cbn [app]. rewrite <- Sa. reflexivity.
        -- rewrite Oa, O1, <- !app_assoc. reflexivity.
Qed.

(** X7.  A string literal that is closed is read to its closing quote
    and no further, and written as it is: on a text that holds a quote
    that is not escaped, [string] ends without a diagnostic after the
    first such quote, a backslash escaping the character after it and a
    line break being a character like another; inside a tagged comment
    this needs a literal that holds no star-slash. *)
Theorem string_reads_literal fuel quote in_comment s :
  wf s -> 0 < quote ->
  closed quote (stream s) = true ->
  (in_comment = true -> has_close (literal quote (stream s)) = false) ->
  (length (stream s) < fuel)%nat ->
  exists s',
    string fuel quote in_comment s = Ok tt s' /\
    stream s = literal quote (stream s) ++ stream s' /\
    out s' = out s ++ literal quote (stream s) /\
    preview s' = 0.
Proof.
  intros W Hq Hc Hn Hf.
  destruct (wp_returns _ _ _
              (string_loop_closed fuel quote in_comment (line_nr s)
                 s W Hq Hc Hn Hf))
    as ([] & s' & Hr & _ & P & S & O).
  exists s'. splits; auto.
Qed.

Lemma string_reads_literal_witness :
  let s := mkState (bytes "a\'b" ++ [LF] ++ bytes "c' + d") 0 false 3
             (bytes "x = '") in
  exists s',
    string 20 SQUOTE false s = Ok tt s' /\
    stream s = literal SQUOTE (stream s) ++ stream s' /\
    out s' = out s ++ literal SQUOTE (stream s) /\
    preview s' = 0.
Proof.
  intros s. apply (string_reads_literal 20 SQUOTE false s).
  - split; [repeat constructor | simpl; lia].
  - lia.
  - reflexivity.
  - discriminate.
  - simpl. lia.
Defined.

(** ** Regexp literals *)

(** [get] on a text state, with the count of lines. *)
Lemma wp_get_lines (echo : bool) s (Q : Z -> state -> Prop) E T :
  wf s ->
  (forall c s',
      wf s' -> preview s' = 0 ->
      stream s = pending c ++ stream s' ->
      (c <= 0 -> c = EOF /\ stream s' = []) ->
      out s' = out s ++ (if echo then pending c else []) ->
      last_line s' = last_line s ->
      Q c s') ->
  wp (get echo) s Q E T.
Proof.
  intros W H. pose proof (get_pending echo s W) as G.
  destruct (get_ahead echo s) as (s1 & G1 & _ & _ & C1 & _).
  unfold wp in *. rewrite G1 in *.
  destruct G as (W' & P' & S' & E' & O' & L').
  apply H; auto. unfold last_line, char_of in *.
  destruct (Z.leb_spec (hd EOF (ahead s)) 0) as [Hle|Hpos].
  - destruct E' as [_ E2]; [lia|]. rewrite S', E2.
    cbn [pending Z.ltb Z.compare app line_breaks].
    rewrite L'. unfold tick. simpl. lia.
  - rewrite pending_pos in S' by assumption. cbn [app] in S'.
    rewrite S', C1, L'. cbn [line_breaks]. lia.
Qed.

Lemma last_line_nil s : stream s = [] -> last_line s = line_nr s.
Proof. intros E. unfold last_line. rewrite E. simpl. lia. Qed.

Ltac no_eof c :=
  replace (c =? -1) with false by (symmetry; apply Z.eqb_neq; lia).

Lemma regexp_set_text fuel :
  forall s,
    wf s -> (length (stream s) < fuel)%nat ->
    wp (regexp_set fuel false) s
       (fun _ s' =>
          wf s' /\ preview s' = 0 /\ last_line s' = last_line s /\
          (length (stream s') < length (stream s))%nat /\
          exists w,
            stream s = w ++ stream s' /\ out s' = out s ++ w /\
            re_literal true (stream s) = w ++ re_literal false (stream s') /\
            re_closed true (stream s) = re_closed false (stream s') /\
            re_open_set true (stream s) = re_open_set false (stream s'))
       (fun msg s' =>
          msg = "unterminated set in Regular Expression literal." /\
          re_closed true (stream s) = false /\
          re_open_set true (stream s) = true /\
          line_nr s' = last_line s)
       False.
Proof.
  induction fuel as [|fuel IH]; intros s W Hf; [lia|].
  cbn [regexp_set]. apply wp_bind, wp_get_lines; [assumption|].
  intros c s1 W1 P1 S1 E1 O1 L1.
  destruct (Z.leb_spec c 0) as [Hle|Hpos].
  { destruct (E1 Hle) as [-> E1']. cbn [pending Z.ltb Z.compare app] in S1.
    rewrite S1, E1'. cbn [Z.eqb]. apply wp_bind, wp_ret.
    unfold andM. cbn [andb]. apply wp_bind, wp_ret. cbn [Z.eqb Pos.eqb].
    apply wp_error. splits; auto.
    rewrite <- L1. symmetry. apply last_line_nil. assumption. }
  rewrite pending_pos in S1, O1 by assumption. cbn [app] in S1.
  rewrite S1 in Hf |- *. cbn [length] in Hf.
  cbn [re_closed re_literal re_open_set].
  destruct (c =? RBRACKET) eqn:Eb.
  { apply wp_ret. splits; auto; try (cbn [length]; lia).
    exists [c]. splits; auto. }
  destruct (c =? BACKSLASH) eqn:Es.
  - apply wp_bind, wp_get_lines; [assumption|].
    intros c2 s2 W2 P2 S2 E2 O2 L2.
    destruct (Z.leb_spec c2 0) as [Hle2|Hpos2].
    { destruct (E2 Hle2) as [-> E2'].
      cbn [pending Z.ltb Z.compare app] in S2. rewrite S2, E2'.
      unfold andM. cbn [andb]. apply wp_bind, wp_ret. cbn [Z.eqb Pos.eqb].
      apply wp_error. splits; auto.
      rewrite <- L1, <- L2. symmetry. apply last_line_nil. assumption. }
    rewrite pending_pos in S2, O2 by assumption. cbn [app] in S2.
    rewrite S2 in Hf |- *. cbn [length] in Hf.
    unfold andM. cbn [andb]. apply wp_bind, wp_ret. no_eof c2.
    eapply wp_mono; [apply IH | | | auto]; try assumption; try lia.
    + cbv beta. intros _ s' (Wa & Pa & La & Na & w & Sa & Oa & Ra & Ca & Ta).
      splits; auto; try congruence; try (cbn [length]; lia).
      exists (c :: c2 :: w). splits.
      * cbn [app]. rewrite <- Sa. reflexivity.
      * rewrite Oa, O2, O1, <- !app_assoc. reflexivity.
      * cbn [app]. rewrite Ra. reflexivity.
      * assumption.
      * assumption.
    + cbv beta. intros msg s' (Ma & Ca & Ta & La). splits; auto. congruence.
  - apply wp_bind, wp_ret.
    unfold andM. cbn [andb]. apply wp_bind, wp_ret. no_eof c.
    eapply wp_mono; [apply IH | | | auto]; try assumption; try lia.
    + cbv beta. intros _ s' (Wa & Pa & La & Na & w & Sa & Oa & Ra & Ca & Ta).
      splits; auto; try congruence; try (cbn [length]; lia).
      exists (c :: w). splits.
      * cbn [app]. rewrite <- Sa. reflexivity.
      * rewrite Oa, O1, <- !app_assoc. reflexivity.
      * cbn [app]. rewrite Ra. reflexivity.
      * assumption.
      * assumption.
    + cbv beta. intros msg s' (Ma & Ca & Ta & La). splits; auto. congruence.
Qed.

Lemma regexp_loop_text fuel :
  forall was s,
    wf s -> (length (stream s) < fuel)%nat ->
    wp (regexp_loop fuel false was) s
       (fun _ s' =>
          wf s' /\ preview s' = 0 /\
          re_closed false (stream s) = true /\
          stream s = re_literal false (stream s) ++ stream s' /\
          out s' = out s ++ re_literal false (stream s))
       (fun msg s' =>
          re_closed false (stream s) = false /\
          if re_open_set false (stream s)
          then msg = "unterminated set in Regular Expression literal." /\
               line_nr s' = last_line s
          else msg = "unterminated regexp literal." /\ line_nr s' = was)
       False.
Proof.
  induction fuel as [|fuel IH]; intros was s W Hf; [lia|].
  cbn [regexp_loop]. cbv zeta. apply wp_bind, wp_get_lines; [assumption|].
  intros c s1 W1 P1 S1 E1 O1 L1.
  destruct (Z.leb_spec c 0) as [Hle|Hpos].
  { destruct (E1 Hle) as [-> E1']. cbn [pending Z.ltb Z.compare app] in S1.
    rewrite S1, E1'. cbn [Z.eqb].
    unfold andM. cbn [andb]. apply wp_bind, wp_ret. cbn [Z.eqb Pos.eqb].
    apply wp_bind, wp_modify, wp_error.
    cbn [re_closed re_open_set]. splits; reflexivity. }
  rewrite pending_pos in S1, O1 by assumption. cbn [app] in S1.
  rewrite S1 in Hf |- *. cbn [length] in Hf.
  cbn [re_closed re_literal re_open_set].
  destruct (c =? LBRACKET) eqn:Eb.
  { apply wp_bind.
    eapply wp_mono; [apply regexp_set_text | | | auto];
      try assumption; try lia.
    - cbv beta.
      intros _ s2 (W2 & P2 & L2 & N2 & w & S2 & O2 & R2 & C2 & T2).
      unfold andM. cbn [andb]. apply wp_bind, wp_ret. cbn [Z.eqb Pos.eqb].
      eapply wp_mono; [apply IH | | | auto]; try assumption; try lia.
      + cbv beta. intros _ s' (Wa & Pa & Ca & Sa & Oa).
        splits; auto; try congruence.
        * rewrite R2. cbn [app]. rewrite <- app_assoc, <- Sa, <- S2.
          reflexivity.
        * rewrite Oa, O2, O1, R2, <- !app_assoc. reflexivity.
      + cbv beta. intros msg s' (Ca & Ma). split; [congruence|].
        rewrite T2. rewrite <- L1, <- L2. exact Ma.
    - cbv beta. intros msg s' (Ma & Ca & Ta & La). split; [assumption|].
      rewrite Ta. split; [assumption | congruence]. }
  destruct (c =? SLASH) eqn:Es.
  { unfold andM. apply wp_bind, wp_ret. apply wp_ret.
    splits; auto. }
  destruct (c =? BACKSLASH) eqn:Ek.
  - apply wp_bind, wp_get_lines; [assumption|].
    intros c2 s2 W2 P2 S2 E2 O2 L2.
    destruct (Z.leb_spec c2 0) as [Hle2|Hpos2].
    { destruct (E2 Hle2) as [-> E2'].
      cbn [pending Z.ltb Z.compare app] in S2. rewrite S2, E2'.
      unfold andM. cbn [andb]. apply wp_bind, wp_ret. cbn [Z.eqb Pos.eqb].
      apply wp_bind, wp_modify, wp_error.
    cbn [re_closed re_open_set]. splits; reflexivity. }
    rewrite pending_pos in S2, O2 by assumption. cbn [app] in S2.
    rewrite S2 in Hf |- *. cbn [length] in Hf.
    unfold andM. cbn [andb]. apply wp_bind, wp_ret. no_eof c2.
    eapply wp_mono; [apply IH | | | auto]; try assumption; try lia.
    + cbv beta. intros _ s' (Wa & Pa & Ca & Sa & Oa).
      splits; auto.
      * cbn [app]. rewrite <- Sa. reflexivity.
      * rewrite Oa, O2, O1, <- !app_assoc. reflexivity.
    + cbv beta. intros msg s' (Ca & Ma). split; [assumption|].
      rewrite <- L1, <- L2. exact Ma.
  - unfold andM. cbn [andb]. apply wp_bind, wp_ret. no_eof c.
    eapply wp_mono; [apply IH | | | auto]; try assumption; try lia.
    + cbv beta. intros _ s' (Wa & Pa & Ca & Sa & Oa).
      splits; auto.
      * cbn [app]. rewrite <- Sa. reflexivity.
      * rewrite Oa, O1, <- !app_assoc. reflexivity.
    + cbv beta. intros msg s' (Ca & Ma). split; [assumption|].
      rewrite <- L1. exact Ma.
Qed.

(** X8.  At the top level a regexp literal that is closed is read to its
    closing slash and no further, and written as it is: the closing slash
    is the first slash that is neither escaped nor inside a set, a set
    ending at the first right bracket that is not escaped. *)
Theorem regexp_reads_literal fuel s :
  wf s ->
  re_closed false (stream s) = true ->
  (length (stream s) < fuel)%nat ->
  exists s',
    regexp fuel false s = Ok tt s' /\
    stream s = re_literal false (stream s) ++ stream s' /\
    out s' = out s ++ re_literal false (stream s) /\
    preview s' = 0.
Proof.
  intros W Hc Hf.
  pose proof (regexp_loop_text fuel (line_nr s) s W Hf) as K.
  unfold regexp, wp in *.
  destruct (regexp_loop fuel false (line_nr s) s) as [[] s'|msg s'|].
  - destruct K as (_ & P & _ & S & O). exists s'. splits; auto.
  - destruct K as [K _]. congruence.
  - contradiction.
Qed.

Lemma regexp_reads_literal_witness :
  let s := mkState (bytes "[/\]]+\//.test(x)") 0 false 4 (bytes "r = /") in
  exists s',
    regexp 20 false s = Ok tt s' /\
    stream s = re_literal false (stream s) ++ stream s' /\
    out s' = out s ++ re_literal false (stream s) /\
    preview s' = 0.
Proof.
  intros s. apply (regexp_reads_literal 20 s).
  - split; [repeat constructor | simpl; lia].
  - reflexivity.
  - simpl. lia.
Defined.



(** ** Slash-slash comments *)

Lemma line_comment_text fuel :
  forall body tail s,
    wf s -> stream s = body ++ tail ->
    no_break body = true ->
    (tail = [] \/ hd 0 tail = LF \/ hd 0 tail = CR) ->
    (length (stream s) < fuel)%nat ->
    wp (line_comment fuel) s
       (fun _ s' =>
          wf s' /\ preview s' = 0 /\ stream s' = tl tail /\
          out s' = out s ++ body ++ firstn 1 tail)
       (fun _ _ => False) False.
Proof.
  induction fuel as [|fuel IH]; intros body tail s W S Hb Ht Hf; [lia|].
  cbn [line_comment]. apply wp_bind, wp_get_text; [assumption|].
  intros c s1 W1 P1 S1 E1 O1 _.
  destruct (Z.leb_spec c 0) as [Hle|Hpos].
  { destruct (E1 Hle) as [-> E1']. cbn [pending Z.ltb Z.compare app] in S1, O1.
    rewrite S1, E1' in S. symmetry in S. apply app_eq_nil in S.
    destruct S as [-> ->]. cbn [Z.eqb orb]. apply wp_ret.
    splits; auto. }
  rewrite pending_pos in S1, O1 by assumption. cbn [app] in S1.
  rewrite S1 in S, Hf. cbn [length] in Hf. no_eof c. rewrite orb_false_r.
  destruct body as [|b body].
  - cbn [app] in S. destruct tail as [|e tail]; [discriminate S|].
    injection S as <- S. cbn [hd tl firstn app] in *.
    replace ((c =? 10) || (c =? 13)) with true
      by (symmetry; apply orb_true_iff;
          destruct Ht as [Ht|[Ht|Ht]]; [discriminate | left | right];
          apply Z.eqb_eq; assumption).
    apply wp_ret. splits; auto.
  - cbn [app] in S. injection S as <- S.
    cbn [no_break forallb] in Hb. apply andb_true_iff in Hb.
    destruct Hb as [Hc Hb]. apply negb_true_iff in Hc. rewrite Hc.
    eapply wp_mono; [eapply (IH body tail) | | auto | auto];
      try eassumption; try lia.
    cbv beta. intros _ s' (Wa & Pa & Sa & Oa). splits; auto.
    rewrite Oa, O1, <- !app_assoc. reflexivity.
Qed.

(** X10.  A slash-slash comment is written as it is, to the end of its
    line, and nothing in it is looked at: whatever its text holds
    (quotes, slash-stars, tags of the registry), the turn of [process]
    that meets it writes the two slashes, the text and the line break,
    leaves [left] as it was and goes on with the character after the
    line break; the comment may also end with the input. *)
Theorem line_comment_is_inert fuel reg left s body tail :
  wf s -> stream s = SLASH :: body ++ tail ->
  no_break body = true ->
  (tail = [] \/ hd 0 tail = LF \/ hd 0 tail = CR) ->
  (length (stream s) < fuel)%nat ->
  exists c' s',
    process_step fuel reg SLASH left s = Ok (Some (c', left)) s' /\
    out s' = out s ++ SLASH :: SLASH :: body ++ firstn 1 tail /\
    pending c' ++ stream s' = tl tail.
Proof.
  intros W S Hb Ht Hf.
  assert (K : wp (process_step fuel reg SLASH left) s
                 (fun r s' =>
                    exists c', r = Some (c', left) /\
                      out s' = out s ++ SLASH :: SLASH :: body
                                     ++ firstn 1 tail /\
                      pending c' ++ stream s' = tl tail)
                 (fun _ _ => False) False).
  { unfold process_step. cbn [Z.eqb Pos.eqb is_quote orb].
    change (is_quote SLASH) with false. cbv iota.
    apply wp_bind, wp_peek_is_text; [assumption|].
    intros s1 W1 S1 O1 _ _. rewrite S. cbn [hd Z.eqb Pos.eqb].
    apply wp_bind, wp_emit. apply wp_bind.
    assert (We : wf (emitted SLASH s1)) by (apply wf_emitted; assumption).
    assert (H1 : stream (emitted SLASH s1) = (SLASH :: body) ++ tail).
    { rewrite stream_emitted, S1, S. reflexivity. }
    assert (H2 : no_break (SLASH :: body) = true).
    { cbn [no_break forallb]. cbn [Z.eqb Pos.eqb orb negb andb]. exact Hb. }
    assert (H3 : (length (stream (emitted SLASH s1)) < fuel)%nat).
    { rewrite stream_emitted, S1. assumption. }
    eapply wp_mono;
      [exact (line_comment_text fuel (SLASH :: body) tail
                (emitted SLASH s1) We H1 H2 Ht H3) | | auto | auto].
    cbv beta. intros _ s2 (W2 & P2 & S2 & O2).
    apply wp_bind, wp_get_text; [assumption|].
    intros c s3 W3 P3 S3 E3 O3 _. apply wp_ret.
    exists c. splits; auto.
    + rewrite O3, O2, out_emitted, O1, app_nil_r, <- !app_assoc.
      reflexivity.
    + rewrite <- S3, S2. reflexivity. }
  destruct (wp_returns _ _ _ K) as (r & s' & Hr & c' & -> & O & P).
  exists c', s'. splits; auto.
Qed.

Lemma line_comment_is_inert_witness :
  let reg := [(bytes "debug", [])] in
  let s := initial (bytes "/ '/*debug x*/" ++ [LF] ++ bytes "y") in
  exists c' s',
    process_step 20 reg SLASH 0 s = Ok (Some (c', 0)) s' /\
    out s' = out s ++ SLASH :: SLASH :: bytes " '/*debug x*/"
                   ++ firstn 1 ([LF] ++ bytes "y") /\
    pending c' ++ stream s' = tl ([LF] ++ bytes "y").
Proof.
  intros reg s.
  apply (line_comment_is_inert 20 reg 0 s (bytes " '/*debug x*/")
           ([LF] ++ bytes "y")).
  - split; [repeat constructor | simpl; lia].
  - reflexivity.
  - reflexivity.
  - right. left. reflexivity.
  - simpl. lia.
Defined.

(** ** The end of a run *)



(** ** Looking ahead *)

(** X12.  [peek] is transparent: when it returns a value other than 0,
    a second [peek] returns it again and changes nothing, and [get] does
    after it what it does without it; a NUL byte that [peek] reads is
    lost, [get] going on with the byte after it. *)
Theorem peek_is_transparent s c s1 :
  peek s = Ok c s1 ->
  (c <> 0 ->
   peek s1 = Ok c s1 /\ forall echo, get echo s1 = get echo s) /\
  (c = 0 ->
   forall echo, get echo s1 = get echo (set_input (tl (input s)) s)).
Proof.
  destruct s as [inp pv b l o].
  unfold peek, get, bind, fgetc, modify, ret. simpl.
  destruct (Z.eqb_spec pv 0) as [->|Hp].
  - destruct inp as [|a r]; simpl.
    + intros H. injection H as <- <-. split; [|discriminate].
      intros _. split; reflexivity.
    + intros H. injection H as <- <-. split.
      * intros Ha. simpl.
        replace (a =? 0) with false by (symmetry; apply Z.eqb_neq; lia).
        split; reflexivity.
      * intros ->. reflexivity.
  - intros H. injection H as <- <-. split; [|contradiction].
    intros _. simpl.
    replace (pv =? 0) with false by (symmetry; apply Z.eqb_neq; lia).
    split; reflexivity.
Qed.

Lemma peek_is_transparent_witness :
  let s := initial (bytes "ab") in
  let s1 := set_preview 97 (set_input (bytes "b") s) in
  (97 <> 0 ->
   peek s1 = Ok 97 s1 /\ forall echo, get echo s1 = get echo s) /\
  (97 = 0 ->
   forall echo, get echo s1 = get echo (set_input (tl (input s)) s)).
Proof.
  intros s s1. apply (peek_is_transparent s 97 s1). reflexivity.
Defined.

(** ** Line endings: the output *)

Lemma crlf_app a b : crlf (a ++ b) = crlf a ++ crlf b.
Proof. unfold crlf. apply flat_map_app. Qed.

Lemma crlf_nolf l : nolf l -> crlf l = l.
Proof.
  unfold nolf. induction l as [|c r IH]; [reflexivity|].
  cbn [forallb]. intros H. apply andb_true_iff in H. destruct H as [H1 H2].
  apply negb_true_iff in H1. rewrite crlf_cons, H1, IH by assumption.
  reflexivity.
Qed.

Lemma crlf_one c : c <> LF -> crlf [c] = [c].
Proof.
  intros H. apply crlf_nolf. unfold nolf. cbn [forallb].
  replace (c =? 10) with false by (symmetry; apply Z.eqb_neq; lia).
  reflexivity.
Qed.

Lemma get_out echo s c s' :
  get echo s = Ok c s' -> out s' = out s ++ (if echo then pending c else []).
Proof.
  destruct (get_spec echo s) as (c1 & s1 & G & P). rewrite G.
  intros H. injection H as <- <-.
  destruct P as [c1 s1 Hc _ _ _ _ O _|s1 _ _ _ _ _ O _].
  - rewrite pending_pos by assumption. exact O.
  - rewrite O. destruct echo; cbn; rewrite app_nil_r; reflexivity.
Qed.

Lemma peek_is_out ch s b s' : peek_is ch s = Ok b s' -> out s' = out s.
Proof.
  destruct (peek_spec s) as (c & s1 & P & Q).
  unfold peek_is, bind. rewrite P. unfold ret.
  intros H. injection H as _ <-. destruct Q; assumption.
Qed.

Lemma relo_get e s t :
  simo s t ->
  rel (get e) (get e) s t
      (fun c s' c' t' => goto e c s' c' t' /\ head_is s c).
Proof.
  intros [Hs Ho]. pose proof (rel_get_head e e s t Hs) as R.
  unfold rel in *.
  destruct (get e s) as [c s'|msg s'|] eqn:G1;
    destruct (get e t) as [c' t'|msg' t'|] eqn:G2; auto.
  destruct R as [(P & P' & R) Hh]. split; [|assumption].
  pose proof (get_out _ _ _ _ G1) as O1.
  pose proof (get_out _ _ _ _ G2) as O2.
  unfold goto. splits; auto.
  destruct R as [(-> & -> & R)|[(Hc & Hlf & Hcr & -> & R)|(-> & -> & R)]].
  - left. splits; auto. split; [assumption|].
    destruct e; cbn in O1, O2; rewrite app_nil_r in O1, O2; congruence.
  - right. left. splits; auto. split; [assumption|].
    rewrite pending_pos in O1, O2 by assumption.
    destruct e.
    + rewrite O1, O2, crlf_app, crlf_one, Ho by assumption. reflexivity.
    + rewrite app_nil_r in O1, O2. congruence.
  - right. right. splits; auto. split; [assumption|].
    destruct e; cbn in O1, O2.
    + rewrite O1, O2, crlf_app, Ho, <- app_assoc. reflexivity.
    + rewrite app_nil_r in *. congruence.
Qed.

Lemma lago_get e s t :
  lago e s t ->
  exists t', get e t = Ok LF t' /\ simo s t' /\ preview t' = 0.
Proof.
  intros [Hl Ho]. destruct (lag_get e s t Hl) as (t' & G & Hs & P).
  exists t'. splits; auto. split; [assumption|].
  rewrite (get_out _ _ _ _ G). destruct e; cbn.
  - symmetry. exact Ho.
  - rewrite app_nil_r in *. symmetry. exact Ho.
Qed.

Lemma relo_peek_is ch s t :
  0 < ch -> ch <> LF -> ch <> CR -> simo s t ->
  rel (peek_is ch) (peek_is ch) s t
      (fun b s' b' t' => b' = b /\ simo s' t' /\
                         (b = true -> head_is s' ch)).
Proof.
  intros H0 H1 H2 [Hs Ho].
  pose proof (rel_peek_is ch s t H0 H1 H2 Hs) as R. unfold rel in *.
  destruct (peek_is ch s) as [b s'|msg s'|] eqn:G1;
    destruct (peek_is ch t) as [b' t'|msg' t'|] eqn:G2; auto.
  destruct R as (E & R & Hh). splits; auto. split; [assumption|].
  rewrite (peek_is_out _ _ _ _ G1), (peek_is_out _ _ _ _ G2). exact Ho.
Qed.

Lemma lago_peek_is e ch s t :
  ch <> LF -> lago e s t ->
  exists t', peek_is ch t = Ok false t' /\ lago e s t'.
Proof.
  intros H1 [Hl Ho]. destruct (lag_peek_is ch s t H1 Hl) as (t' & P & L).
  exists t'. split; [assumption|]. split; [assumption|].
  rewrite (peek_is_out _ _ _ _ P). exact Ho.
Qed.

Lemma simo_emitted c s t :
  c <> LF -> simo s t -> simo (emitted c s) (emitted c t).
Proof.
  intros Hc [Hs Ho]. split; [apply sim_emitted; assumption|].
  rewrite !out_emitted, crlf_app, Ho.
  destruct (0 <? c); [rewrite crlf_one by assumption|]; reflexivity.
Qed.

Lemma simo_write l s t :
  crlf l = l -> simo s t -> simo (write l s) (write l t).
Proof.
  intros Hl [Hs Ho]. split; [apply sim_write; assumption|].
  cbn [out write]. rewrite crlf_app, Ho, Hl. reflexivity.
Qed.

Lemma simo_line s t : simo s t -> line_nr s = line_nr t.
Proof. intros [H _]. apply sim_line. exact H. Qed.

Lemma lago_line e s t : lago e s t -> line_nr s = line_nr t.
Proof. intros [H _]. apply lag_line. exact H. Qed.

Lemma simo_set_line_nr n s t :
  simo s t -> simo (set_line_nr n s) (set_line_nr n t).
Proof.
  intros [Hs Ho]. split; [apply sim_set_line_nr; assumption | exact Ho].
Qed.

Lemma relo_orM_peeks a b s t :
  0 < a -> a <> LF -> a <> CR -> 0 < b -> b <> LF -> b <> CR -> simo s t ->
  rel (orM (peek_is a) (peek_is b)) (orM (peek_is a) (peek_is b)) s t
      (fun r s' r' t' => r' = r /\ simo s' t').
Proof.
  intros Ha0 Ha Ha' Hb0 Hb Hb' Hs. unfold orM.
  eapply rel_bind; [apply relo_peek_is; assumption|].
  cbv beta. intros r s' r' t' (-> & Hs' & _).
  destruct r.
  - apply rel_ret. auto.
  - eapply rel_mono; [apply relo_peek_is; assumption|].
    cbv beta. intros r1 s1 r1' t1 (-> & Hs1 & _). auto.
Qed.

(** One step of two runs in [simo]. *)
Ltac relo_step1 :=
  lazymatch goal with
  | |- rel (bind (get _) _) (bind (get _) _) _ _ _ =>
      let G := fresh "G" in
      eapply rel_bind; [apply relo_get; assumption|];
      intros ? ? ? ? G;
      destruct G as
        ((? & ? & [(? & ? & ?)|[(? & ? & ? & ? & ?)|(? & ? & ?)]]) & ?);
      subst; tests
  | |- rel (bind (peek_is _) _) (bind (peek_is _) _) _ _ _ =>
      let G := fresh "G" in
      let Hp := fresh "Hp" in
      let b := fresh "b" in
      eapply rel_bind; [apply relo_peek_is; [lia | lia | lia | assumption]|];
      intros b ? ? ? G; destruct G as (? & ? & Hp); subst;
      destruct b; [specialize (Hp eq_refl) | clear Hp]
  | |- rel (bind (ret _) _) (bind (ret _) _) _ _ _ =>
      apply rel_bind_ret
  | |- rel (bind (emit ?c) _) (bind (emit ?c) _) ?s ?t _ =>
      apply rel_bind_emit;
      match goal with
      | H : simo s t |- _ => apply (simo_emitted c) in H; [|lia]
      end
  | |- rel (bind (emits ?l) _) (bind (emits ?l) _) ?s ?t _ =>
      apply rel_bind_modify;
      match goal with
      | H : simo s t |- _ =>
          apply (simo_write l) in H; [|first [reflexivity | assumption]]
      end
  | |- rel (bind (modify (set_line_nr _)) _)
           (bind (modify (set_line_nr _)) _) _ _ _ =>
      apply rel_bind_modify
  | |- rel (bind (andM _ _) _) (bind (andM _ _) _) _ _ _ =>
      unfold andM
  | |- rel (bind (orM _ _) _) (bind (orM _ _) _) _ _ _ =>
      let G := fresh "G" in
      eapply rel_bind;
      [apply relo_orM_peeks;
       [lia | lia | lia | lia | lia | lia | assumption]|];
      intros ? ? ? ? G; destruct G as (? & ?); subst
  | |- rel (bind (if ?b then _ else _) _) (bind (if ?b then _ else _) _) _ _ _ =>
      let B := fresh "B" in destruct b eqn:B; tests
  | |- rel (if ?b then _ else _) (if ?b then _ else _) _ _ _ =>
      let B := fresh "B" in destruct b eqn:B; tests
  | |- rel (ret _) (ret _) _ _ _ => apply rel_ret
  | |- rel (error _) (error _) _ _ _ => apply rel_error
  end.

Ltac relo_step := relo_step1; cbv beta; tests.

Ltac relo_close IH :=
  first [ assumption
        | apply simo_line; assumption
        | eapply lago_line; eassumption
        | reflexivity
        | solve [apply IH; auto]
        | solve [exfalso; unfold head_is in *; zb;
                 first [discriminate | lia | congruence]] ].

Lemma string_loop_simo ft :
  forall fs quote in_comment was s t,
    SPACE < quote -> simo s t \/ lago true s t ->
    rel (string_loop fs quote in_comment was)
        (string_loop ft quote in_comment was) s t
        (fun _ s' _ t' => simo s' t').
Proof.
  induction ft as [|n IH]; intros fs quote in_comment was s t Hq Hm.
  { apply rel_timeout_r. }
  destruct Hm as [Hm|Hm].
  - destruct fs as [|m]; [apply rel_timeout_l|].
    cbn [string_loop].
    repeat relo_step; relo_close IH.
  - destruct (lago_get true s t Hm) as (t' & G & Hs & _).
    eapply rel_rewrite_r; [apply string_loop_LF; eassumption|].
    apply IH; auto.
Qed.

Lemma string_simo fs ft quote in_comment s t :
  SPACE < quote -> simo s t ->
  rel (string fs quote in_comment) (string ft quote in_comment) s t
      (fun _ s' _ t' => simo s' t').
Proof.
  intros Hq Hs.
  change (rel (string_loop fs quote in_comment (line_nr s))
              (string_loop ft quote in_comment (line_nr t)) s t
              (fun _ s' _ t' => simo s' t')).
  rewrite <- (simo_line s t Hs). apply string_loop_simo; auto.
Qed.

Lemma regexp_set_simo ft :
  forall fs in_comment s t,
    simo s t \/ lago true s t ->
    rel (regexp_set fs in_comment) (regexp_set ft in_comment) s t
        (fun _ s' _ t' => simo s' t').
Proof.
  induction ft as [|n IH]; intros fs in_comment s t Hm.
  { apply rel_timeout_r. }
  destruct Hm as [Hm|Hm].
  - destruct fs as [|m]; [apply rel_timeout_l|].
    cbn [regexp_set].
    repeat relo_step; relo_close IH.
  - destruct (lago_get true s t Hm) as (t' & G & Hs & _).
    eapply rel_rewrite_r; [apply regexp_set_LF; eassumption|].
    apply IH; auto.
Qed.

Lemma regexp_loop_simo ft :
  forall fs in_comment was s t,
    simo s t \/ lago true s t ->
    rel (regexp_loop fs in_comment was) (regexp_loop ft in_comment was) s t
        (fun _ s' _ t' => simo s' t').
Proof.
  induction ft as [|n IH]; intros fs in_comment was s t Hm.
  { apply rel_timeout_r. }
  destruct Hm as [Hm|Hm].
  - destruct fs as [|m]; [apply rel_timeout_l|].
    cbn [regexp_loop]. cbv zeta.
    repeat (relo_step
            || (eapply rel_bind;
                [apply regexp_set_simo; left; assumption|];
                cbv beta; intros ? ? ? ? ?; tests));
      relo_close IH.
  - destruct (lago_get true s t Hm) as (t' & G & Hs & _).
    eapply rel_rewrite_r; [apply regexp_loop_LF; eassumption|].
    apply IH; auto.
Qed.

Lemma regexp_simo fs ft in_comment s t :
  simo s t ->
  rel (regexp fs in_comment) (regexp ft in_comment) s t
      (fun _ s' _ t' => simo s' t').
Proof.
  intros Hs.
  change (rel (regexp_loop fs in_comment (line_nr s))
              (regexp_loop ft in_comment (line_nr t)) s t
              (fun _ s' _ t' => simo s' t')).
  rewrite <- (simo_line s t Hs). apply regexp_loop_simo; auto.
Qed.

Ltac relo_call :=
  lazymatch goal with
  | |- rel (bind (string _ _ _) _) (bind (string _ _ _) _) _ _ _ =>
      eapply rel_bind;
      [apply string_simo; [apply is_quote_above; assumption | assumption]|];
      cbv beta; intros ? ? ? ? ?; tests
  | |- rel (bind (regexp _ _) _) (bind (regexp _ _) _) _ _ _ =>
      eapply rel_bind; [apply regexp_simo; assumption|];
      cbv beta; intros ? ? ? ? ?; tests
  end.

Lemma condition_loop_simo ft :
  forall fs left paren s t,
    simo s t \/ lago true s t ->
    rel (condition_loop fs left paren) (condition_loop ft left paren) s t
        (fun _ s' _ t' => simo s' t').
Proof.
  induction ft as [|n IH]; intros fs left paren s t Hm.
  { apply rel_timeout_r. }
  destruct Hm as [Hm|Hm].
  - destruct fs as [|m]; [apply rel_timeout_l|].
    cbn [condition_loop]. cbv zeta.
    repeat (relo_step || relo_call); relo_close IH.
  - destruct (lago_get true s t Hm) as (t' & G & Hs & _).
    eapply rel_rewrite_r; [apply condition_loop_LF; eassumption|].
    apply IH; auto.
Qed.

Lemma line_comment_simo ft :
  forall fs s t,
    simo s t ->
    rel (line_comment fs) (line_comment ft) s t
        (fun _ s' _ t' => simo s' t' \/ lago true s' t').
Proof.
  induction ft as [|n IH]; intros fs s t Hm.
  { apply rel_timeout_r. }
  destruct fs as [|m]; [apply rel_timeout_l|].
  cbn [line_comment].
  repeat relo_step; auto; relo_close IH.
Qed.

Lemma skip_spaces_simo ft :
  forall fs s t,
    simo s t ->
    rel (skip_spaces fs) (skip_spaces ft) s t
        (fun _ s' _ t' => simo s' t').
Proof.
  induction ft as [|n IH]; intros fs s t Hm.
  { apply rel_timeout_r. }
  destruct fs as [|m]; [apply rel_timeout_l|].
  cbn [skip_spaces].
  repeat relo_step; auto; relo_close IH.
Qed.

Lemma stuff_stars_simo ft :
  forall fs paren s t,
    simo s t ->
    rel (stuff_stars fs paren) (stuff_stars ft paren) s t
        (fun b s' b' t' => b' = b /\ simo s' t').
Proof.
  induction ft as [|n IH]; intros fs paren s t Hm.
  { apply rel_timeout_r. }
  destruct fs as [|m]; [apply rel_timeout_l|].
  cbn [stuff_stars].
  repeat relo_step; try split; relo_close IH.
Qed.

Lemma stuff_iter_simo fs ft left paren s t :
  simo s t ->
  rel (stuff_iter fs left paren) (stuff_iter ft left paren) s t
      (fun r s' r' t' =>
         r' = r /\
         match r with
         | None => simo s' t'
         | Some _ => simo s' t' \/ lago true s' t'
         end).
Proof.
  intros Hm. unfold stuff_iter.
  eapply rel_bind; [apply stuff_stars_simo; assumption|].
  cbv beta. intros b s' b' t' [-> Hs].
  destruct b.
  { apply rel_ret. auto. }
  cbv zeta.
  repeat (relo_step || relo_call); try split; auto;
    try solve [exfalso; zb; first [discriminate | lia | congruence]];
    relo_close stuff_stars_simo.
Qed.

Lemma stuff_loop_LFo s t :
  lago true s t ->
  exists t', simo s t' /\
    forall n left paren,
      stuff_loop (S (S n)) left paren t = stuff_loop (S n) left paren t'.
Proof.
  intros Hm.
  destruct (lago_peek_is true STAR s t) as (t1 & P & H1); [lia|assumption|].
  destruct (lago_get true s t1 H1) as (t' & G & Hs & _).
  exists t'. split; [assumption|]. intros n left paren.
  cbn [stuff_loop]. unfold stuff_iter. cbn [stuff_stars].
  unfold bind at 1. unfold bind at 1. unfold bind at 1. rewrite P.
  unfold ret at 1. cbv iota. unfold bind at 1. rewrite G.
  cbv zeta. tests. unfold ret. reflexivity.
Qed.

Lemma stuff_loop_simo ft :
  forall fs left paren s t,
    simo s t \/ lago true s t ->
    rel (stuff_loop fs left paren) (stuff_loop ft left paren) s t
        (fun _ s' _ t' => simo s' t').
Proof.
  induction ft as [|n IH]; intros fs left paren s t Hm.
  { apply rel_timeout_r. }
  destruct Hm as [Hm|Hm].
  - destruct fs as [|m]; [apply rel_timeout_l|].
    cbn [stuff_loop].
    eapply rel_bind; [apply stuff_iter_simo; assumption|].
    cbv beta. intros r s' r' t' [-> Hs].
    destruct r as [[l p]|]; [|apply rel_ret; assumption].
    apply IH. assumption.
  - destruct n as [|n].
    { apply rel_timeout_right. reflexivity. }
    destruct (stuff_loop_LFo s t Hm) as (t' & Hs & E).
    eapply rel_rewrite_r; [apply E|].
    apply IH. auto.
Qed.

Lemma stuff_simo fs ft s t :
  simo s t ->
  rel (stuff fs) (stuff ft) s t (fun _ s' _ t' => simo s' t').
Proof.
  intros Hm. unfold stuff.
  eapply rel_bind; [apply skip_spaces_simo; assumption|].
  cbv beta. intros _ s' _ t' Hs.
  apply stuff_loop_simo. auto.
Qed.

Lemma condition_simo fs ft s t :
  simo s t ->
  rel (condition fs) (condition ft) s t (fun _ s' _ t' => simo s' t').
Proof.
  intros Hm. unfold condition. apply condition_loop_simo. auto.
Qed.

Ltac relo_call2 :=
  lazymatch goal with
  | |- rel (bind (bind _ _) _) (bind (bind _ _) _) _ _ _ =>
      apply rel_assoc; cbv beta
  | |- rel (bind (condition _) _) (bind (condition _) _) _ _ _ =>
      eapply rel_bind; [apply condition_simo; assumption|];
      cbv beta; intros ? ? ? ? ?
  | |- rel (bind (stuff _) _) (bind (stuff _) _) _ _ _ =>
      eapply rel_bind; [apply stuff_simo; assumption|];
      cbv beta; intros ? ? ? ? ?
  | |- rel (emits _) (emits _) _ _ _ => apply rel_modify
  end.

Lemma nolf_method_of reg tag_nr :
  nolf_methods reg -> crlf (method_of reg tag_nr) = method_of reg tag_nr.
Proof.
  intros H. apply crlf_nolf. unfold method_of.
  destruct (nth_in_or_default (Z.to_nat tag_nr) reg ([], [])) as [Hi| ->].
  - apply H. exact Hi.
  - reflexivity.
Qed.

Lemma expand_simo fs ft reg tag_nr s t :
  nolf_methods reg -> simo s t ->
  rel (expand fs reg tag_nr) (expand ft reg tag_nr) s t
      (fun _ s' _ t' => simo s' t').
Proof.
  intros Hr Hm. unfold rel. rewrite !expand_eq. fold (rel
    (b <- peek_is LPAREN ;;
     (if b
      then emits (bytes "if ") ;;; condition fs ;;; emit SPACE ;;; ret tt
      else ret tt) ;;;
     emit LBRACE ;;;
     match method_of reg tag_nr with
     | [] => stuff fs ;;; emit RBRACE ;;; ret tt
     | m => emits m ;;; emit LPAREN ;;; stuff fs ;;; emits (bytes ");}")
     end)
    (b <- peek_is LPAREN ;;
     (if b
      then emits (bytes "if ") ;;; condition ft ;;; emit SPACE ;;; ret tt
      else ret tt) ;;;
     emit LBRACE ;;;
     match method_of reg tag_nr with
     | [] => stuff ft ;;; emit RBRACE ;;; ret tt
     | m => emits m ;;; emit LPAREN ;;; stuff ft ;;; emits (bytes ");}")
     end) s t (fun _ s' _ t' => simo s' t')).
  pose proof (nolf_method_of reg tag_nr Hr) as Hn.
  relo_step;
  destruct (method_of reg tag_nr) as [|a m];
    repeat (relo_step || relo_call2);
    first [ assumption
          | apply simo_emitted; [lia | assumption]
          | apply simo_write; [reflexivity | assumption] ].
Qed.

Lemma goto_got e c s c' t : goto e c s c' t -> got c s c' t.
Proof.
  intros (P & P' & [(H1 & H2 & [H3 _])|[(H1 & H2 & H3 & H4 & [H5 _])
                                        |(H1 & H2 & [H3 _])]]);
    unfold got; splits; auto.
  right. left. auto.
Qed.

Lemma unget_goto c s c' t :
  goto false c s c' t ->
  chr c c' /\ simo (set_preview c s) (set_preview c' t).
Proof.
  intros G. destruct (unget_got c s c' t (goto_got _ _ _ _ _ G)) as [H1 H2].
  split; [assumption|]. split; [assumption|].
  destruct G as (_ & _ & [(_ & _ & [_ O])|[(_ & _ & _ & _ & [_ O])
                                           |(_ & _ & [_ O])]]);
    cbn [out set_preview]; try exact O.
  rewrite app_nil_r in O. symmetry. exact O.
Qed.

Lemma read_tag_simo n :
  forall tag c c' s t,
    goto false c s c' t -> simo s t -> crlf tag = tag ->
    rel (read_tag n tag c) (read_tag n tag c') s t
        (fun r s' r' t' =>
           fst r' = fst r /\ goto false (snd r) s' (snd r') t' /\
           crlf (fst r) = fst r).
Proof.
  induction n as [|n IH]; intros tag c c' s t Hg Hm Ht.
  { apply rel_ret. auto. }
  cbn [read_tag].
  eapply rel_bind; [apply relo_get; eassumption|].
  cbv beta. intros c1 s1 c1' t1 [G _].
  pose proof G as G0.
  destruct G as
    (? & ? & [(-> & -> & ?)|[(? & ? & ? & -> & ?)|(-> & -> & ?)]]);
    tests.
  - apply rel_ret. auto.
  - destruct (is_alphanum c1).
    + apply IH; try assumption.
      rewrite crlf_app, Ht, crlf_one by assumption. reflexivity.
    + apply rel_ret. auto.
  - apply rel_ret. auto.
Qed.

Lemma candidate_simo c s t :
  0 < c -> c <> LF -> c <> CR ->
  simo s t -> head_is s STAR ->
  rel (candidate c) (candidate c) s t
      (fun r s' r' t' =>
         fst r' = fst r /\ chr (snd r) (snd r') /\ simo s' t' /\
         crlf (fst r) = fst r).
Proof.
  intros H1 H2 H3 Hm Hh. unfold candidate.
  eapply rel_bind; [apply relo_get; eassumption|].
  cbv beta. intros c1 s1 c1' t1 [G Hc].
  unfold head_is in *.
  assert (Hs : simo s1 t1).
  { destruct G as
      (? & ? & [(-> & -> & ?)|[(? & ? & ? & -> & ?)|(-> & -> & ?)]]);
      try assumption.
    exfalso. congruence. }
  destruct G as (P & P' & _).
  eapply rel_bind.
  { apply read_tag_simo; [|eassumption|reflexivity].
    unfold goto. splits; auto. right. left. splits; auto. }
  cbv beta. intros r s' r' t' (E & G & Ht).
  unfold unget. apply rel_bind_modify. apply rel_ret.
  destruct (unget_goto _ _ _ _ G). auto.
Qed.

Lemma goto_hande c s c' t : goto true c s c' t -> hande c s c' t.
Proof.
  intros (_ & _ & [(-> & -> & H)|[(_ & _ & _ & -> & H)|(-> & -> & H)]]).
  - left. split; [left; reflexivity | assumption].
  - left. split; [left; reflexivity | assumption].
  - right. left. auto.
Qed.

Lemma goto_handp c s c' t : goto false c s c' t -> handp c s c' t.
Proof.
  intros (_ & _ & [(-> & -> & H)|[(_ & Hc & _ & -> & H)|(-> & -> & H)]]).
  - left. splits; auto. lia.
  - left. splits; auto.
  - right. left. auto.
Qed.

Lemma goto_behind e s0 t c s :
  simo s0 t -> get e s0 = Ok c s ->
  exists c' t', get e t = Ok c' t' /\ goto e c s c' t'.
Proof.
  intros Hm G. pose proof (relo_get e s0 t Hm) as R.
  destruct (get_spec e t) as (c' & t' & G' & _).
  unfold rel in R. rewrite G, G' in R. destruct R as [R _]. eauto.
Qed.

Lemma relo_get_hande s t :
  simo s t -> rel (get true) (get true) s t hande.
Proof.
  intros Hm. eapply rel_mono; [apply relo_get; eassumption|].
  intros c s' c' t' [H _]. apply goto_hande. exact H.
Qed.

Lemma relo_get_handp s t :
  simo s t -> rel (get false) (get false) s t handp.
Proof.
  intros Hm. eapply rel_mono; [apply relo_get; eassumption|].
  intros c s' c' t' [H _]. apply goto_handp. exact H.
Qed.

Lemma lago_get_hande s t :
  lago true s t -> rel (get true) (get true) s t hande.
Proof.
  intros Hm. destruct (lago_get true s t Hm) as (t' & G' & Hs & _).
  destruct (get_spec true s) as (c & s' & G & _).
  unfold rel. rewrite G, G'. right. right. split; [reflexivity|].
  exists s. auto.
Qed.

Lemma lag_get_handp s t :
  lag s t -> crlf (out s) = out t ++ [LF] ->
  rel (get false) (get false) s t handp.
Proof.
  intros Hm Ho. destruct (lag_get false s t Hm) as (t' & G' & Hs & _).
  destruct (get_spec false s) as (c & s' & G & _).
  unfold rel. rewrite G, G'. right. right. split; [reflexivity|].
  exists s. splits; auto.
  rewrite (get_out _ _ _ _ G'). cbn. rewrite app_nil_r. exact Ho.
Qed.

Ltac hande_tac :=
  first [ assumption
        | apply goto_hande; assumption
        | left; split; [left; reflexivity | assumption]
        | left; split; [right; split; reflexivity | assumption]
        | right; left; splits; auto; fail ].

Lemma echo_comment_simo ft :
  forall fs c c' s t,
    hande c s c' t ->
    rel (echo_comment fs c) (echo_comment ft c') s t
        (fun _ s' _ t' => simo s' t').
Proof.
  induction ft as [|n IH]; intros fs c c' s t Hh.
  { apply rel_timeout_r. }
  destruct Hh as [[Hc Hm]|[(-> & -> & Hm)|(-> & s0 & Hm & G)]].
  - destruct fs as [|m]; [apply rel_timeout_l|].
    cbn [echo_comment].
    destruct Hc as [->|[-> ->]]; tests;
      repeat relo_step;
      first [ relo_close IH | apply IH; hande_tac ].
  - destruct fs as [|m]; [apply rel_timeout_l|].
    cbn [echo_comment]. tests.
    eapply rel_bind; [apply lago_get_hande; assumption|].
    cbv beta. intros c1 s1 c1' t1 H. apply IH. assumption.
  - destruct (goto_behind true s0 t c s Hm G) as (c1 & t1 & G' & Hg).
    eapply rel_rewrite_r; [apply echo_comment_LF; eassumption|].
    apply IH. apply goto_hande. assumption.
Qed.

Lemma block_comment_simo fs ft reg c s t :
  nolf_methods reg ->
  0 < c -> c <> LF -> c <> CR ->
  simo s t -> head_is s STAR ->
  rel (block_comment fs reg c) (block_comment ft reg c) s t handp.
Proof.
  intros Hr H1 H2 H3 Hm Hh. unfold block_comment.
  eapply rel_bind; [apply candidate_simo; assumption|].
  cbv beta. intros [tag c1] s' [tag' c1'] t' (E & Hc & Hs & Ht).
  cbn [fst snd] in *. subst tag'. cbv zeta.
  destruct (0 <=? (if (length tag =? 0)%nat then -1 else match_ tag reg)).
  - eapply rel_bind; [apply expand_simo; assumption|].
    cbv beta. intros _ s1 _ t1 Hs1. apply relo_get_handp. assumption.
  - apply rel_bind_modify. apply rel_bind_modify.
    eapply rel_bind.
    { apply echo_comment_simo. left. split; [assumption|].
      apply simo_write; [assumption|].
      apply simo_write; [reflexivity | assumption]. }
    cbv beta. intros _ s1 _ t1 Hs1. apply relo_get_handp. assumption.
Qed.

Lemma lone_slash_simo fs ft left s t :
  simo s t ->
  rel (lone_slash fs left) (lone_slash ft left) s t handp.
Proof.
  intros Hm. unfold lone_slash.
  apply rel_bind_emit.
  apply (simo_emitted SLASH) in Hm; [|lia].
  destruct (pre_regexp left).
  - eapply rel_bind; [apply regexp_simo; assumption|].
    cbv beta. intros _ s1 _ t1 Hs1. apply relo_get_handp. assumption.
  - apply rel_bind_ret. apply relo_get_handp. assumption.
Qed.

Lemma process_step_simo fs ft reg c c' left s t :
  nolf_methods reg ->
  (c' = c /\ c <> LF /\ simo s t) \/ (c = LF /\ c' = CR /\ lago false s t) ->
  rel (process_step fs reg c left) (process_step ft reg c' left) s t turno.
Proof.
  intros Hr [(-> & Hlf & Hm)|(-> & -> & Hm)].
  - unfold process_step.
    destruct (Z.eqb_spec c EOF) as [E|E].
    { apply rel_ret. destruct Hm as [_ Ho]. exact Ho. }
    destruct (is_quote c) eqn:Q.
    { apply rel_bind_emit. apply (simo_emitted c) in Hm; [|assumption].
      eapply rel_bind;
        [apply string_simo; [apply is_quote_above; assumption | auto]|].
      cbv beta. intros _ s1 _ t1 Hs1. apply rel_ret.
      split; [reflexivity|]. left. splits; auto. lia. }
    destruct (Z.eqb_spec c SLASH) as [S|S].
    + subst c.
      eapply rel_bind; [apply relo_peek_is; [lia | lia | lia | assumption]|].
      cbv beta. intros b s1 b' t1 (-> & Hs1 & Hb).
      destruct b.
      { apply rel_bind_emit. apply (simo_emitted SLASH) in Hs1; [|lia].
        eapply rel_bind; [apply line_comment_simo; assumption|].
        cbv beta. intros _ s2 _ t2 [Hs2|[Hs2 Ho2]].
        - eapply rel_bind; [apply relo_get_handp; assumption|].
          cbv beta. intros c1 s3 c1' t3 Hh. apply rel_ret.
          split; [reflexivity | assumption].
        - eapply rel_bind; [apply lag_get_handp; assumption|].
          cbv beta. intros c1 s3 c1' t3 Hh. apply rel_ret.
          split; [reflexivity | assumption]. }
      eapply rel_bind; [apply relo_peek_is; [lia | lia | lia | assumption]|].
      cbv beta. intros b2 s2 b2' t2 (-> & Hs2 & Hb2).
      destruct b2.
      { eapply rel_bind.
        - apply block_comment_simo; try lia; try assumption.
          apply Hb2. reflexivity.
        - cbv beta. intros c1 s3 c1' t3 Hh. apply rel_ret.
          split; [reflexivity | assumption]. }
      eapply rel_bind; [apply lone_slash_simo; assumption|].
      cbv beta. intros c1 s3 c1' t3 Hh. apply rel_ret.
      split; [reflexivity | assumption].
    + apply rel_bind_emit. apply (simo_emitted c) in Hm; [|assumption].
      eapply rel_bind; [apply relo_get_handp; assumption|].
      cbv beta. intros c1 s3 c1' t3 Hh. apply rel_ret.
      split; [reflexivity | assumption].
  - unfold process_step. tests.
    apply rel_bind_emit. destruct Hm as [Hl Ho].
    eapply rel_bind.
    { apply lag_get_handp.
      - apply lag_emitted. exact Hl.
      - rewrite !out_emitted. cbn. rewrite crlf_app, Ho, app_nil_r.
        rewrite <- app_assoc. reflexivity. }
    cbv beta. intros c1 s3 c1' t3 Hh. apply rel_ret.
    split; [reflexivity | assumption].
Qed.

Lemma process_loop_simo reg ft :
  nolf_methods reg ->
  forall fs c c' left s t,
    handp c s c' t ->
    rel (process_loop fs reg c left) (process_loop ft reg c' left) s t
        (fun _ s' _ t' => out t' = crlf (out s')).
Proof.
  intros Hr.
  induction ft as [|n IH]; intros fs c c' left s t Hh.
  { apply rel_timeout_r. }
  destruct Hh as [Hh|[Hh|(-> & s0 & Hm & Ho & G)]].
  - destruct fs as [|m]; [apply rel_timeout_l|].
    cbn [process_loop].
    eapply rel_bind; [apply process_step_simo; [assumption | left; exact Hh]|].
    cbv beta. intros [[c1 l1]|] s1 [[c1' l1']|] t1 H;
      try contradiction.
    + destruct H as [-> H]. apply IH. assumption.
    + apply rel_ret. exact H.
  - destruct fs as [|m]; [apply rel_timeout_l|].
    cbn [process_loop].
    eapply rel_bind; [apply process_step_simo; [assumption | right; exact Hh]|].
    cbv beta. intros [[c1 l1]|] s1 [[c1' l1']|] t1 H;
      try contradiction.
    + destruct H as [-> H]. apply IH. assumption.
    + apply rel_ret. exact H.
  - assert (Hs : simo s0 (emitted LF t)).
    { split; [apply (sim_emitted 0 LF); assumption|].
      rewrite out_emitted. cbn. symmetry. exact Ho. }
    destruct (goto_behind false s0 (emitted LF t) c s Hs G)
      as (c1 & t1 & G' & Hg).
    eapply rel_rewrite_r; [apply process_loop_LF; eassumption|].
    apply IH. apply goto_handp. assumption.
Qed.

Lemma process_simo fs ft reg s t :
  nolf_methods reg -> simo s t ->
  rel (process fs reg) (process ft reg) s t
      (fun _ s' _ t' => out t' = crlf (out s')).
Proof.
  intros Hr Hm. unfold process. apply rel_bind_modify.
  apply (simo_set_line_nr 1) in Hm.
  eapply rel_bind; [apply relo_get_handp; assumption|].
  cbv beta. intros c s1 c' t1 Hh. apply process_loop_simo; assumption.
Qed.

(** Two results with the same output, line endings apart. *)
Lemma rel_output {A B} (m1 : M A) (m2 : M B) s t :
  rel m1 m2 s t (fun _ s' _ t' => out t' = crlf (out s')) ->
  m1 s <> Timeout -> m2 t <> Timeout ->
  output (m2 t) = option_map crlf (output (m1 s)).
Proof.
  unfold rel. destruct (m1 s) as [a s'|msg s'|];
    destruct (m2 t) as [b t'|msg' t'|]; intros H H1 H2;
    try contradiction; try congruence; try reflexivity.
  cbn. rewrite H. reflexivity.
Qed.

Lemma nolf_declarations decls :
  forallb is_declaration decls = true -> nolf_methods decls.
Proof.
  intros H d Hd. rewrite forallb_forall in H.
  destruct (is_declaration_spec d (H d Hd)) as (_ & _ & Hm & _).
  unfold nolf. rewrite forallb_forall in *. intros b Hb.
  specialize (Hm b Hb). apply negb_true_iff, Z.eqb_neq.
  intros ->. discriminate Hm.
Qed.

(** X13.  Line endings are kept: on an input with a carriage return
    before each line feed the program writes what it writes on the input
    with line feeds alone, with a carriage return before each line feed,
    and it ends with a diagnostic on the one when it does on the other;
    this holds for [process] on a registry whose methods hold no line
    feed, hence for the program on a method line of declarations. *)
Theorem crlf_output stdin :
  nocr stdin ->
  (forall reg,
      nolf_methods reg ->
      output (run reg (crlf stdin)) = option_map crlf (output (run reg stdin)))
  /\
  (forall decls,
      forallb is_declaration decls = true ->
      (length decls <= MAX_NR_TAGS)%nat ->
      output (jsdev (map token decls) (crlf stdin))
      = option_map crlf (output (jsdev (map token decls) stdin))).
Proof.
  intros N.
  assert (K : forall reg,
             nolf_methods reg ->
             output (run reg (crlf stdin))
             = option_map crlf (output (run reg stdin))).
  { intros reg Hr. unfold run. eapply rel_output.
    - apply process_simo; [assumption|].
      split; [apply sim_initial; assumption | reflexivity].
    - apply (run_total reg stdin).
    - apply (run_total reg (crlf stdin)). }
  split; [exact K|].
  intros decls Hd Hl.
  rewrite (jsdev_declarations decls stdin Hd).
  rewrite (jsdev_declarations decls (crlf stdin) Hd).
  apply K. apply nolf_declarations. assumption.
Qed.

Lemma crlf_output_witness :
  let stdin := bytes "x = 1; // one" ++ [LF] ++ bytes "/*log 'a'," ++ [LF] ++
               bytes "  x*/" ++ [LF] in
  let decls := [(bytes "log", bytes "console.log")] in
  output (jsdev (map token decls) (crlf stdin))
  = option_map crlf (output (jsdev (map token decls) stdin)) /\
  output (jsdev (map token decls) stdin)
  = Some (bytes "x = 1; // one" ++ [LF] ++ bytes "{console.log('a'," ++
          [LF] ++ bytes "  x);}" ++ [LF]).
Proof.
  intros stdin decls. split.
  - apply (proj2 (crlf_output stdin eq_refl) decls).
    + reflexivity.
    + unfold MAX_NR_TAGS. simpl. lia.
  - vm_compute. reflexivity.
Defined.

(** ** The line of a diagnostic *)


